(** * The activation-transaction database of go-spacemesh

    A shallow embedding of [activation/atxdb.go]: the key-value store,
    the caches, the validators, the writer [StoreAtx] and the queries,
    followed by the properties proved about them. *)

From Stdlib Require Import ZArith String Ascii List Lia.
From stdpp Require Import base gmap strings list.

Local Open Scope string_scope.
Local Open Scope list_scope.
Local Open Scope Z_scope.

(** ** Errors and results *)

(** Go's [error] values.  [ErrNotFound] is [database.ErrNotFound]; [ErrIO]
    stands for every other failure a [database.DB] backend may report;
    [ErrCodec] for a failure of the serialisation library; [Errorf] carries
    the format string of the [fmt.Errorf] or [errors.New] call. *)
Inductive Error : Type :=
| ErrNotFound
| ErrIO
| ErrCodec
| Errorf (msg : string).

(** A Go [error] is either [nil] ([None]) or an error value. *)
Definition error : Type := option Error.

(** The pair [(value, error)] of a library call, when only one of the two is
    meaningful. *)
Inductive Result (A : Type) : Type :=
| Ok (a : A)
| Err (e : Error).
Arguments Ok {A} a.
Arguments Err {A} e.

#[global] Instance Error_eq_dec : EqDecision Error.
Proof. solve_decision. Defined.

(** ** Bytes and fixed-width integers *)

(** A [[]byte] is a [string]: a sequence of 8-bit characters. *)
Abbreviation Bytes := string (only parsing).

Definition byte_of_Z (z : Z) : ascii := ascii_of_N (Z.to_N (z mod 256)).
Definition Z_of_byte (c : ascii) : Z := Z.of_N (N_of_ascii c).

(** Modelled from the spec: the helpers of package [common] are not part of
    the sources; the spec fixes the encoding as little-endian. [le_bytes n z]
    is the [n]-byte little-endian encoding of [z]. *)
Fixpoint le_bytes (n : nat) (z : Z) : Bytes :=
  match n with
  | O => EmptyString
  | S n' => String (byte_of_Z z) (le_bytes n' (z / 256))
  end.

Definition Uint32ToBytes (i : Z) : Bytes := le_bytes 4 i.
Definition Uint64ToBytes (i : Z) : Bytes := le_bytes 8 i.

(** [BytesToUint32] reads the first four bytes; Go's
    [binary.LittleEndian.Uint32] panics on a shorter slice ([None]). *)
Definition BytesToUint32 (b : Bytes) : option Z :=
  match b with
  | String b0 (String b1 (String b2 (String b3 _))) =>
      Some (Z_of_byte b0 + 256 * (Z_of_byte b1 + 256 * (Z_of_byte b2 + 256 * Z_of_byte b3)))
  | _ => None
  end.

Definition wrap32 (z : Z) : Z := z mod 2 ^ 32.
Definition wrap64 (z : Z) : Z := z mod 2 ^ 64.

(** ** The data model *)

Abbreviation LayerID := Z (only parsing).   (* uint64 *)
Abbreviation EpochId := Z (only parsing).   (* uint64 *)
Abbreviation BlockID := Z (only parsing).   (* uint64 *)

(** A [common.Hash] is a 32-byte array; [AtxId] wraps one.  Both are kept as
    the byte string itself, so that [Bytes()] is the identity. *)
Abbreviation Hash := string (only parsing).
Abbreviation AtxId := Hash (only parsing).
Definition AtxId_Bytes (id : AtxId) : Bytes := id.

Definition zero_bytes (n : nat) : Bytes := le_bytes n 0.

(** [*types.EmptyAtxId]: the all-zero hash. *)
Definition EmptyAtxId : AtxId := Eval cbv in zero_bytes 32.

Record NodeId : Type := mkNodeId {
  Key : string;
  VRFPublicKey : Bytes
}.

(** The proof of space-time is opaque to the database. *)
Abbreviation NIPST := Bytes (only parsing).

(** Modelled from the spec: [types.ActivationTx] is declared outside the
    sources; the fields are those of the spec's data model, under the names
    the code uses.  [Nipst] is a pointer, [None] is [nil]. *)
Record ActivationTx : Type := mkAtx {
  NodeId_ : NodeId;
  Sequence : Z;              (* uint64 *)
  PrevATXId : AtxId;
  PubLayerIdx : LayerID;
  StartTick : Z;             (* uint64 *)
  PositioningAtx : AtxId;
  ActiveSetSize_ : Z;        (* uint32 *)
  View : list BlockID;
  Nipst : option NIPST
}.

(** [atx.Nipst = n]. *)
Definition set_Nipst (a : ActivationTx) (n : option NIPST) : ActivationTx :=
  {| NodeId_ := NodeId_ a; Sequence := Sequence a; PrevATXId := PrevATXId a;
     PubLayerIdx := PubLayerIdx a; StartTick := StartTick a;
     PositioningAtx := PositioningAtx a; ActiveSetSize_ := ActiveSetSize_ a;
     View := View a; Nipst := n |}.

(** Modelled from the spec: [types.Block] is declared outside the sources;
    only the fields the traversal reads are kept. *)
Record Block : Type := mkBlock {
  Id : BlockID;
  LayerIndex : LayerID;
  AtxIds : list AtxId;
  ViewEdges : list BlockID
}.

Record atxIdAndLayer : Type := mkIdAndLayer {
  AtxId_ : AtxId;
  LayerId : LayerID
}.

(** Modelled from the spec: [LayerID.GetEpoch], integer division by the
    number of layers per epoch (which the configuration keeps positive; Go
    panics on a zero divisor). *)
Definition GetEpoch (l : LayerID) (layersPerEpoch : Z) : EpochId :=
  l / layersPerEpoch.

(** Modelled from the spec: [ActivationTx.TargetEpoch], the publication
    epoch plus one (on [uint64]). *)
Definition TargetEpoch (a : ActivationTx) (layersPerEpoch : Z) : EpochId :=
  wrap64 (GetEpoch (PubLayerIdx a) layersPerEpoch + 1).

(** ** Functions of packages [types] and [common] that the sources call

    They are taken as parameters; the properties they are assumed to have are
    stated as separate predicates further down and appear as hypotheses of
    the theorems that need them. *)
Class TypesLib : Type := {
  (** [atx.Id()], the hash of the canonical encoding of the ATX. *)
  Id_of : ActivationTx → AtxId;
  (** [types.AtxAsBytes] and [types.BytesAsAtx]. *)
  AtxAsBytes : ActivationTx → Result Bytes;
  BytesAsAtx : Bytes → Result ActivationTx;
  (** [types.InterfaceToBytes] at [*types.NIPST]. *)
  NipstToBytes : option NIPST → Result Bytes;
  (** [types.InterfaceToBytes] and [types.BytesToInterface] at
      [atxIdAndLayer]. *)
  IdAndLayerToBytes : atxIdAndLayer → Result Bytes;
  BytesToIdAndLayer : Bytes → Result atxIdAndLayer;
  (** [types.ViewAsBytes]. *)
  ViewAsBytes : list BlockID → Result Bytes;
  (** [common.BytesToHash]. *)
  BytesToHash : Bytes → Hash;
  (** [atx.NIPSTChallenge.Hash()]. *)
  ChallengeHash : ActivationTx → Result Hash;
  (** [EpochId.IsGenesis]. *)
  IsGenesis : EpochId → bool
}.

(** ** The key-value store

    [database.DB] is an interface.  It is modelled as the in-memory map,
    together with the keys on which the backend fails: a [Get] on a key of
    [readFaults] and a [Put] on a key of [writeFaults] report [ErrIO]. *)
Record DB : Type := mkDB {
  cells : gmap string Bytes;
  readFaults : gset string;
  writeFaults : gset string
}.

Definition DB_Get (d : DB) (k : Bytes) : Result Bytes :=
  if decide (k ∈ readFaults d) then Err ErrIO
  else match cells d !! k with
       | Some v => Ok v
       | None => Err ErrNotFound
       end.

(** The store after a successful write. *)
Definition DB_write (d : DB) (k v : Bytes) : DB :=
  {| cells := <[k := v]> (cells d);
     readFaults := readFaults d;
     writeFaults := writeFaults d |}.

Definition DB_Put (d : DB) (k v : Bytes) : DB * error :=
  if decide (k ∈ writeFaults d) then (d, Some ErrIO)
  else (DB_write d k v, None).

Definition emptyDB : DB :=
  {| cells := ∅; readFaults := ∅; writeFaults := ∅ |}.

(** ** Bounded least-recently-used caches

    Modelled from the spec: [AtxCache] and the active-set cache are declared
    outside the sources; the spec describes bounded caches.  The entries are
    kept most recently used first. *)
Record Lru (K V : Type) : Type := mkLru {
  capacity : nat;
  entries : list (K * V)
}.
Arguments mkLru {K V}.
Arguments capacity {K V}.
Arguments entries {K V}.

Section lru.
Context {K V : Type} `{EqDecision K}.

Fixpoint lru_find (k : K) (l : list (K * V)) : option V :=
  match l with
  | [] => None
  | (k', v) :: l' => if decide (k' = k) then Some v else lru_find k l'
  end.

Fixpoint lru_remove (k : K) (l : list (K * V)) : list (K * V) :=
  match l with
  | [] => []
  | (k', v) :: l' =>
      if decide (k' = k) then lru_remove k l' else (k', v) :: lru_remove k l'
  end.

Definition lru_Get (c : Lru K V) (k : K) : option V * Lru K V :=
  match lru_find k (entries c) with
  | Some v => (Some v, mkLru (capacity c) ((k, v) :: lru_remove k (entries c)))
  | None => (None, c)
  end.

Definition lru_Add (c : Lru K V) (k : K) (v : V) : Lru K V :=
  mkLru (capacity c) (take (capacity c) ((k, v) :: lru_remove k (entries c))).
End lru.

(** ** The mesh

    Modelled from the spec: [mesh.MeshDB] is outside the sources.  The core
    uses one capability of it, [ForBlockInView]; the spec leaves the order of
    the visits open, so the mesh carries, besides its blocks, the sequence
    of blocks that a traversal from a view and a start layer hands to the
    callback, and the error (if any) with which the traversal itself ends
    after these visits. *)
Record MeshDB : Type := mkMesh {
  blocks : gmap BlockID Block;
  visits : gset BlockID → LayerID → list Block * error
}.

(** ** The identity store

    Modelled from the spec: the identity store is an interface declared
    outside the sources, [storeIdentity(nid) -> ok | IOError] and
    [getIdentity(key) -> NodeIdentity | NotFound].  It is the map from the
    signing key to the identity, together with the keys on which a write
    fails. *)
Record IdStore : Type := mkIdStore {
  identities : gmap string NodeId;
  storeFaults : gset string
}.

#[global] Instance IdStore_lookup : Lookup string NodeId IdStore :=
  λ k s, identities s !! k.

#[global] Instance IdStore_empty : Empty IdStore := mkIdStore ∅ ∅.

(** The store after a successful write of [n]. *)
Definition IdStore_write (s : IdStore) (n : NodeId) : IdStore :=
  mkIdStore (<[Key n := n]> (identities s)) (storeFaults s).

(** ** The database object *)

(** [activesetCache] is a package-level variable in the source; it is kept
    with the state of the receiver.  Locks, the logger and the clock are left
    out: the model is sequential and logging has no effect on the stores. *)
Record ActivationDb : Type := mkActivationDb {
  atxs : DB;
  nipsts : DB;
  atxCache : Lru AtxId ActivationTx;
  meshDb : MeshDB;
  LayersPerEpoch : Z;     (* uint16 *)
  nipstValidator : option NIPST → Hash → error;
  ids : IdStore;
  activesetCache : Lru Hash Z
}.

Definition with_atxs (db : ActivationDb) (d : DB) : ActivationDb :=
  {| atxs := d; nipsts := nipsts db; atxCache := atxCache db;
     meshDb := meshDb db; LayersPerEpoch := LayersPerEpoch db;
     nipstValidator := nipstValidator db; ids := ids db;
     activesetCache := activesetCache db |}.

Definition with_nipsts (db : ActivationDb) (d : DB) : ActivationDb :=
  {| atxs := atxs db; nipsts := d; atxCache := atxCache db;
     meshDb := meshDb db; LayersPerEpoch := LayersPerEpoch db;
     nipstValidator := nipstValidator db; ids := ids db;
     activesetCache := activesetCache db |}.

Definition with_atxCache (db : ActivationDb) (c : Lru AtxId ActivationTx) : ActivationDb :=
  {| atxs := atxs db; nipsts := nipsts db; atxCache := c;
     meshDb := meshDb db; LayersPerEpoch := LayersPerEpoch db;
     nipstValidator := nipstValidator db; ids := ids db;
     activesetCache := activesetCache db |}.

Definition with_ids (db : ActivationDb) (i : IdStore) : ActivationDb :=
  {| atxs := atxs db; nipsts := nipsts db; atxCache := atxCache db;
     meshDb := meshDb db; LayersPerEpoch := LayersPerEpoch db;
     nipstValidator := nipstValidator db; ids := i;
     activesetCache := activesetCache db |}.

Definition with_activesetCache (db : ActivationDb) (c : Lru Hash Z) : ActivationDb :=
  {| atxs := atxs db; nipsts := nipsts db; atxCache := atxCache db;
     meshDb := meshDb db; LayersPerEpoch := LayersPerEpoch db;
     nipstValidator := nipstValidator db; ids := ids db;
     activesetCache := c |}.

(** ** Computations on the database

    A method either returns a value and leaves a new state, or panics. *)
Inductive Outcome (A : Type) : Type :=
| Ret (a : A) (db : ActivationDb)
| Panic.
Arguments Ret {A} a db.
Arguments Panic {A}.

Definition M (A : Type) : Type := ActivationDb → Outcome A.

Definition ret {A} (a : A) : M A := λ db, Ret a db.

Definition bind {A B} (m : M A) (k : A → M B) : M B :=
  λ db, match m db with
        | Ret a db' => k a db'
        | Panic => Panic
        end.

Definition gets {A} (f : ActivationDb → A) : M A := λ db, Ret (f db) db.

Definition panic {A} : M A := λ _, Panic.

Declare Scope atx_scope.
Delimit Scope atx_scope with atx.
Notation "'let*' x := c 'in' k" := (bind c (λ x, k))
  (at level 10, x pattern, c at level 100, k at level 200) : atx_scope.
Local Open Scope atx_scope.

(** The store and cache operations, lifted to the database state. *)
Definition atxs_Get (k : Bytes) : M (Result Bytes) :=
  gets (λ db, DB_Get (atxs db) k).

Definition atxs_Put (k v : Bytes) : M error :=
  λ db, let '(d, err) := DB_Put (atxs db) k v in Ret err (with_atxs db d).

Definition nipsts_Put (k v : Bytes) : M error :=
  λ db, let '(d, err) := DB_Put (nipsts db) k v in Ret err (with_nipsts db d).

Definition atxCache_Get (id : AtxId) : M (option ActivationTx) :=
  λ db, let '(r, c) := lru_Get (atxCache db) id in Ret r (with_atxCache db c).

Definition atxCache_Add (id : AtxId) (atx : ActivationTx) : M unit :=
  λ db, Ret tt (with_atxCache db (lru_Add (atxCache db) id atx)).

Definition activesetCache_Get (h : Hash) : M (option Z) :=
  λ db, let '(r, c) := lru_Get (activesetCache db) h in
        Ret r (with_activesetCache db c).

Definition activesetCache_Add (h : Hash) (n : Z) : M unit :=
  λ db, Ret tt (with_activesetCache db (lru_Add (activesetCache db) h n)).

(** [StoreNodeIdentity] and [GetIdentity] of the identity store: a write on
    a key of [storeFaults] reports [ErrIO] and stores nothing; [GetIdentity]
    fails on a key that was never stored. *)
Definition StoreNodeIdentity (n : NodeId) : M error :=
  λ db, if decide (Key n ∈ storeFaults (ids db)) then Ret (Some ErrIO) db
        else Ret None (with_ids db (IdStore_write (ids db) n)).

Definition GetIdentity (db : ActivationDb) (edId : string) : Result NodeId :=
  match ids db !! edId with
  | Some n => Ok n
  | None => Err ErrNotFound
  end.

(** ** The methods of [ActivationDb]

    Callees come before their callers. *)

Definition CounterKey : Z := 0xaaaa.
Definition posAtxKey : Bytes := "posAtxKey".

Section atxdb.
Context `{TypesLib}.

(** [GetAtx]: the cache first, then the store. *)
Definition GetAtx (id : AtxId) : M (option ActivationTx * error) :=
  if decide (id = EmptyAtxId)
  then ret (None, Some (Errorf "trying to fetch empty atx id"))
  else
    let* hit := atxCache_Get id in
    match hit with
    | Some atx => ret (Some atx, None)
    | None =>
        let* r := atxs_Get (AtxId_Bytes id) in
        match r with
        | Err e => ret (None, Some e)
        | Ok b =>
            match BytesAsAtx b with
            | Err e => ret (None, Some e)
            | Ok atx =>
                let* _ := atxCache_Add id atx in
                ret (Some atx, None)
            end
        end
    end.

Definition getAtxUnlocked (db : ActivationDb) (id : AtxId)
  : option ActivationTx * error :=
  match DB_Get (atxs db) (AtxId_Bytes id) with
  | Err e => (None, Some e)
  | Ok b =>
      match BytesAsAtx b with
      | Err e => (None, Some e)
      | Ok atx => (Some atx, None)
      end
  end.

Definition getNodeIdKey (id : NodeId) : Bytes := Key id.

(** [GetNodeLastAtxId]. *)
Definition GetNodeLastAtxId (db : ActivationDb) (nodeId : NodeId)
  : AtxId * error :=
  match DB_Get (atxs db) (getNodeIdKey nodeId) with
  | Err e => (EmptyAtxId, Some e)
  | Ok id => (BytesToHash id, None)
  end.

(** [ContextuallyValidateAtx]. *)
Definition ContextuallyValidateAtx (db : ActivationDb) (atx : ActivationTx)
  : error :=
  if decide (PrevATXId atx ≠ EmptyAtxId) then
    let '(lastAtx, err) := GetNodeLastAtxId db (NodeId_ atx) in
    match err with
    | Some _ => Some (Errorf "could not fetch node last ATX: %v")
    | None =>
        if decide (lastAtx ≠ PrevATXId atx)
        then Some (Errorf "last atx is not the one referenced")
        else None
    end
  else
    let '(lastAtx, err) := GetNodeLastAtxId db (NodeId_ atx) in
    match err with
    | Some e =>
        if decide (e ≠ ErrNotFound) then Some e else None
    | None =>
        Some (Errorf "no prevATX reported, but other ATX with same nodeID (%v) found: %v")
    end.

(** *** [CalcActiveSetFromView] *)

(** The body of the loop over [blk.AtxIds] in [traversalFunc].  The closure
    updates the captured [set] and [counter]; they are threaded here.  A
    failing [GetAtx] ends in [log.Panic]. *)
Fixpoint countAtxIds (pubEpoch : EpochId) (l : list AtxId)
    (set : gset AtxId) (counter : Z) : M (gset AtxId * Z) :=
  match l with
  | [] => ret (set, counter)
  | id :: rest =>
      if decide (id ∈ set) then countAtxIds pubEpoch rest set counter
      else
        let set := {[id]} ∪ set in
        let* (atx, err) := GetAtx id in
        match err, atx with
        | None, Some atx =>
            let* L := gets LayersPerEpoch in
            if decide (TargetEpoch atx L ≠ pubEpoch)
            then countAtxIds pubEpoch rest set counter
            else countAtxIds pubEpoch rest set (wrap32 (counter + 1))
        | _, _ => panic
        end
  end.

Definition traversalFunc (pubEpoch countingEpoch : EpochId) (blk : Block)
    (st : gset AtxId * Z) : M (gset AtxId * Z * error) :=
  let* L := gets LayersPerEpoch in
  if decide (GetEpoch (LayerIndex blk) L ≠ countingEpoch)
  then ret (st, None)
  else
    let* st' := countAtxIds pubEpoch (AtxIds blk) (fst st) (snd st) in
    ret (st', None).

(** Modelled from the spec: [MeshDB.ForBlockInView] is outside the sources.
    It calls the handler on the blocks the mesh visits, stops at the first
    error of the handler and surfaces it; the state [St] is what the
    handler's closure captures. *)
Fixpoint forBlocks {St} (handler : Block → St → M (St * error))
    (bs : list Block) (st : St) : M (St * error) :=
  match bs with
  | [] => ret (st, None)
  | b :: bs' =>
      let* (st', err) := handler b st in
      match err with
      | Some e => ret (st', Some e)
      | None => forBlocks handler bs' st'
      end
  end.

Definition ForBlockInView {St} (view : gset BlockID) (layer : LayerID)
    (handler : Block → St → M (St * error)) (st : St) : M (St * error) :=
  let* mesh := gets meshDb in
  let '(bs, terr) := visits mesh view layer in
  let* (st', err) := forBlocks handler bs st in
  match err with
  | Some e => ret (st', Some e)
  | None => ret (st', terr)
  end.

Definition CalcActiveSetFromView (a : ActivationTx) : M (Z * error) :=
  match ViewAsBytes (View a) with
  | Err e => ret (0, Some e)
  | Ok viewBytes =>
      let hash := BytesToHash viewBytes in
      let* hit := activesetCache_Get hash in
      match hit with
      | Some count => ret (count, None)
      | None =>
          let* L := gets LayersPerEpoch in
          let pubEpoch := GetEpoch (PubLayerIdx a) L in
          if decide (pubEpoch < 1)
          then ret (0, Some (Errorf "publication epoch cannot be less than 1, found %v"))
          else
            let countingEpoch := pubEpoch - 1 in
            let firstLayerOfLastEpoch := wrap64 (countingEpoch * L) in
            let mp : gset BlockID := list_to_set (View a) in
            let* (st, err) :=
              ForBlockInView mp firstLayerOfLastEpoch
                (traversalFunc pubEpoch countingEpoch) (∅, 0) in
            match err with
            | Some e => ret (0, Some e)
            | None =>
                let counter := snd st in
                let* _ := activesetCache_Add (BytesToHash viewBytes) counter in
                ret (counter, None)
            end
      end
  end.

(** *** [SyntacticallyValidateAtx], one definition per check *)

(** The check of the previous ATX (the first [if] of the source). *)
Definition validatePrevAtx (atx : ActivationTx) : M error :=
  if decide (PrevATXId atx ≠ EmptyAtxId) then
    let* (prevATX, err) := GetAtx (PrevATXId atx) in
    match err, prevATX with
    | None, Some prevATX =>
        if decide (Key (NodeId_ prevATX) ≠ Key (NodeId_ atx))
        then ret (Some (Errorf "previous ATX belongs to different miner. atx.Id: %v, atx.NodeId: %v, prevAtx.NodeId: %v"))
        else if decide (wrap64 (Sequence prevATX + 1) ≠ Sequence atx)
        then ret (Some (Errorf "sequence number is not one more than prev sequence number"))
        else ret None
    | _, _ => ret (Some (Errorf "validation failed: prevATX not found: %v"))
    end
  else
    if decide (Sequence atx ≠ 0)
    then ret (Some (Errorf "no prevATX reported, but sequence number not zero"))
    else ret None.

(** The check of the positioning ATX (the second [if]). *)
Definition validatePositioningAtx (atx : ActivationTx) : M error :=
  if decide (PositioningAtx atx ≠ EmptyAtxId) then
    let* (posAtx, err) := GetAtx (PositioningAtx atx) in
    match err, posAtx with
    | None, Some posAtx =>
        if decide (PubLayerIdx atx ≤ PubLayerIdx posAtx)
        then ret (Some (Errorf "atx layer (%v) must be after positioning atx layer (%v)"))
        else
          let* L := gets LayersPerEpoch in
          if decide (wrap64 (PubLayerIdx atx - PubLayerIdx posAtx) > L)
          then ret (Some (Errorf "expected distance of one epoch (%v layers) from pos ATX but found %v"))
          else ret None
    | _, _ => ret (Some (Errorf "positioning atx not found"))
    end
  else
    let* L := gets LayersPerEpoch in
    let publicationEpoch := GetEpoch (PubLayerIdx atx) L in
    if negb (IsGenesis publicationEpoch)
    then ret (Some (Errorf "no positioning atx found"))
    else ret None.

(** The check of the declared active set size. *)
Definition validateActiveSet (atx : ActivationTx) : M error :=
  let* (activeSet, err) := CalcActiveSetFromView atx in
  let* L := gets LayersPerEpoch in
  if bool_decide (err ≠ None) && negb (IsGenesis (GetEpoch (PubLayerIdx atx) L))
  then ret (Some (Errorf "could not calculate active set for ATX %v"))
  else
    if decide (ActiveSetSize_ atx ≠ activeSet)
    then ret (Some (Errorf "atx contains view with unequal active ids (%v) than seen (%v)"))
    else ret None.

(** The check of the NIPST against the hash of the challenge. *)
Definition validateNipst (atx : ActivationTx) : M error :=
  match ChallengeHash atx with
  | Err _ => ret (Some (Errorf "cannot get NIPST Challenge hash: %v"))
  | Ok hash =>
      let* validate := gets nipstValidator in
      match validate (Nipst atx) hash with
      | Some _ => ret (Some (Errorf "NIPST not valid: %v"))
      | None => ret None
      end
  end.

(** [first_error] runs the checks in order and returns the first error. *)
Fixpoint first_error (checks : list (M error)) : M error :=
  match checks with
  | [] => ret None
  | c :: rest =>
      let* err := c in
      match err with
      | Some e => ret (Some e)
      | None => first_error rest
      end
  end.

Definition SyntacticallyValidateAtx (atx : ActivationTx) : M error :=
  first_error [validatePrevAtx atx; validatePositioningAtx atx;
               validateActiveSet atx; validateNipst atx].

(** *** The writer *)

(** [storeAtxUnlocked] writes the NIPST to its own store, detaches it from the
    ATX and writes the ATX.  The ATX is passed by pointer in the source: the
    ATX as the call leaves it is returned with the error. *)
Definition storeAtxUnlocked (atx : ActivationTx) : M (ActivationTx * error) :=
  match NipstToBytes (Nipst atx) with
  | Err e => ret (atx, Some e)
  | Ok b =>
      let* err := nipsts_Put (AtxId_Bytes (Id_of atx)) b in
      match err with
      | Some e => ret (atx, Some e)
      | None =>
          let atx := set_Nipst atx None in
          match AtxAsBytes atx with
          | Err e => ret (atx, Some e)
          | Ok b =>
              let* err := atxs_Put (AtxId_Bytes (Id_of atx)) b in
              ret (atx, err)
          end
      end
  end.

(** Modelled from the spec: [EpochId.ToBytes] is outside the sources; the
    epoch is encoded like every other [uint64]. *)
Definition EpochId_ToBytes (ech : EpochId) : Bytes := Uint64ToBytes ech.

Definition epochCounterKey (ech : EpochId) : Bytes :=
  (EpochId_ToBytes ech ++ Uint64ToBytes CounterKey)%string.

(** [incValidAtxCounter]: every error of the read starts the counter
    at 1. *)
Definition incValidAtxCounter (ech : EpochId) : M error :=
  let key := epochCounterKey ech in
  let* r := atxs_Get key in
  match r with
  | Err _ => atxs_Put key (Uint32ToBytes 1)
  | Ok val =>
      match BytesToUint32 val with
      | None => panic
      | Some n => atxs_Put key (Uint32ToBytes (wrap32 (n + 1)))
      end
  end.

(** [ActiveSetSize]; [None] is the panic of [BytesToUint32]. *)
Definition ActiveSetSize (db : ActivationDb) (epochId : EpochId)
  : option (Z * error) :=
  let key := epochCounterKey epochId in
  match DB_Get (atxs db) key with
  | Err _ => Some (0, Some (Errorf "could not fetch active set size from cache: %v"))
  | Ok val =>
      match BytesToUint32 val with
      | None => None
      | Some n => Some (n, None)
      end
  end.

(** The zero value [atxIdAndLayer{}]. *)
Definition zeroIdAndLayer : atxIdAndLayer :=
  {| AtxId_ := EmptyAtxId; LayerId := 0 |}.

Definition getCurrentAtxIdAndLayer (db : ActivationDb) : atxIdAndLayer * error :=
  match DB_Get (atxs db) posAtxKey with
  | Err e => (zeroIdAndLayer, Some e)
  | Ok posAtxBytes =>
      match BytesToIdAndLayer posAtxBytes with
      | Err _ => (zeroIdAndLayer, Some (Errorf "failed to unmarshal posAtx ID and layer: %v"))
      | Ok currentIdAndLayer => (currentIdAndLayer, None)
      end
  end.

Definition updatePosAtxIfNeeded (atx : ActivationTx) : M error :=
  let* (currentIdAndLayer, err) := gets getCurrentAtxIdAndLayer in
  if bool_decide (err ≠ None) && bool_decide (err ≠ Some ErrNotFound)
  then ret (Some (Errorf "failed to get current ATX ID and layer: %v"))
  else if bool_decide (err = None)
          && (LayerId currentIdAndLayer >=? PubLayerIdx atx)
  then ret None
  else
    let newIdAndLayer :=
      {| AtxId_ := Id_of atx; LayerId := PubLayerIdx atx |} in
    match IdAndLayerToBytes newIdAndLayer with
    | Err _ => ret (Some (Errorf "failed to marshal posAtx ID and layer: %v"))
    | Ok idAndLayerBytes =>
        let* err := atxs_Put posAtxKey idAndLayerBytes in
        match err with
        | Some _ => ret (Some (Errorf "failed to store posAtx ID and layer: %v"))
        | None => ret None
        end
    end.

Definition addAtxToNodeId (nodeId : NodeId) (atx : ActivationTx) : M error :=
  let key := getNodeIdKey nodeId in
  let* err := atxs_Put key (AtxId_Bytes (Id_of atx)) in
  match err with
  | Some _ => ret (Some (Errorf "failed to store ATX ID for node: %v"))
  | None => ret None
  end.

(** [StoreAtx].  The first [match] is the test [err == nil && len(b) > 0]
    on the read of the id key.  As in [storeAtxUnlocked], the ATX as the
    call leaves it is returned with the error. *)
Definition StoreAtx (ech : EpochId) (atx : ActivationTx)
  : M (ActivationTx * error) :=
  let* r := atxs_Get (AtxId_Bytes (Id_of atx)) in
  match r with
  | Ok (String _ _) => ret (atx, None)
  | _ =>
      let* (atx, err) := storeAtxUnlocked atx in
      match err with
      | Some e => ret (atx, Some e)
      | None =>
          let* err := updatePosAtxIfNeeded atx in
          match err with
          | Some e => ret (atx, Some e)
          | None =>
              let* err := incValidAtxCounter ech in
              match err with
              | Some e => ret (atx, Some e)
              | None =>
                  let* err := addAtxToNodeId (NodeId_ atx) atx in
                  match err with
                  | Some e => ret (atx, Some e)
                  | None => ret (atx, None)
                  end
              end
          end
      end
  end.

(** [ProcessAtx].  The result of [ContextuallyValidateAtx] selects the log
    line and nothing else; the errors of [StoreAtx] and of
    [StoreNodeIdentity] are logged.  The ATX as the call leaves it is
    returned.  The arguments of the log lines are not evaluated here: the
    source prints [atx.NodeId.Key[:5]], which needs a node key of five bytes
    at least; node keys are printed public keys, which are longer. *)
Definition ProcessAtx (atx : ActivationTx) : M ActivationTx :=
  let* (eatx, _) := GetAtx (Id_of atx) in
  match eatx with
  | Some _ => ret (set_Nipst atx None)
  | None =>
      let* L := gets LayersPerEpoch in
      let epoch := GetEpoch (PubLayerIdx atx) L in
      let* err := gets (λ db, ContextuallyValidateAtx db atx) in
      let* _ := ret (match err with
                     | Some _ => "ATX failed contextual validation"
                     | None => "ATX is valid"
                     end) in
      let* (atx, err) := StoreAtx epoch atx in
      let* err := StoreNodeIdentity (NodeId_ atx) in
      ret atx
  end.

(** *** The queries *)

Definition GetPosAtxId (db : ActivationDb) (epochId : EpochId) : AtxId * error :=
  let '(idAndLayer, err) := getCurrentAtxIdAndLayer db in
  match err with
  | Some e => (EmptyAtxId, Some e)
  | None =>
      if decide (GetEpoch (LayerId idAndLayer) (LayersPerEpoch db) ≠ epochId)
      then (EmptyAtxId,
            Some (Errorf "current posAtx (epoch %v) does not belong to the requested epoch (%v)"))
      else (AtxId_ idAndLayer, None)
  end.

Definition IsIdentityActive (edId : string) (layer : LayerID)
  : M (bool * AtxId * error) :=
  let* L := gets LayersPerEpoch in
  if decide (GetEpoch layer L = 0) then ret (true, EmptyAtxId, None)
  else
    let epoch := GetEpoch layer L in
    let* r := gets (λ db, GetIdentity db edId) in
    match r with
    | Err _ => ret (false, EmptyAtxId, None)
    | Ok nodeId =>
        let* (atxId, err) := gets (λ db, GetNodeLastAtxId db nodeId) in
        match err with
        | Some e => ret (false, EmptyAtxId, Some e)
        | None =>
            let* (atx, err) := GetAtx atxId in
            match err, atx with
            | None, Some atx =>
                let lastAtxTargetEpoch := TargetEpoch atx L in
                if decide (lastAtxTargetEpoch < epoch)
                then ret (false, EmptyAtxId, None)
                else if decide (lastAtxTargetEpoch > epoch) then
                  if decide (PrevATXId atx = EmptyAtxId)
                  then ret (false, EmptyAtxId, None)
                  else
                    let prevAtxId := PrevATXId atx in
                    let* (atx, err) := GetAtx prevAtxId in
                    match err, atx with
                    | None, Some atx =>
                        ret (bool_decide (TargetEpoch atx L = epoch), Id_of atx, None)
                    | _, _ => ret (false, EmptyAtxId, None)
                    end
                else ret (bool_decide (TargetEpoch atx L = epoch), Id_of atx, None)
            | _, _ => ret (false, EmptyAtxId, None)
            end
        end
    end.
End atxdb.

(** ** Sequences of calls *)

Section batches.
Context `{TypesLib}.

(** [StoreAtx] on each pair of the list in turn; the errors are collected. *)
Fixpoint StoreAtxs (l : list (EpochId * ActivationTx)) : M (list error) :=
  match l with
  | [] => ret []
  | (ech, atx) :: rest =>
      let* (_, err) := StoreAtx ech atx in
      let* errs := StoreAtxs rest in
      ret (err :: errs)
  end.

(** [ProcessAtx] on each ATX of the list in turn. *)
Fixpoint ProcessAtxs (l : list ActivationTx) : M unit :=
  match l with
  | [] => ret tt
  | atx :: rest =>
      let* _ := ProcessAtx atx in
      ProcessAtxs rest
  end.



End batches.

(** ** Assumptions on the inputs and on the library functions, and the
    vocabulary of the theorems *)

Section vocabulary.
Context `{TypesLib}.

Definition is_uint64 (z : Z) : Prop := 0 ≤ z < 2 ^ 64.

(** The keys of the ATX store with a fixed meaning: the positioning record,
    the epoch counters (16 bytes) and the ATX bodies (32 bytes).  The key of
    a node identity is a printed public key and is none of these. *)
Definition reservedKey (k : Bytes) : Prop :=
  k = posAtxKey ∨ String.length k = 16%nat ∨ String.length k = 32%nat.


(** [atx.Id()] is a 32-byte hash that does not cover the NIPST. *)
Definition id_is_hash : Prop :=
  ∀ a, String.length (Id_of a) = 32%nat.

Definition id_ignores_nipst : Prop :=
  ∀ a n, Id_of (set_Nipst a n) = Id_of a.

(** Decoding inverts encoding. *)
Definition atx_codec_sound : Prop :=
  ∀ a b, AtxAsBytes a = Ok b → BytesAsAtx b = Ok a.

Definition posAtx_codec_sound : Prop :=
  ∀ r b, IdAndLayerToBytes r = Ok b → BytesToIdAndLayer b = Ok r.

(** [common.BytesToHash] of 32 bytes is these bytes. *)
Definition hash_of_32_bytes : Prop :=
  ∀ h, String.length h = 32%nat → BytesToHash h = h.


(** What the second check of [SyntacticallyValidateAtx] asks for, in the
    words of the specification. *)
Definition positioning_ok (db : ActivationDb) (atx : ActivationTx) : Prop :=
  (PositioningAtx atx ≠ EmptyAtxId ∧
   ∃ pos db', GetAtx (PositioningAtx atx) db = Ret (Some pos, None) db'
              ∧ PubLayerIdx pos < PubLayerIdx atx
              ∧ PubLayerIdx atx - PubLayerIdx pos ≤ LayersPerEpoch db)
  ∨ (PositioningAtx atx = EmptyAtxId ∧
     IsGenesis (GetEpoch (PubLayerIdx atx) (LayersPerEpoch db)) = true).

(** The publication layer of whatever [GetAtx] returns for [id] is a
    [uint64]. *)
Definition found_layer_typed (db : ActivationDb) (id : AtxId) : Prop :=
  ∀ pos db', GetAtx id db = Ret (Some pos, None) db' → is_uint64 (PubLayerIdx pos).

(** The outcome of a successful [updatePosAtxIfNeeded] for [a] on the ATX
    store of [db]: either the record is kept, because it names a layer that
    is not below that of [a], or it is absent or names a lower layer and is
    overwritten; [d'] is the ATX store afterwards. *)
Definition posAtx_step (db : ActivationDb) (a : ActivationTx) (d' : DB) : Prop :=
  (d' = atxs db ∧
   ∃ cur, getCurrentAtxIdAndLayer db = (cur, None)
          ∧ PubLayerIdx a ≤ LayerId cur)
  ∨ (∃ bp, IdAndLayerToBytes {| AtxId_ := Id_of a; LayerId := PubLayerIdx a |} = Ok bp
           ∧ (posAtxKey ∉ writeFaults (atxs db))
           ∧ d' = DB_write (atxs db) posAtxKey bp
           ∧ (DB_Get (atxs db) posAtxKey = Err ErrNotFound
              ∨ ∃ cur, getCurrentAtxIdAndLayer db = (cur, None)
                       ∧ LayerId cur < PubLayerIdx a)).

(** The value a successful [incValidAtxCounter] writes for epoch [ech] on the
    ATX store [d]. *)
Definition counter_step (d : DB) (ech : EpochId) (cnt : Z) : Prop :=
  (∃ e, DB_Get d (epochCounterKey ech) = Err e ∧ cnt = 1)
  ∨ (∃ v n, DB_Get d (epochCounterKey ech) = Ok v
            ∧ BytesToUint32 v = Some n ∧ cnt = wrap32 (n + 1)).

(** [StoreAtx] returns at once for [a]: the store holds a non-empty value
    under the id of [a]. *)
Definition already_stored (db : ActivationDb) (a : ActivationTx) : Prop :=
  ∃ c s, DB_Get (atxs db) (AtxId_Bytes (Id_of a)) = Ok (String c s).

(** The record [updatePosAtxIfNeeded] writes for [a]. *)
Definition posAtx_record (a : ActivationTx) : atxIdAndLayer :=
  {| AtxId_ := Id_of a; LayerId := PubLayerIdx a |}.

(** The positioning record is absent, or names a layer below that of [a]. *)
Definition posAtx_absent_or_older (db : ActivationDb) (a : ActivationTx) : Prop :=
  DB_Get (atxs db) posAtxKey = Err ErrNotFound
  ∨ ∃ cur, getCurrentAtxIdAndLayer db = (cur, None) ∧ LayerId cur < PubLayerIdx a.

(** The first ATX of highest publication layer among [cur] (if any)
    followed by [l]. *)
Fixpoint first_max (cur : option ActivationTx) (l : list ActivationTx)
  : option ActivationTx :=
  match l with
  | [] => cur
  | a :: rest =>
      first_max
        (match cur with
         | Some m => if decide (PubLayerIdx a ≤ PubLayerIdx m) then Some m else Some a
         | None => Some a
         end) rest
  end.

(** What the positioning record of [db] says when [cur] is the ATX it
    should name. *)
Definition posAtx_is (db : ActivationDb) (cur : option ActivationTx) : Prop :=
  match cur with
  | None => DB_Get (atxs db) posAtxKey = Err ErrNotFound
  | Some m => getCurrentAtxIdAndLayer db = (posAtx_record m, None)
  end.




(** A database without ATXs, without I/O failures and with an empty ATX
    cache. *)
Definition fresh_database (db : ActivationDb) : Prop :=
  atxs db = emptyDB ∧ writeFaults (nipsts db) = ∅ ∧ entries (atxCache db) = [].

(** [db'] differs from [db] in the two caches at most. *)
Definition caches_only (db db' : ActivationDb) : Prop :=
  atxs db' = atxs db ∧ nipsts db' = nipsts db ∧ meshDb db' = meshDb db
  ∧ LayersPerEpoch db' = LayersPerEpoch db
  ∧ nipstValidator db' = nipstValidator db ∧ ids db' = ids db.

(** What [GetAtx] finds for [id] in the ATX store [d], the cache left
    aside. *)
Definition stored_atx (d : DB) (id : AtxId) : option ActivationTx :=
  if decide (id = EmptyAtxId) then None
  else match DB_Get d (AtxId_Bytes id) with
       | Ok b => match BytesAsAtx b with
                 | Ok a => Some a
                 | Err _ => None
                 end
       | Err _ => None
       end.

(** Every entry of the ATX cache is what the store holds under its id. *)
Definition cache_coherent (db : ActivationDb) : Prop :=
  ∀ id a, (id, a) ∈ entries (atxCache db) → stored_atx (atxs db) id = Some a.

(** The store [d] holds under [id] an ATX whose target epoch is
    [pubEpoch]. *)
Definition targets (d : DB) (L : Z) (pubEpoch : EpochId) (id : AtxId) : Prop :=
  match stored_atx d id with
  | Some atx => TargetEpoch atx L = pubEpoch
  | None => False
  end.

#[global] Instance targets_dec d L pubEpoch id : Decision (targets d L pubEpoch id).
Proof. unfold targets. destruct (stored_atx d id); apply _. Defined.

(** The ATX ids referenced by the blocks of [bs] that lie in epoch [e]. *)
Fixpoint epoch_ids (L : Z) (e : EpochId) (bs : list Block) : gset AtxId :=
  match bs with
  | [] => ∅
  | b :: rest =>
      (if decide (GetEpoch (LayerIndex b) L = e)
       then list_to_set (AtxIds b) else ∅) ∪ epoch_ids L e rest
  end.

(** Reachability in the block DAG, from the blocks of a view along
    [ViewEdges]. *)
Inductive reachable (m : MeshDB) (view : gset BlockID) : Block → Prop :=
| reach_view b :
    Id b ∈ view → blocks m !! Id b = Some b → reachable m view b
| reach_edge b p :
    reachable m view b → Id p ∈ ViewEdges b → blocks m !! Id p = Some p →
    reachable m view p.

(** The contract of the traversal for one view and start layer, as far as
    the count depends on it: the traversal ends without an error of its own,
    every block it hands to the callback is reachable from the view, and
    every reachable block at or above the start layer is handed to the
    callback. *)
Definition traversal_ok (m : MeshDB) (view : gset BlockID) (layer : LayerID) : Prop :=
  snd (visits m view layer) = None
  ∧ (∀ b, b ∈ fst (visits m view layer) → reachable m view b)
  ∧ (∀ b, reachable m view b → layer ≤ LayerIndex b →
          b ∈ fst (visits m view layer)).

(** The ids [CalcActiveSetFromView] is to count for [a]: those referenced by
    a block reachable from the view of [a] that lies in the epoch before the
    publication epoch of [a], under which the store holds an ATX whose target
    epoch is the publication epoch of [a]. *)
Definition counted (db : ActivationDb) (a : ActivationTx) (id : AtxId) : Prop :=
  let L := LayersPerEpoch db in
  let pubEpoch := GetEpoch (PubLayerIdx a) L in
  ∃ b atx,
    reachable (meshDb db) (list_to_set (View a)) b
    ∧ GetEpoch (LayerIndex b) L = pubEpoch - 1
    ∧ id ∈ AtxIds b
    ∧ stored_atx (atxs db) id = Some atx
    ∧ TargetEpoch atx L = pubEpoch.

(** Every ATX referenced by such a block is in the store. *)
Definition references_found (db : ActivationDb) (a : ActivationTx) : Prop :=
  let L := LayersPerEpoch db in
  ∀ b id,
    reachable (meshDb db) (list_to_set (View a)) b →
    GetEpoch (LayerIndex b) L = GetEpoch (PubLayerIdx a) L - 1 →
    id ∈ AtxIds b → is_Some (stored_atx (atxs db) id).
End vocabulary.

(** ** The constructor and the NIPST reader *)

(** Modelled from the spec: [NewAtxCache] is outside the sources; the cache
    it returns is empty and bounded by [size]. *)
Definition NewAtxCache (size : nat) : Lru AtxId ActivationTx := mkLru size [].

(** [NewActivationDb].  The active-set cache is a package-level variable
    that the constructor does not touch: the value it has when the database
    is built is passed in. *)
Definition NewActivationDb (dbstore nipstStore : DB) (idstore : IdStore)
    (mesh : MeshDB) (layersPerEpoch : Z)
    (validator : option NIPST → Hash → error) (activeset : Lru Hash Z)
  : ActivationDb :=
  {| atxs := dbstore; nipsts := nipstStore; atxCache := NewAtxCache 350;
     meshDb := mesh; LayersPerEpoch := layersPerEpoch;
     nipstValidator := validator; ids := idstore;
     activesetCache := activeset |}.

(** [types.BytesToInterface] at [*types.NIPST], the decoder of [GetNipst]. *)
Class NipstCodec : Type := {
  BytesToNipst : Bytes → Result NIPST
}.

Section nipst.
Context `{TypesLib} `{NipstCodec}.

(** [GetNipst]. *)
Definition GetNipst (db : ActivationDb) (atxId : AtxId) : option NIPST * error :=
  match DB_Get (nipsts db) (AtxId_Bytes atxId) with
  | Err e => (None, Some e)
  | Ok bts =>
      match BytesToNipst bts with
      | Err e => (None, Some e)
      | Ok npst => (Some npst, None)
      end
  end.

(** Decoding a NIPST inverts its encoding. *)
Definition nipst_codec_sound : Prop :=
  ∀ n b, NipstToBytes (Some n) = Ok b → BytesToNipst b = Ok n.
End nipst.

Section answers.
Context `{TypesLib}.

(** What [GetPosAtxId] answers for epoch [e] when the positioning record
    names the ATX [a]. *)
Definition posAtx_answer (L : Z) (a : ActivationTx) (e : EpochId) : AtxId * error :=
  if decide (GetEpoch (PubLayerIdx a) L = e) then (Id_of a, None)
  else (EmptyAtxId,
        Some (Errorf "current posAtx (epoch %v) does not belong to the requested epoch (%v)")).
End answers.

(** [db'] differs from [db] in the two stores at most, and the stores fail
    on the same keys. *)
Definition stores_only (db db' : ActivationDb) : Prop :=
  atxCache db' = atxCache db ∧ activesetCache db' = activesetCache db
  ∧ meshDb db' = meshDb db ∧ LayersPerEpoch db' = LayersPerEpoch db
  ∧ nipstValidator db' = nipstValidator db ∧ ids db' = ids db
  ∧ readFaults (atxs db') = readFaults (atxs db)
  ∧ writeFaults (atxs db') = writeFaults (atxs db)
  ∧ readFaults (nipsts db') = readFaults (nipsts db)
  ∧ writeFaults (nipsts db') = writeFaults (nipsts db).

Section more_vocabulary.
Context `{TypesLib}.


(** The ATX that makes the identity [edId] active in epoch [e]: the last ATX
    of its node if that one targets [e], or else, if the last ATX targets a
    later epoch, the previous ATX it names if that one targets [e]. *)
Definition active_atx (db : ActivationDb) (edId : string) (e : EpochId)
    (atx : ActivationTx) : Prop :=
  ∃ nodeId last x,
    ids db !! edId = Some nodeId
    ∧ GetNodeLastAtxId db nodeId = (last, None)
    ∧ stored_atx (atxs db) last = Some x
    ∧ ((TargetEpoch x (LayersPerEpoch db) = e ∧ atx = x)
       ∨ (TargetEpoch x (LayersPerEpoch db) > e
          ∧ stored_atx (atxs db) (PrevATXId x) = Some atx
          ∧ TargetEpoch atx (LayersPerEpoch db) = e)).
End more_vocabulary.

Section identity_status.
Context `{TypesLib}.

(** What [IsIdentityActive] returns for [edId] and [layer] when the ATXs are
    read from the store, the cache left aside. *)
Definition identity_status (db : ActivationDb) (edId : string) (layer : LayerID)
  : bool * AtxId * error :=
  let L := LayersPerEpoch db in
  let epoch := GetEpoch layer L in
  if decide (epoch = 0) then (true, EmptyAtxId, None)
  else
    match ids db !! edId with
    | None => (false, EmptyAtxId, None)
    | Some nodeId =>
        match GetNodeLastAtxId db nodeId with
        | (_, Some e) => (false, EmptyAtxId, Some e)
        | (last, None) =>
            match stored_atx (atxs db) last with
            | None => (false, EmptyAtxId, None)
            | Some x =>
                if decide (TargetEpoch x L < epoch) then (false, EmptyAtxId, None)
                else if decide (TargetEpoch x L > epoch) then
                  match stored_atx (atxs db) (PrevATXId x) with
                  | None => (false, EmptyAtxId, None)
                  | Some p => (bool_decide (TargetEpoch p L = epoch), Id_of p, None)
                  end
                else (bool_decide (TargetEpoch x L = epoch), Id_of x, None)
            end
        end
    end.
End identity_status.

Section validation_vocabulary.
Context `{TypesLib}.

(** What the first check of [SyntacticallyValidateAtx] asks for: the
    previous ATX, if one is named, is found, belongs to the same node key and
    has the sequence number before that of the ATX (on [uint64]); without a
    previous ATX the sequence number is 0. *)
Definition prevAtx_ok (db : ActivationDb) (atx : ActivationTx) : Prop :=
  (PrevATXId atx ≠ EmptyAtxId ∧
   ∃ prev db', GetAtx (PrevATXId atx) db = Ret (Some prev, None) db'
               ∧ Key (NodeId_ prev) = Key (NodeId_ atx)
               ∧ wrap64 (Sequence prev + 1) = Sequence atx)
  ∨ (PrevATXId atx = EmptyAtxId ∧ Sequence atx = 0).
End validation_vocabulary.

(** ** A reference implementation of the library functions

    Used for the worked examples: a 32-byte id built from the node key, the
    sequence number and the publication layer, and codecs that print the
    binary digits of an injective numbering. *)

#[global] Instance NodeId_eq_dec : EqDecision NodeId.
Proof. solve_decision. Defined.
#[global] Instance ActivationTx_eq_dec : EqDecision ActivationTx.
Proof. solve_decision. Defined.
#[global] Instance atxIdAndLayer_eq_dec : EqDecision atxIdAndLayer.
Proof. solve_decision. Defined.

Definition atx_fields (a : ActivationTx)
  : ((string * Bytes) * (Z * AtxId))
    * ((LayerID * Z) * (AtxId * (Z * (list BlockID * option NIPST)))) :=
  (((Key (NodeId_ a), VRFPublicKey (NodeId_ a)), (Sequence a, PrevATXId a)),
   ((PubLayerIdx a, StartTick a),
    (PositioningAtx a, (ActiveSetSize_ a, (View a, Nipst a))))).

Definition atx_of_fields
    (t : ((string * Bytes) * (Z * AtxId))
         * ((LayerID * Z) * (AtxId * (Z * (list BlockID * option NIPST)))))
  : ActivationTx :=
  let '(((k, v), (s, p)), ((l, t), (q, (n, (w, x))))) := t in
  mkAtx (mkNodeId k v) s p l t q n w x.

#[global] Instance ActivationTx_countable : Countable ActivationTx.
Proof.
  refine (inj_countable' atx_fields atx_of_fields _).
  intros [[] ? ? ? ? ? ? ? ?]. reflexivity.
Defined.

#[global] Instance atxIdAndLayer_countable : Countable atxIdAndLayer.
Proof.
  refine (inj_countable' (λ r, (AtxId_ r, LayerId r))
                         (λ p, mkIdAndLayer (fst p) (snd p)) _).
  intros []. reflexivity.
Defined.

Fixpoint pos_to_bits (p : positive) : Bytes :=
  match p with
  | xH => EmptyString
  | xO p => String "0" (pos_to_bits p)
  | xI p => String "1" (pos_to_bits p)
  end.

Fixpoint bits_to_pos (b : Bytes) : option positive :=
  match b with
  | EmptyString => Some xH
  | String c b' =>
      match bits_to_pos b' with
      | None => None
      | Some p =>
          if decide (c = "0"%char) then Some (xO p)
          else if decide (c = "1"%char) then Some (xI p)
          else None
      end
  end.

(** The last 32 bytes, padded with zero bytes on the left. *)
Definition ex_BytesToHash (b : Bytes) : Hash :=
  string_of_list_ascii
    (rev (take 32 (rev (list_ascii_of_string b) ++ repeat zero 32))).

Definition ex_Id_of (a : ActivationTx) : AtxId :=
  ex_BytesToHash (Key (NodeId_ a) ++ Uint64ToBytes (Sequence a)
                  ++ Uint64ToBytes (PubLayerIdx a))%string.

Definition ex_decode {A} `{Countable A} (tag : ascii) (b : Bytes) : Result A :=
  match b with
  | String c r =>
      if decide (c = tag) then
        match bits_to_pos r with
        | Some p =>
            match decode p with
            | Some a => Ok a
            | None => Err ErrCodec
            end
        | None => Err ErrCodec
        end
      else Err ErrCodec
  | EmptyString => Err ErrCodec
  end.

Definition ex_encode {A} `{Countable A} (tag : ascii) (a : A) : Result Bytes :=
  Ok (String tag (pos_to_bits (encode a))).

Definition exLib : TypesLib :=
  {| Id_of := ex_Id_of;
     AtxAsBytes := ex_encode "A";
     BytesAsAtx := ex_decode "A";
     NipstToBytes := ex_encode "N";
     IdAndLayerToBytes := ex_encode "P";
     BytesToIdAndLayer := ex_decode "P";
     ViewAsBytes := ex_encode "V";
     BytesToHash := ex_BytesToHash;
     ChallengeHash := λ a, Ok (ex_Id_of a);
     IsGenesis := λ e, bool_decide (e = 0) |}.

(** *** Example states and ATXs *)

Definition ex_mesh : MeshDB :=
  {| blocks := ∅; visits := λ _ _, ([], None) |}.

(** An empty database with four layers per epoch. *)
Definition ex_db : ActivationDb :=
  {| atxs := emptyDB; nipsts := emptyDB;
     atxCache := mkLru 350 [];
     meshDb := ex_mesh;
     LayersPerEpoch := 4;
     nipstValidator := λ _ _, None;
     ids := ∅;
     activesetCache := mkLru 1000 [] |}.

Definition ex_node : NodeId :=
  {| Key := "0f1e2d3c4b5a69788796a5b4c3d2e1f00f1e2d3c4b5a69788796a5b4c3d2e1f0";
     VRFPublicKey := "vrf" |}.

(** The first ATX of [ex_node], published in layer 3 (epoch 0). *)
Definition ex_atxA : ActivationTx :=
  {| NodeId_ := ex_node; Sequence := 0; PrevATXId := EmptyAtxId;
     PubLayerIdx := 3; StartTick := 0; PositioningAtx := EmptyAtxId;
     ActiveSetSize_ := 0; View := []; Nipst := Some "proof A" |}.

(** An ATX of [ex_node] that refers to a previous ATX nobody has seen. *)
Definition ex_atxOrphan : ActivationTx :=
  {| NodeId_ := ex_node; Sequence := 1;
     PrevATXId := ex_Id_of ex_atxA;
     PubLayerIdx := 7; StartTick := 0; PositioningAtx := EmptyAtxId;
     ActiveSetSize_ := 0; View := []; Nipst := Some "proof B" |}.

(** A block of layer 2 (epoch 0) that refers to [ex_atxA], and a mesh that
    holds just this block. *)
Definition ex_block1 : Block :=
  {| Id := 1; LayerIndex := 2; AtxIds := [ex_Id_of ex_atxA]; ViewEdges := [] |}.

Definition ex_mesh1 : MeshDB :=
  {| blocks := {[ 1 := ex_block1 ]};
     visits := λ view layer,
       (if decide (1 ∈ view ∧ layer ≤ 2) then [ex_block1] else [], None) |}.

Definition ex_db1 : ActivationDb :=
  {| atxs := emptyDB; nipsts := emptyDB;
     atxCache := mkLru 350 [];
     meshDb := ex_mesh1;
     LayersPerEpoch := 4;
     nipstValidator := λ _ _, None;
     ids := ∅;
     activesetCache := mkLru 1000 [] |}.

(** The state a computation leaves, [db] itself if it panics. *)
Definition state_after {A} (m : M A) (db : ActivationDb) : ActivationDb :=
  match m db with
  | Ret _ db' => db'
  | Panic => db
  end.

(** [ex_db1] after [ProcessAtx] of [ex_atxA]. *)
Definition ex_dbA : ActivationDb :=
  state_after (ProcessAtx (H:=exLib) ex_atxA) ex_db1.

(** The second ATX of [ex_node], published in layer 7 (epoch 1), with the
    view of block 1. *)
Definition ex_atxB : ActivationTx :=
  {| NodeId_ := ex_node; Sequence := 1; PrevATXId := ex_Id_of ex_atxA;
     PubLayerIdx := 7; StartTick := 0; PositioningAtx := ex_Id_of ex_atxA;
     ActiveSetSize_ := 1; View := [1]; Nipst := Some "proof B" |}.

(** An ATX with the same view, published in layer 11 (epoch 2). *)
Definition ex_atxC : ActivationTx :=
  {| NodeId_ := ex_node; Sequence := 2; PrevATXId := ex_Id_of ex_atxB;
     PubLayerIdx := 11; StartTick := 0; PositioningAtx := ex_Id_of ex_atxB;
     ActiveSetSize_ := 0; View := [1]; Nipst := Some "proof C" |}.

(** A database whose store holds the count 5 for epoch 0 and fails to read
    it. *)
Definition ex_dbFaulty : ActivationDb :=
  with_atxs ex_db
    {| cells := {[ epochCounterKey 0 := Uint32ToBytes 5 ]};
       readFaults := {[ epochCounterKey 0 ]};
       writeFaults := ∅ |}.

(** A database that fails to read the id key of [ex_atxA]. *)
Definition ex_dbIdFault : ActivationDb :=
  with_atxs ex_db
    {| cells := ∅; readFaults := {[ ex_Id_of ex_atxA ]}; writeFaults := ∅ |}.

(** [ex_db] after [StoreAtx] of [ex_atxA], and the same database with a
    positioning record that can no longer be written. *)
Definition ex_dbStoredA : ActivationDb :=
  state_after (StoreAtx (H:=exLib) 0 ex_atxA) ex_db.

Definition ex_dbPosLocked : ActivationDb :=
  with_atxs ex_dbStoredA
    {| cells := cells (atxs ex_dbStoredA); readFaults := ∅;
       writeFaults := {[ posAtxKey ]} |}.

(** An ATX of layer 1 whose node key is the key of the positioning
    record. *)
Definition ex_atxP : ActivationTx :=
  {| NodeId_ := {| Key := "posAtxKey"; VRFPublicKey := "vrf" |};
     Sequence := 0; PrevATXId := EmptyAtxId;
     PubLayerIdx := 1; StartTick := 0; PositioningAtx := EmptyAtxId;
     ActiveSetSize_ := 0; View := []; Nipst := Some "proof P" |}.

(** The encoding of the view [[1]] and the calls of the worked examples. *)
Definition ex_viewBytes : Bytes := String "V" (pos_to_bits (encode [1])).

Definition ex_stores : list (Z * ActivationTx) :=
  [(0, ex_atxA); (1, ex_atxOrphan)].

(** *** Further example states *)

(** The decoder of the reference implementation: the zero value for an absent
    NIPST. *)
Definition exNipst : NipstCodec :=
  {| BytesToNipst := λ b,
       match ex_decode (A:=option string) "N" b with
       | Ok (Some n) => Ok n
       | Ok None => Ok EmptyString
       | Err e => Err e
       end |}.


(** The empty database on which the positioning record cannot be written. *)
Definition ex_dbNoPos : ActivationDb :=
  with_atxs ex_db
    {| cells := ∅; readFaults := ∅; writeFaults := {[ posAtxKey ]} |}.

(** Another identity, and its first ATX, published in layer 5 (epoch 1). *)
Definition ex_node2 : NodeId :=
  {| Key := "a0b1c2d3e4f5061728394a5b6c7d8e9fa0b1c2d3e4f5061728394a5b6c7d8e9f";
     VRFPublicKey := "vrf2" |}.

Definition ex_atxD : ActivationTx :=
  {| NodeId_ := ex_node2; Sequence := 0; PrevATXId := EmptyAtxId;
     PubLayerIdx := 5; StartTick := 0; PositioningAtx := ex_Id_of ex_atxA;
     ActiveSetSize_ := 0; View := []; Nipst := Some "proof D" |}.

(** The empty database on which the body of [ex_atxA] cannot be written, and
    the one on which the positioning record cannot be read. *)
Definition ex_dbNoBody : ActivationDb :=
  with_atxs ex_db
    {| cells := ∅; readFaults := ∅; writeFaults := {[ ex_Id_of ex_atxA ]} |}.

Definition ex_dbPosFault : ActivationDb :=
  with_atxs ex_db
    {| cells := ∅; readFaults := {[ posAtxKey ]}; writeFaults := ∅ |}.

(** The empty database with a counter of epoch 0 that holds the largest
    [uint32]. *)
Definition ex_dbFull : ActivationDb :=
  with_atxs ex_db
    {| cells := {[ epochCounterKey 0 := Uint32ToBytes (2 ^ 32 - 1) ]};
       readFaults := ∅; writeFaults := ∅ |}.



(** [ex_db1] after [ProcessAtx] of the chain [ex_atxA], [ex_atxB],
    [ex_atxC] of [ex_node]. *)
Definition ex_dbABC : ActivationDb :=
  state_after (ProcessAtxs (H:=exLib) [ex_atxA; ex_atxB; ex_atxC]) ex_db1.

(** * The discovery mocks

    A shallow embedding of [p2p/discovery/discovery_mock.go].  The types of
    nodes, keys and known addresses are opaque to the mocks.  The callbacks
    are Go closures: [World] is whatever state they read and write, and they
    are taken not to reach the mock itself.  A method takes the mock and the
    world and returns both with its result.  [int] is the 64-bit integer. *)
Module discovery_mock.

Definition wrapInt (z : Z) : Z := (z + 2 ^ 63) mod 2 ^ 64 - 2 ^ 63.

Section mocks.
Context {Node NodeInfo PublicKey KnownAddress World : Type}.

Record MockPeerStore : Type := mkMockPeerStore {
  UpdateFunc : option (Node → Node → World → World);
  updateCount : Z;
  SelectPeersFunc : option (Z → World → list Node * World);
  bsres : error;
  bsCount : Z;
  LookupFunc : option (PublicKey → World → (Node * error) * World);
  lookupRes : Node;
  lookupErr : error
}.

Definition SetUpdate (f : option (Node → Node → World → World))
    (m : MockPeerStore) : MockPeerStore :=
  mkMockPeerStore f (updateCount m) (SelectPeersFunc m) (bsres m) (bsCount m)
    (LookupFunc m) (lookupRes m) (lookupErr m).

Definition SetLookupResult (node : Node) (err : error)
    (m : MockPeerStore) : MockPeerStore :=
  mkMockPeerStore (UpdateFunc m) (updateCount m) (SelectPeersFunc m) (bsres m)
    (bsCount m) (LookupFunc m) node err.

Definition Update (n src : Node) (m : MockPeerStore) (w : World)
  : MockPeerStore * World :=
  let w' := match UpdateFunc m with
            | Some f => f n src w
            | None => w
            end in
  (mkMockPeerStore (UpdateFunc m) (wrapInt (updateCount m + 1)) (SelectPeersFunc m)
     (bsres m) (bsCount m) (LookupFunc m) (lookupRes m) (lookupErr m), w').

Definition UpdateCount (m : MockPeerStore) : Z := updateCount m.

Definition BootstrapCount (m : MockPeerStore) : Z := bsCount m.

Definition Lookup (pubkey : PublicKey) (m : MockPeerStore) (w : World)
  : (Node * error) * World :=
  match LookupFunc m with
  | Some f => f pubkey w
  | None => ((lookupRes m, lookupErr m), w)
  end.

Definition SetBootstrap (err : error) (m : MockPeerStore) : MockPeerStore :=
  mkMockPeerStore (UpdateFunc m) (updateCount m) (SelectPeersFunc m) err
    (bsCount m) (LookupFunc m) (lookupRes m) (lookupErr m).

Definition Bootstrap (m : MockPeerStore) : error * MockPeerStore :=
  (bsres m,
   mkMockPeerStore (UpdateFunc m) (updateCount m) (SelectPeersFunc m) (bsres m)
     (wrapInt (bsCount m + 1)) (LookupFunc m) (lookupRes m) (lookupErr m)).

Definition SelectPeers (qty : Z) (m : MockPeerStore) (w : World)
  : list Node * World :=
  match SelectPeersFunc m with
  | Some f => f qty w
  | None => ([], w)
  end.

Definition Size (m : MockPeerStore) : Z := updateCount m.

(** [Update] on each pair of a list in turn. *)
Fixpoint Updates (l : list (Node * Node)) (m : MockPeerStore) (w : World)
  : MockPeerStore * World :=
  match l with
  | [] => (m, w)
  | (n, src) :: rest => let '(m', w') := Update n src m w in Updates rest m' w'
  end.

Record mockAddrBook : Type := mkMockAddrBook {
  addAddressFunc : option (NodeInfo → NodeInfo → World → World);
  addressCount : Z;
  book_LookupFunc : option (PublicKey → World → (NodeInfo * error) * World);
  book_lookupRes : NodeInfo;
  book_lookupErr : error;
  GetAddressFunc : option (World → option KnownAddress * World);
  GetAddressRes : option KnownAddress;
  AddressCacheResult : list NodeInfo
}.

Definition with_addressCount (m : mockAddrBook) (c : Z) : mockAddrBook :=
  mkMockAddrBook (addAddressFunc m) c (book_LookupFunc m) (book_lookupRes m)
    (book_lookupErr m) (GetAddressFunc m) (GetAddressRes m) (AddressCacheResult m).

Definition AddAddress (n src : NodeInfo) (m : mockAddrBook) (w : World)
  : mockAddrBook * World :=
  let w' := match addAddressFunc m with
            | Some f => f n src w
            | None => w
            end in
  (with_addressCount m (wrapInt (addressCount m + 1)), w').

(** The loop of [AddAddresses], for the callback [f]. *)
Fixpoint addEach (f : NodeInfo → NodeInfo → World → World) (n : list NodeInfo)
    (src : NodeInfo) (m : mockAddrBook) (w : World) : mockAddrBook * World :=
  match n with
  | [] => (m, w)
  | addr :: rest =>
      addEach f rest src (with_addressCount m (wrapInt (addressCount m + 1)))
        (f addr src w)
  end.

Definition AddAddresses (n : list NodeInfo) (src : NodeInfo)
    (m : mockAddrBook) (w : World) : mockAddrBook * World :=
  match addAddressFunc m with
  | Some f => addEach f n src m w
  | None => (m, w)
  end.

Definition AddAddressCount (m : mockAddrBook) : Z := addressCount m.

Definition AddressCache (m : mockAddrBook) : list NodeInfo := AddressCacheResult m.

Definition NumAddresses (m : mockAddrBook) : Z := addressCount m.

(** [AddAddress] on each address of a list in turn. *)
Fixpoint AddAddress_each (n : list NodeInfo) (src : NodeInfo)
    (m : mockAddrBook) (w : World) : mockAddrBook * World :=
  match n with
  | [] => (m, w)
  | addr :: rest =>
      let '(m', w') := AddAddress addr src m w in AddAddress_each rest src m' w'
  end.
End mocks.

Arguments MockPeerStore : clear implicits.
Arguments mockAddrBook : clear implicits.
End discovery_mock.

(** * Properties *)

(** ** Bytes *)

Lemma length_le_bytes n z : String.length (le_bytes n z) = n.
Proof. revert z; induction n as [|n IH]; intros z; simpl; [done|]. by rewrite IH. Qed.

Lemma length_string_app (s t : string) :
  String.length (s ++ t)%string = (String.length s + String.length t)%nat.
Proof. induction s as [|c s IH]; simpl; [done|]. by rewrite IH. Qed.

Lemma length_epochCounterKey e : String.length (epochCounterKey e) = 16%nat.
Proof.
  unfold epochCounterKey, EpochId_ToBytes, Uint64ToBytes.
  by rewrite length_string_app, !length_le_bytes.
Qed.

Lemma Z_of_byte_of_Z z : Z_of_byte (byte_of_Z z) = z mod 256.
Proof.
  unfold Z_of_byte, byte_of_Z.
  rewrite N_ascii_embedding.
  - rewrite Z2N.id; [done|]. apply Z.mod_pos_bound; lia.
  - assert (0 ≤ z mod 256 < 256) by (apply Z.mod_pos_bound; lia). lia.
Qed.

Lemma BytesToUint32_Uint32ToBytes n :
  BytesToUint32 (Uint32ToBytes n) = Some (wrap32 n).
Proof.
  unfold Uint32ToBytes, wrap32; simpl. rewrite !Z_of_byte_of_Z. f_equal.
  change (2 ^ 32) with (256 * (256 * (256 * 256))).
  rewrite !Z.rem_mul_r by lia.
  rewrite !Z.div_div by lia. simpl. lia.
Qed.

Lemma le_bytes_inj n x y :
  0 ≤ x < 256 ^ Z.of_nat n → 0 ≤ y < 256 ^ Z.of_nat n →
  le_bytes n x = le_bytes n y → x = y.
Proof.
  revert x y; induction n as [|n IH]; intros x y Hx Hy Heq.
  - simpl in *. lia.
  - simpl in Heq. injection Heq as Hb Hr.
    assert (Hm : x mod 256 = y mod 256).
    { rewrite <- (Z_of_byte_of_Z x), <- (Z_of_byte_of_Z y). by rewrite Hb. }
    rewrite Nat2Z.inj_succ, Z.pow_succ_r in Hx, Hy by lia.
    assert (x / 256 = y / 256).
    { apply IH; [| |done].
      - split; [apply Z.div_pos; lia|]. apply Z.div_lt_upper_bound; lia.
      - split; [apply Z.div_pos; lia|]. apply Z.div_lt_upper_bound; lia. }
    rewrite (Z.div_mod x 256), (Z.div_mod y 256) by lia. congruence.
Qed.

Lemma string_app_inj_l (a b c d : string) :
  String.length a = String.length b → (a ++ c)%string = (b ++ d)%string → a = b.
Proof.
  revert b; induction a as [|x a IH]; intros [|y b] Hl Heq; simpl in *; try done.
  injection Heq as -> Heq. f_equal. apply IH; [lia|done].
Qed.

Lemma epochCounterKey_inj e1 e2 :
  is_uint64 e1 → is_uint64 e2 → epochCounterKey e1 = epochCounterKey e2 → e1 = e2.
Proof.
  unfold is_uint64, epochCounterKey, EpochId_ToBytes, Uint64ToBytes.
  intros H1 H2 Heq. apply string_app_inj_l in Heq.
  - eapply (le_bytes_inj 8); [..|done]; simpl; lia.
  - by rewrite !length_le_bytes.
Qed.

(** ** The key-value store *)

Lemma DB_Get_Ok d k v : DB_Get d k = Ok v ↔ (k ∉ readFaults d) ∧ cells d !! k = Some v.
Proof.
  unfold DB_Get. case_decide; [naive_solver|].
  destruct (cells d !! k); naive_solver.
Qed.

Lemma DB_Get_NotFound d k :
  DB_Get d k = Err ErrNotFound ↔ (k ∉ readFaults d) ∧ cells d !! k = None.
Proof.
  unfold DB_Get. case_decide; [naive_solver|].
  destruct (cells d !! k); naive_solver.
Qed.

Lemma DB_Get_Err d k e :
  DB_Get d k = Err e →
  (e = ErrIO ∧ k ∈ readFaults d) ∨ (e = ErrNotFound ∧ (k ∉ readFaults d) ∧ cells d !! k = None).
Proof.
  unfold DB_Get. case_decide; [naive_solver|].
  destruct (cells d !! k); naive_solver.
Qed.

Lemma DB_Put_faults d k v : 
  readFaults (DB_Put d k v).1 = readFaults d ∧
  writeFaults (DB_Put d k v).1 = writeFaults d.
Proof. unfold DB_Put. by case_decide. Qed.

Lemma DB_Put_ok d k v :
  k ∉ writeFaults d → DB_Put d k v = (DB_write d k v, None).
Proof. intros. unfold DB_Put. by case_decide. Qed.

Lemma DB_Put_inv d k v d' err :
  DB_Put d k v = (d', err) →
  (err = Some ErrIO ∧ k ∈ writeFaults d ∧ d' = d)
  ∨ (err = None ∧ (k ∉ writeFaults d) ∧ d' = DB_write d k v).
Proof. unfold DB_Put. case_decide; naive_solver. Qed.

Lemma DB_Get_write d k v k' :
  DB_Get (DB_write d k v) k' =
    if decide (k' ∈ readFaults d) then Err ErrIO
    else if decide (k = k') then Ok v else DB_Get d k'.
Proof.
  unfold DB_Get, DB_write; simpl. case_decide; [done|].
  rewrite lookup_insert. by case_decide.
Qed.

Lemma DB_Get_write_ne d k v k' :
  k ≠ k' → DB_Get (DB_write d k v) k' = DB_Get d k'.
Proof.
  intros. rewrite DB_Get_write. unfold DB_Get. by repeat case_decide.
Qed.

Lemma with_atxs_id db : with_atxs db (atxs db) = db.
Proof. by destruct db. Qed.

Lemma with_nipsts_id db : with_nipsts db (nipsts db) = db.
Proof. by destruct db. Qed.

(** ** Contextual validation *)

Section contextual.
Context `{TypesLib}.

(** C5.  [ContextuallyValidateAtx] returns [nil] exactly when: with a
    previous ATX referenced, [GetNodeLastAtxId] of the node finds that very
    ATX; with no previous ATX referenced, [GetNodeLastAtxId] reports
    [ErrNotFound]. *)
Theorem ContextuallyValidateAtx_ok_iff (db : ActivationDb) (atx : ActivationTx) :
  ContextuallyValidateAtx db atx = None ↔
    (PrevATXId atx ≠ EmptyAtxId ∧
       GetNodeLastAtxId db (NodeId_ atx) = (PrevATXId atx, None))
    ∨ (PrevATXId atx = EmptyAtxId ∧
       snd (GetNodeLastAtxId db (NodeId_ atx)) = Some ErrNotFound).
Proof.
  unfold ContextuallyValidateAtx.
  destruct (GetNodeLastAtxId db (NodeId_ atx)) as [lastAtx [e|]]; simpl;
    repeat case_decide; naive_solver.
Qed.

(** The three failures of the claim, each with the store state that causes
    it. *)
Lemma ContextuallyValidateAtx_prev_missing db atx e :
  PrevATXId atx ≠ EmptyAtxId →
  snd (GetNodeLastAtxId db (NodeId_ atx)) = Some e →
  ContextuallyValidateAtx db atx = Some (Errorf "could not fetch node last ATX: %v").
Proof.
  intros Hp He. unfold ContextuallyValidateAtx.
  destruct (GetNodeLastAtxId db (NodeId_ atx)) as [lastAtx err]; simpl in *; subst.
  by case_decide.
Qed.

Lemma ContextuallyValidateAtx_prev_stale db atx last :
  PrevATXId atx ≠ EmptyAtxId →
  GetNodeLastAtxId db (NodeId_ atx) = (last, None) → last ≠ PrevATXId atx →
  ContextuallyValidateAtx db atx = Some (Errorf "last atx is not the one referenced").
Proof.
  intros Hp He Hne. unfold ContextuallyValidateAtx. rewrite He.
  by repeat case_decide.
Qed.

Lemma ContextuallyValidateAtx_double_first db atx last :
  PrevATXId atx = EmptyAtxId →
  GetNodeLastAtxId db (NodeId_ atx) = (last, None) →
  ContextuallyValidateAtx db atx =
    Some (Errorf "no prevATX reported, but other ATX with same nodeID (%v) found: %v").
Proof.
  intros Hp He. unfold ContextuallyValidateAtx. rewrite He.
  by repeat case_decide.
Qed.
End contextual.

(** ** The genesis bypass and unknown identities in [IsIdentityActive] *)

Section identity.
Context `{TypesLib}.

(** C8.  In epoch 0 every key is active with the empty ATX id; in a later
    epoch a key that the identity store does not hold is inactive, and this
    is not an error.  Neither case changes the database. *)
Theorem IsIdentityActive_genesis_and_unknown
    (db : ActivationDb) (edId : string) (layer : LayerID) :
  (GetEpoch layer (LayersPerEpoch db) = 0 →
     IsIdentityActive edId layer db = Ret (true, EmptyAtxId, None) db)
  ∧ (1 ≤ GetEpoch layer (LayersPerEpoch db) → ids db !! edId = None →
     IsIdentityActive edId layer db = Ret (false, EmptyAtxId, None) db).
Proof.
  unfold IsIdentityActive, bind, gets, ret, GetIdentity. split.
  - intros He. by case_decide.
  - intros He Hid. case_decide; [lia|]. by rewrite Hid.
Qed.
End identity.

(** ** The epoch counter *)

Section counter.
Context `{TypesLib}.

(** C10.  When the read of the counter key fails, with whatever error,
    [incValidAtxCounter] writes 1 under the key and returns the result of
    that write, so a failed read of an existing counter is not reported: the
    counter restarts at 1. *)
Theorem incValidAtxCounter_read_error
    (db : ActivationDb) (ech : EpochId) (e : Error) :
  DB_Get (atxs db) (epochCounterKey ech) = Err e →
  incValidAtxCounter ech db = atxs_Put (epochCounterKey ech) (Uint32ToBytes 1) db
  ∧ (epochCounterKey ech ∉ writeFaults (atxs db) →
     ∃ db', incValidAtxCounter ech db = Ret None db'
            ∧ cells (atxs db') !! epochCounterKey ech = Some (Uint32ToBytes 1)).
Proof.
  intros Hget.
  assert (Hinc : incValidAtxCounter ech db
                 = atxs_Put (epochCounterKey ech) (Uint32ToBytes 1) db).
  { unfold incValidAtxCounter, bind, atxs_Get, gets. by rewrite Hget. }
  split; [done|]. intros Hw. rewrite Hinc. unfold atxs_Put.
  rewrite DB_Put_ok by done. eexists; split; [done|]. simpl.
  apply lookup_insert_eq.
Qed.
End counter.

(** ** What the readers leave unchanged *)

Lemma caches_only_refl db : caches_only db db.
Proof. by unfold caches_only. Qed.

Lemma caches_only_trans db1 db2 db3 :
  caches_only db1 db2 → caches_only db2 db3 → caches_only db1 db3.
Proof. unfold caches_only. intuition congruence. Qed.

Lemma caches_only_atxCache db c : caches_only db (with_atxCache db c).
Proof. by unfold caches_only. Qed.

Lemma caches_only_activesetCache db c : caches_only db (with_activesetCache db c).
Proof. by unfold caches_only. Qed.

Create HintDb atx.
#[local] Hint Resolve caches_only_refl caches_only_atxCache
  caches_only_activesetCache : atx.

Section readers.
Context `{TypesLib}.

Lemma GetAtx_Ret id db :
  ∃ r db', GetAtx id db = Ret r db' ∧ caches_only db db'.
Proof.
  unfold GetAtx, bind, atxCache_Get, atxs_Get, atxCache_Add, gets, ret.
  case_decide; [by eauto with atx|].
  destruct (lru_Get (atxCache db) id) as [[a|] c]; simpl; [by eauto with atx|].
  destruct (DB_Get _ _); [|by eauto with atx].
  destruct (BytesAsAtx _); do 2 eexists; (split; [done|by unfold caches_only]).
Qed.

Lemma GetAtx_caches_only id db r db' :
  GetAtx id db = Ret r db' → caches_only db db'.
Proof.
  intros Hg. destruct (GetAtx_Ret id db) as (r' & db'' & Hg' & Hc). congruence.
Qed.

Lemma GetAtx_not_Panic id db : GetAtx id db ≠ Panic.
Proof. destruct (GetAtx_Ret id db) as (r' & db'' & Hg' & Hc). congruence. Qed.

Lemma countAtxIds_caches_only pubEpoch l set counter db r db' :
  countAtxIds pubEpoch l set counter db = Ret r db' → caches_only db db'.
Proof.
  revert set counter db. induction l as [|id l IH]; intros set counter db; simpl.
  - unfold ret. intros [= <- <-]. auto with atx.
  - case_decide; [by apply IH|].
    unfold bind at 1.
    destruct (GetAtx_Ret id db) as ([oa err] & db1 & -> & Hc).
    destruct err as [e|]; [done|]. destruct oa as [a|]; [|done].
    unfold bind, gets. case_decide; intros Hr%IH; eauto using caches_only_trans.
Qed.

Lemma traversalFunc_caches_only pubEpoch countingEpoch blk st db r db' :
  traversalFunc pubEpoch countingEpoch blk st db = Ret r db' → caches_only db db'.
Proof.
  unfold traversalFunc, bind, gets, ret. case_decide.
  - intros [= <- <-]. auto with atx.
  - destruct (countAtxIds _ _ _ _ _) eqn:Hc; [|done].
    intros [= <- <-]. by eapply countAtxIds_caches_only.
Qed.

Lemma forBlocks_caches_only {St} (handler : Block → St → M (St * error)) bs st db r db' :
  (∀ b st db r db', handler b st db = Ret r db' → caches_only db db') →
  forBlocks handler bs st db = Ret r db' → caches_only db db'.
Proof.
  intros Hh. revert st db. induction bs as [|b bs IH]; intros st db; simpl.
  - unfold ret. intros [= <- <-]. auto with atx.
  - unfold bind at 1. destruct (handler b st db) as [[st1 err] db1|] eqn:Hb; [|done].
    apply Hh in Hb. destruct err.
    + unfold ret. intros [= <- <-]. done.
    + intros Hr%IH. eauto using caches_only_trans.
Qed.

Lemma ForBlockInView_caches_only {St} view layer
    (handler : Block → St → M (St * error)) st db r db' :
  (∀ b st db r db', handler b st db = Ret r db' → caches_only db db') →
  ForBlockInView view layer handler st db = Ret r db' → caches_only db db'.
Proof.
  intros Hh. unfold ForBlockInView, bind, gets, ret.
  destruct (visits _ _ _) as [bs terr].
  destruct (forBlocks handler bs st db) as [[st1 err] db1|] eqn:Hf; [|done].
  eapply forBlocks_caches_only in Hf; [|done].
  destruct err; intros [= <- <-]; done.
Qed.

Lemma CalcActiveSetFromView_caches_only a db r db' :
  CalcActiveSetFromView a db = Ret r db' → caches_only db db'.
Proof.
  unfold CalcActiveSetFromView.
  destruct (ViewAsBytes _) as [vb|]; [|unfold ret; intros [= <- <-]; auto with atx].
  unfold bind at 1, activesetCache_Get.
  destruct (lru_Get _ _) as [[c|] cache].
  { unfold ret. intros [= <- <-]; auto with atx. }
  unfold bind at 1, gets. simpl. case_decide.
  { unfold ret. intros [= <- <-]; auto with atx. }
  unfold bind at 1.
  destruct (ForBlockInView _ _ _ _ _) as [[st err] db1|] eqn:Hf; [|done].
  apply ForBlockInView_caches_only in Hf; [|apply traversalFunc_caches_only].
  destruct err.
  - unfold ret. intros [= <- <-]. eauto using caches_only_trans with atx.
  - unfold bind, activesetCache_Add, ret. intros [= <- <-].
    eauto using caches_only_trans with atx.
Qed.

(** A failing [CalcActiveSetFromView] returns the count 0. *)
Lemma CalcActiveSetFromView_error_zero a db v e db' :
  CalcActiveSetFromView a db = Ret (v, Some e) db' → v = 0.
Proof.
  unfold CalcActiveSetFromView.
  destruct (ViewAsBytes _) as [vb|]; [|unfold ret; by intros [= <- <-]].
  unfold bind at 1, activesetCache_Get.
  destruct (lru_Get _ _) as [[c|] cache]; [done|].
  unfold bind at 1, gets. simpl. case_decide.
  { unfold ret. by intros [= <- <-]. }
  unfold bind at 1.
  destruct (ForBlockInView _ _ _ _ _) as [[st err] db1|] eqn:Hf; [|done].
  destruct err; [unfold ret; by intros [= <- <-]|done].
Qed.
End readers.

(** ** Syntactic validation *)

Section syntactic.
Context `{TypesLib}.

Lemma first_error_ok checks db dbF :
  first_error checks db = Ret None dbF →
  match checks with
  | [] => dbF = db
  | c :: rest => ∃ db1, c db = Ret None db1 ∧ first_error rest db1 = Ret None dbF
  end.
Proof.
  destruct checks as [|c rest]; simpl.
  - unfold ret. by intros [= <-].
  - unfold bind. destruct (c db) as [[e|] db1|]; try done. eauto.
Qed.

Lemma first_error_fails c rest db e db1 :
  c db = Ret (Some e) db1 → first_error (c :: rest) db = Ret (Some e) db1.
Proof. intros Hc. simpl. unfold bind. by rewrite Hc. Qed.

Lemma first_error_skip c rest db db1 :
  c db = Ret None db1 → first_error (c :: rest) db = first_error rest db1.
Proof. intros Hc. simpl. unfold bind. by rewrite Hc. Qed.

(** The checks of a successful validation, each in the state the previous
    one left. *)
Lemma SyntacticallyValidateAtx_ok atx db0 dbF :
  SyntacticallyValidateAtx atx db0 = Ret None dbF →
  ∃ db1 db2 db3,
    validatePrevAtx atx db0 = Ret None db1
    ∧ validatePositioningAtx atx db1 = Ret None db2
    ∧ validateActiveSet atx db2 = Ret None db3
    ∧ validateNipst atx db3 = Ret None dbF.
Proof.
  unfold SyntacticallyValidateAtx. intros Hs.
  apply first_error_ok in Hs as (db1 & H1 & Hs).
  apply first_error_ok in Hs as (db2 & H2 & Hs).
  apply first_error_ok in Hs as (db3 & H3 & Hs).
  apply first_error_ok in Hs as (db4 & H4 & Hs).
  apply first_error_ok in Hs as ->. eauto 10.
Qed.

Lemma wrap64_small z : is_uint64 z → wrap64 z = z.
Proof. unfold is_uint64, wrap64. intros. by apply Z.mod_small. Qed.

Lemma validatePositioningAtx_spec atx db :
  is_uint64 (PubLayerIdx atx) →
  found_layer_typed db (PositioningAtx atx) →
  (∃ db', validatePositioningAtx atx db = Ret None db') ↔ positioning_ok db atx.
Proof.
  intros Ha Hpos. unfold positioning_ok, validatePositioningAtx.
  case_decide as Hp.
  - unfold bind at 1.
    destruct (GetAtx_Ret (PositioningAtx atx) db) as ([opos err] & db1 & Hg & Hc).
    rewrite Hg. destruct Hc as (_ & _ & _ & HL & _).
    destruct err as [e|]; [unfold ret; split; [by intros [? [=]]|]; naive_solver|].
    destruct opos as [pos|]; [|unfold ret; split; [by intros [? [=]]|]; naive_solver].
    specialize (Hpos _ _ Hg). unfold is_uint64 in *.
    case_decide as Hle.
    { unfold ret. split; [by intros [? [=]]|].
      intros [(_ & pos' & db' & [= <- <-] & ? & ?)|[? _]]; [lia|done]. }
    unfold bind, gets, ret. rewrite HL.
    assert (Hw : wrap64 (PubLayerIdx atx - PubLayerIdx pos)
                 = PubLayerIdx atx - PubLayerIdx pos).
    { apply wrap64_small. unfold is_uint64. lia. }
    rewrite Hw. case_decide as Hd.
    + split; [by intros [? [=]]|].
      intros [(_ & pos' & db' & [= <- <-] & ? & ?)|[? _]]; [lia|done].
    + split; [|by eauto]. intros _. left. split; [done|].
      exists pos, db1. split; [done|]. lia.
  - unfold bind, gets, ret.
    destruct (IsGenesis _) eqn:Hg; simpl.
    + split; [|by eauto]. intros _. by right.
    + split; [by intros [? [=]]|]. naive_solver.
Qed.

(** C4.  The positioning check passes exactly when a referenced positioning
    ATX is found, lies strictly before the ATX and at most one epoch of
    layers before it, or when none is referenced and the publication epoch
    is a genesis epoch; a validation that returns [nil] has passed this
    check.  A distance of exactly [LayersPerEpoch] passes, one layer more
    fails. *)
Theorem SyntacticallyValidateAtx_positioning (atx : ActivationTx) (db : ActivationDb) :
  is_uint64 (PubLayerIdx atx) →
  found_layer_typed db (PositioningAtx atx) →
  ((∃ db', validatePositioningAtx atx db = Ret None db') ↔ positioning_ok db atx)
  ∧ (∀ db0 dbF, validatePrevAtx atx db0 = Ret None db →
       SyntacticallyValidateAtx atx db0 = Ret None dbF → positioning_ok db atx)
  ∧ (∀ pos db', PositioningAtx atx ≠ EmptyAtxId →
       GetAtx (PositioningAtx atx) db = Ret (Some pos, None) db' →
       0 < LayersPerEpoch db →
       PubLayerIdx atx - PubLayerIdx pos = LayersPerEpoch db →
       ∃ db', validatePositioningAtx atx db = Ret None db')
  ∧ (∀ pos db', PositioningAtx atx ≠ EmptyAtxId →
       GetAtx (PositioningAtx atx) db = Ret (Some pos, None) db' →
       PubLayerIdx atx - PubLayerIdx pos = LayersPerEpoch db + 1 →
       (¬ ∃ db', validatePositioningAtx atx db = Ret None db')
       ∧ ∀ db0 dbF, validatePrevAtx atx db0 = Ret None db →
           SyntacticallyValidateAtx atx db0 ≠ Ret None dbF).
Proof.
  intros Ha Hpos.
  pose proof (validatePositioningAtx_spec atx db Ha Hpos) as Hspec.
  assert (Hwhole : ∀ db0 dbF, validatePrevAtx atx db0 = Ret None db →
            SyntacticallyValidateAtx atx db0 = Ret None dbF → positioning_ok db atx).
  { intros db0 dbF Hprev Hs.
    apply SyntacticallyValidateAtx_ok in Hs as (db1 & db2 & db3 & H1 & H2 & _).
    rewrite Hprev in H1. injection H1 as <-. apply Hspec. eauto. }
  split; [done|]. split; [done|]. split.
  - intros pos db' Hp Hg HL Hd. apply Hspec. left. split; [done|].
    exists pos, db'. split; [done|]. lia.
  - intros pos db' Hp Hg Hd.
    assert (Hno : ¬ positioning_ok db atx).
    { intros [(_ & pos' & db'' & Hg' & ? & ?)|[? _]]; [|done].
      rewrite Hg in Hg'. injection Hg' as <- <-. lia. }
    split; [by rewrite Hspec|].
    intros db0 dbF Hprev Hs. apply Hno. eauto.
Qed.

(** C9.  When [CalcActiveSetFromView] fails for an ATX published in a
    genesis epoch, the failure is swallowed, the computed size is 0 and the
    comparison with the declared size still runs: the active-set check, and
    with it the validation, passes only if the ATX declares 0. *)
Theorem validateActiveSet_genesis_failure
    (atx : ActivationTx) (db db1 : ActivationDb) (v : Z) (e : Error) :
  CalcActiveSetFromView atx db = Ret (v, Some e) db1 →
  IsGenesis (GetEpoch (PubLayerIdx atx) (LayersPerEpoch db)) = true →
  v = 0
  ∧ validateActiveSet atx db =
      Ret (if decide (ActiveSetSize_ atx ≠ 0)
           then Some (Errorf "atx contains view with unequal active ids (%v) than seen (%v)")
           else None) db1
  ∧ ((∃ db', validateActiveSet atx db = Ret None db') ↔ ActiveSetSize_ atx = 0)
  ∧ (∀ db0 dbA dbF, validatePrevAtx atx db0 = Ret None dbA →
       validatePositioningAtx atx dbA = Ret None db →
       SyntacticallyValidateAtx atx db0 = Ret None dbF → ActiveSetSize_ atx = 0).
Proof.
  intros Hcalc Hgen.
  pose proof (CalcActiveSetFromView_error_zero _ _ _ _ _ Hcalc) as ->.
  pose proof (CalcActiveSetFromView_caches_only _ _ _ _ Hcalc) as (_ & _ & _ & HL & _).
  assert (Hstep : validateActiveSet atx db =
      Ret (if decide (ActiveSetSize_ atx ≠ 0)
           then Some (Errorf "atx contains view with unequal active ids (%v) than seen (%v)")
           else None) db1).
  { unfold validateActiveSet, bind, gets, ret. rewrite Hcalc, HL, Hgen. simpl.
    rewrite ?andb_false_r. by case_decide. }
  assert (Hiff : (∃ db', validateActiveSet atx db = Ret None db') ↔ ActiveSetSize_ atx = 0).
  { rewrite Hstep. case_decide; split; try done; [by intros [? [=]]|by eauto]. }
  split; [done|]. split; [done|]. split; [done|].
  intros db0 dbA dbF H1 H2 Hs.
  apply SyntacticallyValidateAtx_ok in Hs as (d1 & d2 & d3 & H1' & H2' & H3' & _).
  rewrite H1 in H1'. injection H1' as <-.
  rewrite H2 in H2'. injection H2' as <-.
  apply Hiff. eauto.
Qed.
End syntactic.

(** ** The writer, step by step *)

Lemma bind_Ret_inv {A B} (m : M A) (k : A → M B) db r db' :
  bind m k db = Ret r db' → ∃ a db1, m db = Ret a db1 ∧ k a db1 = Ret r db'.
Proof. unfold bind. destruct (m db) as [a db1|]; [eauto|done]. Qed.

Lemma atxs_Put_inv k v db err db' :
  atxs_Put k v db = Ret err db' →
  (err = Some ErrIO ∧ k ∈ writeFaults (atxs db) ∧ db' = db)
  ∨ (err = None ∧ (k ∉ writeFaults (atxs db))
     ∧ db' = with_atxs db (DB_write (atxs db) k v)).
Proof.
  unfold atxs_Put. destruct (DB_Put _ _ _) as [d e] eqn:Hp. intros [= <- <-].
  apply DB_Put_inv in Hp as [(-> & ? & ->)|(-> & ? & ->)]; [left|right].
  - by rewrite with_atxs_id.
  - done.
Qed.

Lemma atxs_Put_ok k v db :
  k ∉ writeFaults (atxs db) →
  atxs_Put k v db = Ret None (with_atxs db (DB_write (atxs db) k v)).
Proof. intros. unfold atxs_Put. by rewrite DB_Put_ok. Qed.

Lemma nipsts_Put_inv k v db err db' :
  nipsts_Put k v db = Ret err db' →
  (err = Some ErrIO ∧ k ∈ writeFaults (nipsts db) ∧ db' = db)
  ∨ (err = None ∧ (k ∉ writeFaults (nipsts db))
     ∧ db' = with_nipsts db (DB_write (nipsts db) k v)).
Proof.
  unfold nipsts_Put. destruct (DB_Put _ _ _) as [d e] eqn:Hp. intros [= <- <-].
  apply DB_Put_inv in Hp as [(-> & ? & ->)|(-> & ? & ->)]; [left|right].
  - by rewrite with_nipsts_id.
  - done.
Qed.


Section writer.
Context `{TypesLib}.

Lemma storeAtxUnlocked_inv a db a' db' :
  storeAtxUnlocked a db = Ret (a', None) db' →
  ∃ bn ba,
    NipstToBytes (Nipst a) = Ok bn
    ∧ AtxAsBytes (set_Nipst a None) = Ok ba
    ∧ (Id_of a ∉ writeFaults (nipsts db))
    ∧ (Id_of (set_Nipst a None) ∉ writeFaults (atxs db))
    ∧ a' = set_Nipst a None
    ∧ db' = with_atxs (with_nipsts db (DB_write (nipsts db) (Id_of a) bn))
              (DB_write (atxs db) (Id_of (set_Nipst a None)) ba).
Proof.
  unfold storeAtxUnlocked, AtxId_Bytes.
  destruct (NipstToBytes _) as [bn|]; [|by unfold ret].
  intros (err & db1 & Hn & Hk)%bind_Ret_inv.
  apply nipsts_Put_inv in Hn as [(-> & ? & ->)|(-> & ? & ->)]; [by unfold ret in Hk|].
  destruct (AtxAsBytes _) as [ba|]; [|by unfold ret in Hk].
  apply bind_Ret_inv in Hk as (err & db2 & Ha & Hk).
  unfold ret in Hk. injection Hk as <- -> <-.
  apply atxs_Put_inv in Ha as [([=] & _)|(_ & ? & ->)].
  exists bn, ba. by simpl in *.
Qed.

Lemma updatePosAtxIfNeeded_inv a db db' :
  updatePosAtxIfNeeded a db = Ret None db' →
  ∃ d', posAtx_step db a d' ∧ db' = with_atxs db d'.
Proof.
  unfold updatePosAtxIfNeeded, posAtx_step. unfold bind at 1, gets.
  destruct (getCurrentAtxIdAndLayer db) as [cur err] eqn:Hcur.
  destruct (bool_decide (err ≠ None) && bool_decide (err ≠ Some ErrNotFound)) eqn:Hb1;
    [by unfold ret|].
  destruct (bool_decide (err = None) && (LayerId cur >=? PubLayerIdx a)) eqn:Hb2.
  { unfold ret. intros [= <-]. exists (atxs db). rewrite with_atxs_id.
    split; [|done]. left.
    apply andb_true_iff in Hb2 as [->%bool_decide_eq_true Hge].
    split; [done|]. exists cur. split; [done|]. lia. }
  destruct (IdAndLayerToBytes _) as [bp|] eqn:Hbp; [|by unfold ret].
  intros (e & db1 & Hput & Hk)%bind_Ret_inv.
  apply atxs_Put_inv in Hput as [(-> & ? & ->)|(-> & ? & ->)]; [by unfold ret in Hk|].
  unfold ret in Hk. injection Hk as <-. eexists. split; [|done]. right.
  exists bp. repeat split; try done.
  destruct err as [e|].
  - assert (e = ErrNotFound) as ->.
    { apply andb_false_iff in Hb1 as [Hf|Hf]; apply bool_decide_eq_false in Hf.
      - by destruct Hf.
      - destruct (decide (e = ErrNotFound)); [done|]. destruct Hf. congruence. }
    left. unfold getCurrentAtxIdAndLayer in Hcur.
    destruct (DB_Get (atxs db) posAtxKey) as [b|e'] eqn:Hg.
    + by destruct (BytesToIdAndLayer b).
    + congruence.
  - right. exists cur. split; [done|]. simpl in Hb2. lia.
Qed.

Lemma incValidAtxCounter_inv ech db db' :
  incValidAtxCounter ech db = Ret None db' →
  ∃ cnt, counter_step (atxs db) ech cnt
         ∧ (epochCounterKey ech ∉ writeFaults (atxs db))
         ∧ db' = with_atxs db (DB_write (atxs db) (epochCounterKey ech) (Uint32ToBytes cnt)).
Proof.
  unfold incValidAtxCounter, counter_step, bind, atxs_Get, gets.
  destruct (DB_Get _ _) as [v|e] eqn:Hg.
  - destruct (BytesToUint32 v) as [n|] eqn:Hn; [|done].
    intros [([=] & _)|(_ & ? & ->)]%atxs_Put_inv.
    exists (wrap32 (n + 1)). split; [|done]. right. eauto.
  - intros [([=] & _)|(_ & ? & ->)]%atxs_Put_inv.
    exists 1. split; [|done]. left. eauto.
Qed.

Lemma addAtxToNodeId_inv n a db db' :
  addAtxToNodeId n a db = Ret None db' →
  (Key n ∉ writeFaults (atxs db))
  ∧ db' = with_atxs db (DB_write (atxs db) (Key n) (Id_of a)).
Proof.
  unfold addAtxToNodeId, getNodeIdKey, AtxId_Bytes.
  intros (e & db1 & Hput & Hk)%bind_Ret_inv.
  apply atxs_Put_inv in Hput as [(-> & ? & ->)|(-> & ? & ->)]; [by unfold ret in Hk|].
  unfold ret in Hk. by injection Hk as <-.
Qed.

(** A successful [StoreAtx] either found the ATX and wrote nothing, or
    performed the five writes. *)
Lemma StoreAtx_inv ech a db a' db' :
  StoreAtx ech a db = Ret (a', None) db' →
  (already_stored db a ∧ a' = a ∧ db' = db)
  ∨ (¬ already_stored db a ∧ a' = set_Nipst a None ∧
     ∃ bn ba d2 cnt,
       NipstToBytes (Nipst a) = Ok bn
       ∧ AtxAsBytes a' = Ok ba
       ∧ posAtx_step (with_atxs db (DB_write (atxs db) (Id_of a') ba)) a' d2
       ∧ counter_step d2 ech cnt
       ∧ db' = with_atxs (with_nipsts db (DB_write (nipsts db) (Id_of a) bn))
                 (DB_write (DB_write d2 (epochCounterKey ech) (Uint32ToBytes cnt))
                    (Key (NodeId_ a')) (Id_of a'))).
Proof.
  unfold StoreAtx. unfold bind at 1, atxs_Get, gets.
  destruct (DB_Get (atxs db) (AtxId_Bytes (Id_of a))) as [[|c s]|e] eqn:Hget.
  2:{ unfold ret. intros [= <- <-]. left. unfold already_stored. eauto. }
  all: intros ([a1 e1] & db1 & Hs & Hk)%bind_Ret_inv;
    (destruct e1; [by unfold ret in Hk|]);
    apply storeAtxUnlocked_inv in Hs as (bn & ba & Hbn & Hba & _ & _ & -> & ->);
    apply bind_Ret_inv in Hk as (e2 & db2 & Hp & Hk);
    (destruct e2; [by unfold ret in Hk|]);
    apply updatePosAtxIfNeeded_inv in Hp as (d2 & Hp & ->);
    apply bind_Ret_inv in Hk as (e3 & db3 & Hc & Hk);
    (destruct e3; [by unfold ret in Hk|]);
    apply incValidAtxCounter_inv in Hc as (cnt & Hc & _ & ->);
    apply bind_Ret_inv in Hk as (e4 & db4 & Hn & Hk);
    (destruct e4; [by unfold ret in Hk|]);
    apply addAtxToNodeId_inv in Hn as [_ ->];
    unfold ret in Hk; injection Hk as <- <-;
    right; (split; [unfold already_stored; rewrite Hget; by intros (? & ? & [=])|]);
    (split; [done|]);
    exists bn, ba, d2, cnt; simpl in *; done.
Qed.
End writer.

(** ** The reference implementation satisfies the assumptions *)

Lemma length_string_of_list_ascii l :
  String.length (string_of_list_ascii l) = length l.
Proof. induction l as [|c l IH]; simpl; [done|]. by rewrite IH. Qed.

Lemma length_list_ascii_of_string s :
  length (list_ascii_of_string s) = String.length s.
Proof. induction s as [|c s IH]; simpl; [done|]. by rewrite IH. Qed.

Lemma length_ex_BytesToHash b : String.length (ex_BytesToHash b) = 32%nat.
Proof.
  unfold ex_BytesToHash.
  rewrite length_string_of_list_ascii, length_rev, length_take, length_app, repeat_length.
  lia.
Qed.

Lemma ex_BytesToHash_32 h : String.length h = 32%nat → ex_BytesToHash h = h.
Proof.
  intros Hl. unfold ex_BytesToHash.
  rewrite take_app_length'
    by (by rewrite length_rev, length_list_ascii_of_string).
  by rewrite rev_involutive, string_of_list_ascii_of_string.
Qed.

Lemma bits_to_pos_to_bits p : bits_to_pos (pos_to_bits p) = Some p.
Proof. induction p as [p IH|p IH|]; simpl; [by rewrite IH..|done]. Qed.

Lemma ex_decode_encode {A} `{Countable A} tag (a : A) b :
  ex_encode tag a = Ok b → ex_decode tag b = Ok a ∧ b ≠ EmptyString.
Proof.
  unfold ex_encode. intros [= <-]. split; [|done]. simpl.
  case_decide; [|done]. by rewrite bits_to_pos_to_bits, decode_encode.
Qed.

Lemma exLib_id_is_hash : @id_is_hash exLib.
Proof. intros a. apply length_ex_BytesToHash. Qed.

Lemma exLib_id_ignores_nipst : @id_ignores_nipst exLib.
Proof. by intros a n. Qed.

Lemma exLib_atx_codec_sound : @atx_codec_sound exLib.
Proof. intros a b Hb. by apply (ex_decode_encode "A"). Qed.

Lemma exLib_posAtx_codec_sound : @posAtx_codec_sound exLib.
Proof. intros a b Hb. by apply (ex_decode_encode "P"). Qed.

Lemma exLib_hash_of_32_bytes : @hash_of_32_bytes exLib.
Proof. intros h. apply ex_BytesToHash_32. Qed.


(** ** Idempotence of [StoreAtx] *)

Section idempotence.
Context `{TypesLib}.

Lemma StoreAtx_already_stored ech a db :
  already_stored db a → StoreAtx ech a db = Ret (a, None) db.
Proof.
  intros (c & s & Hg). unfold StoreAtx, bind, atxs_Get, gets. by rewrite Hg.
Qed.

Lemma posAtx_step_Get db a d' k :
  posAtx_step db a d' → k ≠ posAtxKey → DB_Get d' k = DB_Get (atxs db) k.
Proof.
  intros [[-> _]|(bp & _ & _ & -> & _)] Hk; [done|].
  by rewrite DB_Get_write_ne.
Qed.

Lemma posAtx_step_readFaults db a d' :
  posAtx_step db a d' → readFaults d' = readFaults (atxs db).
Proof. by intros [[-> _]|(bp & _ & _ & -> & _)]. Qed.


Lemma hash_not_posAtxKey (k : Bytes) : String.length k = 32%nat → k ≠ posAtxKey.
Proof. by intros Hl ->. Qed.

Lemma hash_not_counterKey (k : Bytes) e :
  String.length k = 32%nat → k ≠ epochCounterKey e.
Proof. intros Hl ->. by rewrite length_epochCounterKey in Hl. Qed.

Lemma counterKey_not_posAtxKey e : epochCounterKey e ≠ posAtxKey.
Proof. intros Heq. pose proof (length_epochCounterKey e) as Hl. by rewrite Heq in Hl. Qed.

(** After a successful [StoreAtx] the store holds a non-empty value under
    the id of the ATX. *)
Lemma StoreAtx_stored_afterwards ech a db a1 db1 :
  id_is_hash → id_ignores_nipst →
  (∀ b, AtxAsBytes (set_Nipst a None) = Ok b → b ≠ EmptyString) →
  Id_of a ∉ readFaults (atxs db) →
  StoreAtx ech a db = Ret (a1, None) db1 →
  already_stored db1 a ∧ Id_of a1 = Id_of a.
Proof.
  intros Hlen Hnip Hne Hrf Hs.
  apply StoreAtx_inv in Hs
    as [(Hal & -> & ->)|(_ & -> & bn & ba & d2 & cnt & _ & Hba & Hp & _ & ->)];
    [done|].
  split; [|by apply Hnip]. unfold already_stored, AtxId_Bytes. simpl.
  rewrite Hnip in *.
  pose proof (Hlen a) as Hl.
  assert (Hrf2 : Id_of a ∉ readFaults d2).
  { by rewrite (posAtx_step_readFaults _ _ _ Hp). }
  rewrite DB_Get_write. simpl. case_decide; [done|].
  case_decide as Hnk.
  { destruct (Id_of a) as [|c s] eqn:Hid; [done|]. eauto. }
  rewrite DB_Get_write_ne by (symmetry; by apply hash_not_counterKey).
  rewrite (posAtx_step_Get _ _ _ _ Hp) by (by apply hash_not_posAtxKey).
  simpl. rewrite DB_Get_write. simpl. case_decide; [done|].
  case_decide; [|done].
  destruct ba as [|c s]; [by destruct (Hne _ Hba)|]. eauto.
Qed.

(** C6, as the code has it.  The check of [StoreAtx] is a read of the id
    key, and only a read that succeeds with a non-empty value counts as
    "stored".  When the id key can be read (no I/O error), the id is a
    32-byte hash that ignores the NIPST and the body is not encoded as the
    empty byte string: [StoreAtx] on an ATX under whose id the read finds a
    non-empty value returns [nil] and writes nothing; and after a [StoreAtx]
    that returned [nil], a second [StoreAtx] of the same ATX (as the first
    call left it, or as it was before) returns [nil] and leaves every store
    as the first call left it. *)
Theorem StoreAtx_idempotent (ech : EpochId) (a : ActivationTx) (db : ActivationDb) :
  id_is_hash → id_ignores_nipst →
  (∀ b, AtxAsBytes (set_Nipst a None) = Ok b → b ≠ EmptyString) →
  Id_of a ∉ readFaults (atxs db) →
  (already_stored db a → StoreAtx ech a db = Ret (a, None) db)
  ∧ (∀ a1 db1, StoreAtx ech a db = Ret (a1, None) db1 →
       StoreAtx ech a1 db1 = Ret (a1, None) db1
       ∧ StoreAtx ech a db1 = Ret (a, None) db1).
Proof.
  intros Hlen Hnip Hne Hrf. split; [apply StoreAtx_already_stored|].
  intros a1 db1 Hs.
  destruct (StoreAtx_stored_afterwards _ _ _ _ _ Hlen Hnip Hne Hrf Hs) as [Hal Hid].
  split; apply StoreAtx_already_stored; [|done].
  unfold already_stored in *. by rewrite Hid.
Qed.
End idempotence.

(** ** The positioning record *)

Lemma first_max_Some m0 l :
  ∃ m, first_max (Some m0) l = Some m
       ∧ ((m = m0 ∧ ∀ x, x ∈ l → PubLayerIdx x ≤ PubLayerIdx m0)
          ∨ ∃ l1 l2, l = l1 ++ m :: l2
                     ∧ PubLayerIdx m0 < PubLayerIdx m
                     ∧ (∀ x, x ∈ l1 → PubLayerIdx x < PubLayerIdx m)
                     ∧ (∀ x, x ∈ l2 → PubLayerIdx x ≤ PubLayerIdx m)).
Proof.
  revert m0. induction l as [|a l IH]; intros m0; simpl.
  - exists m0. split; [done|]. left. split; [done|]. by intros x ?%elem_of_nil.
  - case_decide as Hle.
    + destruct (IH m0) as (m & Hm & [(-> & Hall)|(l1 & l2 & -> & Hlt & H1 & H2)]).
      * exists m0. split; [done|]. left. split; [done|].
        intros x [->|?]%elem_of_cons; auto.
      * exists m. split; [done|]. right. exists (a :: l1), l2.
        split; [done|]. split; [done|]. split; [|done].
        intros x [->|?]%elem_of_cons; [lia|auto].
    + destruct (IH a) as (m & Hm & [(-> & Hall)|(l1 & l2 & -> & Hlt & H1 & H2)]).
      * exists a. split; [done|]. right. exists [], l.
        split; [done|]. split; [lia|]. split; [by intros x ?%elem_of_nil|done].
      * exists m. split; [done|]. right. exists (a :: l1), l2.
        split; [done|]. split; [lia|]. split; [|done].
        intros x [->|?]%elem_of_cons; [lia|auto].
Qed.

Lemma first_max_None a l :
  ∃ m l1 l2, first_max None (a :: l) = Some m
             ∧ a :: l = l1 ++ m :: l2
             ∧ (∀ x, x ∈ l1 → PubLayerIdx x < PubLayerIdx m)
             ∧ (∀ x, x ∈ l2 → PubLayerIdx x ≤ PubLayerIdx m).
Proof.
  simpl. destruct (first_max_Some a l)
    as (m & Hm & [(-> & Hall)|(l1 & l2 & -> & Hlt & H1 & H2)]).
  - exists a, [], l. repeat split; try done. by intros x ?%elem_of_nil.
  - exists m, (a :: l1), l2. repeat split; try done.
    intros x [->|?]%elem_of_cons; [lia|auto].
Qed.

Lemma atxs_Put_frame k v db e db' :
  atxs_Put k v db = Ret e db' →
  caches_only (with_atxs db (atxs db')) db'
  ∧ nipsts db' = nipsts db
  ∧ readFaults (atxs db') = readFaults (atxs db)
  ∧ ∀ k', k' ≠ k → DB_Get (atxs db') k' = DB_Get (atxs db) k'.
Proof.
  intros [(_ & _ & ->)|(_ & _ & ->)]%atxs_Put_inv; simpl.
  - rewrite with_atxs_id. auto using caches_only_refl.
  - repeat split; try done. intros. by apply DB_Get_write_ne.
Qed.

Section posAtx.
Context `{TypesLib}.

Lemma getCurrentAtxIdAndLayer_ext db db' :
  DB_Get (atxs db') posAtxKey = DB_Get (atxs db) posAtxKey →
  getCurrentAtxIdAndLayer db' = getCurrentAtxIdAndLayer db.
Proof. unfold getCurrentAtxIdAndLayer. by intros ->. Qed.

Lemma posAtx_absent_or_older_ext db db' a :
  DB_Get (atxs db') posAtxKey = DB_Get (atxs db) posAtxKey →
  posAtx_absent_or_older db' a → posAtx_absent_or_older db a.
Proof.
  unfold posAtx_absent_or_older. intros Hg.
  by rewrite (getCurrentAtxIdAndLayer_ext _ _ Hg), Hg.
Qed.

Lemma storeAtxUnlocked_frame a db r db' :
  storeAtxUnlocked a db = Ret r db' →
  r.1 = a ∨ r.1 = set_Nipst a None.
Proof.
  unfold storeAtxUnlocked, bind, ret.
  destruct (NipstToBytes _); [|intros [= <- _]; by left].
  destruct (nipsts_Put _ _ _) as [[e|] db1|]; [intros [= <- _]; by left| |done].
  destruct (AtxAsBytes _); [|intros [= <- _]; by right].
  destruct (atxs_Put _ _ _); [|done]. intros [= <- _]; by right.
Qed.

Lemma storeAtxUnlocked_Get a db r db' k :
  storeAtxUnlocked a db = Ret r db' →
  k ≠ Id_of (set_Nipst a None) →
  DB_Get (atxs db') k = DB_Get (atxs db) k.
Proof.
  unfold storeAtxUnlocked, AtxId_Bytes. intros Hs Hk.
  destruct (NipstToBytes _); [|unfold ret in Hs; by injection Hs as _ <-].
  apply bind_Ret_inv in Hs as (e & db1 & Hp & Hs).
  assert (atxs db1 = atxs db) as <-.
  { by apply nipsts_Put_inv in Hp as [(_ & _ & ->)|(_ & _ & ->)]. }
  destruct e; [unfold ret in Hs; by injection Hs as _ <-|].
  destruct (AtxAsBytes _); [|unfold ret in Hs; by injection Hs as _ <-].
  apply bind_Ret_inv in Hs as (e & db2 & Hp2 & Hs).
  unfold ret in Hs. injection Hs as _ <-.
  apply atxs_Put_frame in Hp2 as (_ & _ & _ & Hf). by apply Hf.
Qed.

Lemma updatePosAtxIfNeeded_changes a db e db' :
  updatePosAtxIfNeeded a db = Ret e db' →
  DB_Get (atxs db') posAtxKey ≠ DB_Get (atxs db) posAtxKey →
  posAtx_absent_or_older db a.
Proof.
  destruct e as [e|].
  - unfold updatePosAtxIfNeeded. unfold bind at 1, gets.
    destruct (getCurrentAtxIdAndLayer db) as [cur err].
    destruct (_ && _); [unfold ret; intros [= _ <-] Hne; by destruct Hne|].
    destruct (_ && _); [unfold ret; intros [= _ <-] Hne; by destruct Hne|].
    destruct (IdAndLayerToBytes _); [|unfold ret; intros [= _ <-] Hne; by destruct Hne].
    intros (e' & db1 & Hput & Hk)%bind_Ret_inv.
    apply atxs_Put_inv in Hput as [(-> & ? & ->)|(-> & ? & ->)];
      unfold ret in Hk; [|done].
    injection Hk as _ <-. intros Hne; by destruct Hne.
  - intros (d' & [[-> _]|(bp & _ & _ & -> & Hold)] & ->)%updatePosAtxIfNeeded_inv;
      [done|]. by intros _.
Qed.

Lemma incValidAtxCounter_Get ech db e db' k :
  incValidAtxCounter ech db = Ret e db' → k ≠ epochCounterKey ech →
  DB_Get (atxs db') k = DB_Get (atxs db) k.
Proof.
  unfold incValidAtxCounter, bind, atxs_Get, gets. intros Hi Hk.
  destruct (DB_Get _ _); [destruct (BytesToUint32 _); [|done]|];
    apply atxs_Put_frame in Hi as (_ & _ & _ & Hf); by apply Hf.
Qed.

Lemma addAtxToNodeId_Get n a db e db' k :
  addAtxToNodeId n a db = Ret e db' → k ≠ Key n →
  DB_Get (atxs db') k = DB_Get (atxs db) k.
Proof.
  unfold addAtxToNodeId, getNodeIdKey. intros (e' & db1 & Hp & Hk)%bind_Ret_inv Hne.
  apply atxs_Put_frame in Hp as (_ & _ & _ & Hf).
  destruct e'; unfold ret in Hk; injection Hk as _ <-; by apply Hf.
Qed.

(** Whatever it returns, a [StoreAtx] that changes what is read under
    [posAtxKey] found the record absent or older. *)
Lemma StoreAtx_posAtx_changes ech a db r db' :
  id_is_hash → id_ignores_nipst →
  Key (NodeId_ a) ≠ posAtxKey →
  StoreAtx ech a db = Ret r db' →
  DB_Get (atxs db') posAtxKey ≠ DB_Get (atxs db) posAtxKey →
  posAtx_absent_or_older db a.
Proof.
  intros Hlen Hnip Hnk. unfold StoreAtx. unfold bind at 1, atxs_Get, gets.
  assert (Hfresh : ∀ r db',
    (let* (atx, err) := storeAtxUnlocked a in
     match err with
     | Some e => ret (atx, Some e)
     | None =>
         let* err := updatePosAtxIfNeeded atx in
         match err with
         | Some e => ret (atx, Some e)
         | None =>
             let* err := incValidAtxCounter ech in
             match err with
             | Some e => ret (atx, Some e)
             | None =>
                 let* err := addAtxToNodeId (NodeId_ atx) atx in
                 match err with
                 | Some e => ret (atx, Some e)
                 | None => ret (atx, None)
                 end
             end
         end
     end) db = Ret r db' →
    DB_Get (atxs db') posAtxKey ≠ DB_Get (atxs db) posAtxKey →
    posAtx_absent_or_older db a).
  { clear r db'. intros r db' ([a1 e1] & db1 & Hs & Hk)%bind_Ret_inv.
    pose proof (storeAtxUnlocked_Get _ _ _ _ posAtxKey Hs) as H1.
    rewrite Hnip in H1.
    specialize (H1 (not_eq_sym (hash_not_posAtxKey _ (Hlen a)))).
    apply storeAtxUnlocked_frame in Hs as Ha1. simpl in Ha1.
    assert (Hl1 : PubLayerIdx a1 = PubLayerIdx a ∧ Key (NodeId_ a1) = Key (NodeId_ a)).
    { by destruct Ha1 as [->| ->]. }
    destruct Hl1 as [Hl1 Hk1].
    destruct e1; [unfold ret in Hk; injection Hk as _ <-; by rewrite H1|].
    apply bind_Ret_inv in Hk as (e2 & db2 & Hp & Hk).
    assert (Hstep2 : DB_Get (atxs db2) posAtxKey ≠ DB_Get (atxs db) posAtxKey →
                     posAtx_absent_or_older db a).
    { rewrite <- H1. intros Hne.
      apply (posAtx_absent_or_older_ext _ _ _ H1).
      pose proof (updatePosAtxIfNeeded_changes _ _ _ _ Hp Hne) as Hold.
      unfold posAtx_absent_or_older in *. by rewrite Hl1 in Hold. }
    destruct e2; [unfold ret in Hk; by injection Hk as _ <-|].
    apply bind_Ret_inv in Hk as (e3 & db3 & Hc & Hk).
    pose proof (incValidAtxCounter_Get _ _ _ _ posAtxKey Hc
                  (not_eq_sym (counterKey_not_posAtxKey _))) as H3.
    destruct e3; [unfold ret in Hk; injection Hk as _ <-; by rewrite H3|].
    apply bind_Ret_inv in Hk as (e4 & db4 & Hn & Hk).
    pose proof (addAtxToNodeId_Get _ _ _ _ _ posAtxKey Hn) as H4.
    rewrite Hk1 in H4. specialize (H4 (not_eq_sym Hnk)).
    destruct e4; unfold ret in Hk; injection Hk as _ <-; by rewrite H4, H3. }
  destruct (DB_Get (atxs db) (AtxId_Bytes (Id_of a))) as [[|c s]|e]; [by apply Hfresh| |by apply Hfresh].
  unfold ret. by intros [= <- <-].
Qed.
End posAtx.

Section posAtx_sequences.
Context `{TypesLib}.

Lemma posAtx_is_readable db cur : posAtx_is db cur → posAtxKey ∉ readFaults (atxs db).
Proof.
  destruct cur as [m|]; simpl.
  - unfold getCurrentAtxIdAndLayer.
    destruct (DB_Get (atxs db) posAtxKey) eqn:Hg; [|done].
    by apply DB_Get_Ok in Hg as [? _].
  - by intros [? _]%DB_Get_NotFound.
Qed.

Lemma posAtx_is_ext db db' cur :
  DB_Get (atxs db') posAtxKey = DB_Get (atxs db) posAtxKey →
  posAtx_is db cur → posAtx_is db' cur.
Proof.
  intros Hg. destruct cur; simpl.
  - by rewrite (getCurrentAtxIdAndLayer_ext _ _ Hg).
  - by rewrite Hg.
Qed.

Lemma posAtx_record_set_Nipst a n :
  id_ignores_nipst → posAtx_record (set_Nipst a n) = posAtx_record a.
Proof. intros Hnip. unfold posAtx_record. by rewrite Hnip. Qed.

(** One successful [StoreAtx] of an ATX that was not there moves the
    record as [first_max] says. *)
Lemma StoreAtx_ok_posAtx ech a db a' db' cur :
  id_is_hash → id_ignores_nipst → posAtx_codec_sound →
  Key (NodeId_ a) ≠ posAtxKey →
  posAtx_is db cur →
  StoreAtx ech a db = Ret (a', None) db' →
  ¬ already_stored db a →
  posAtx_is db'
    (match cur with
     | Some m => if decide (PubLayerIdx a ≤ PubLayerIdx m) then Some m else Some a
     | None => Some a
     end).
Proof.
  intros Hlen Hnip Hcodec Hnk Hcur Hs Hfresh.
  apply StoreAtx_inv in Hs
    as [(Hal & _)|(_ & -> & bn & ba & d2 & cnt & _ & Hba & Hp & _ & ->)]; [done|].
  pose proof (posAtx_is_readable _ _ Hcur) as Hrd.
  pose proof (hash_not_posAtxKey _ (Hlen a)) as Hid.
  rewrite Hnip in *.
  set (db1 := with_atxs db (DB_write (atxs db) (Id_of a) ba)) in *.
  assert (H1 : DB_Get (atxs db1) posAtxKey = DB_Get (atxs db) posAtxKey).
  { simpl. by rewrite DB_Get_write_ne. }
  assert (Hfin : ∀ dbx, DB_Get (atxs dbx) posAtxKey = DB_Get d2 posAtxKey →
     DB_Get (atxs (with_atxs (with_nipsts db (DB_write (nipsts db) (Id_of a) bn))
        (DB_write (DB_write d2 (epochCounterKey ech) (Uint32ToBytes cnt))
           (Key (NodeId_ (set_Nipst a None))) (Id_of a)))) posAtxKey
     = DB_Get (atxs dbx) posAtxKey).
  { intros dbx ->. simpl. rewrite !DB_Get_write_ne; [done|..].
    - apply counterKey_not_posAtxKey.
    - done. }
  destruct Hp as [[-> (cur' & Hcur' & Hle)]|(bp & Hbp & _ & -> & Hold)].
  - rewrite (getCurrentAtxIdAndLayer_ext _ _ H1) in Hcur'.
    destruct cur as [m|]; simpl in Hcur.
    + rewrite Hcur in Hcur'. injection Hcur' as <-. simpl in Hle.
      rewrite decide_True by done.
      eapply posAtx_is_ext; [|exact Hcur]. rewrite (Hfin db1 eq_refl). done.
    + unfold getCurrentAtxIdAndLayer in Hcur'. by rewrite Hcur in Hcur'.
  - assert (Hnew : posAtx_is
        (with_atxs db1 (DB_write (atxs db1) posAtxKey bp)) (Some a)).
    { simpl. unfold getCurrentAtxIdAndLayer. simpl.
      rewrite DB_Get_write. simpl. rewrite decide_False by done.
      rewrite (Hcodec _ _ Hbp). by rewrite <- (posAtx_record_set_Nipst a None Hnip). }
    assert (Hres : posAtx_is
      (with_atxs (with_nipsts db (DB_write (nipsts db) (Id_of a) bn))
        (DB_write (DB_write (DB_write (atxs db1) posAtxKey bp)
           (epochCounterKey ech) (Uint32ToBytes cnt))
           (Key (NodeId_ (set_Nipst a None))) (Id_of a))) (Some a)).
    { eapply posAtx_is_ext; [|exact Hnew].
      by rewrite (Hfin (with_atxs db1 (DB_write (atxs db1) posAtxKey bp)) eq_refl). }
    destruct Hold as [Habs|(cur' & Hcur' & Hlt)].
    + rewrite H1 in Habs. destruct cur as [m|]; simpl in Hcur; [|done].
      unfold getCurrentAtxIdAndLayer in Hcur. by rewrite Habs in Hcur.
    + rewrite (getCurrentAtxIdAndLayer_ext _ _ H1) in Hcur'.
      destruct cur as [m|]; simpl in Hcur; [|done].
      rewrite Hcur in Hcur'. injection Hcur' as <-. simpl in Hlt.
      rewrite decide_False by lia. done.
Qed.

(** The keys that hold a value after a successful [StoreAtx]. *)
Lemma StoreAtx_ok_cells ech a db a' db' k :
  id_ignores_nipst →
  StoreAtx ech a db = Ret (a', None) db' →
  cells (atxs db') !! k ≠ None →
  k = Id_of a ∨ k = posAtxKey ∨ k = epochCounterKey ech
  ∨ k = Key (NodeId_ a) ∨ cells (atxs db) !! k ≠ None.
Proof.
  intros Hnip Hs.
  apply StoreAtx_inv in Hs
    as [(_ & _ & ->)|(_ & -> & bn & ba & d2 & cnt & _ & Hba & Hp & _ & ->)];
    [by auto 6|].
  rewrite Hnip in *. simpl.
  destruct (decide (k = Key (NodeId_ a))) as [|Hn]; [by auto 6|].
  destruct (decide (k = epochCounterKey ech)) as [|Hc]; [by auto 6|].
  destruct (decide (k = posAtxKey)) as [|Hpk]; [by auto 6|].
  destruct (decide (k = Id_of a)) as [|Hi]; [by auto 6|].
  rewrite !lookup_insert_ne by done.
  destruct Hp as [[-> _]|(bp & _ & _ & -> & _)]; simpl;
    rewrite !lookup_insert_ne by done; auto 6.
Qed.

Lemma StoreAtxs_posAtx l :
  id_is_hash → id_ignores_nipst → posAtx_codec_sound →
  ∀ db cur done errs db',
    posAtx_is db cur →
    (∀ y, y ∈ done → ∃ m, cur = Some m ∧ PubLayerIdx y ≤ PubLayerIdx m) →
    (∀ x, x ∈ l → cells (atxs db) !! Id_of x.2 ≠ None →
          ∃ y, y ∈ done ∧ Id_of y = Id_of x.2) →
    (∀ x, x ∈ l → ¬ reservedKey (Key (NodeId_ x.2))) →
    (∀ x y, x ∈ done ++ l.*2 → y ∈ done ++ l.*2 →
            Id_of x = Id_of y → PubLayerIdx x = PubLayerIdx y) →
    StoreAtxs l db = Ret errs db' → Forall (eq None) errs →
    posAtx_is db' (first_max cur l.*2).
Proof.
  intros Hlen Hnip Hcodec. induction l as [|[ech a] l IH];
    intros db cur done errs db' Hcur Hdone Hpres Hkeys Hids Hrun Herrs.
  - simpl in *. unfold ret in Hrun. by injection Hrun as _ <-.
  - simpl in Hrun.
    apply bind_Ret_inv in Hrun as ([a' err] & db1 & Hs & Hrun).
    apply bind_Ret_inv in Hrun as (errs' & db2 & Hrest & Hrun).
    unfold ret in Hrun. injection Hrun as <- <-.
    apply Forall_cons in Herrs as [<- Herrs].
    assert (Hka : ¬ reservedKey (Key (NodeId_ a))).
    { apply (Hkeys (ech, a)). by left. }
    assert (Hnk : Key (NodeId_ a) ≠ posAtxKey).
    { intros Heq. apply Hka. by left. }
    destruct (StoreAtx_inv _ _ _ _ _ Hs) as [(Hal & -> & ->)|(Hfresh & _)].
    + (* the ATX was already there: an earlier one has its id *)
      destruct Hal as (c & s & [_ Hc]%DB_Get_Ok).
      unfold AtxId_Bytes in Hc.
      destruct (Hpres (ech, a)) as (y & Hy & Hyid);
        [by left|simpl; intros Hn; by pose proof (eq_trans (eq_sym Hn) Hc)|].
      destruct (Hdone y Hy) as (m & -> & Hym).
      assert (Hlay : PubLayerIdx a = PubLayerIdx y).
      { symmetry. apply Hids; [set_solver|set_solver|done]. }
      simpl. rewrite decide_True by lia.
      apply (IH db (Some m) (a :: done) errs' db2); try done.
      * intros z [->|Hz]%elem_of_cons; [exists m; split; [done|lia]|by apply Hdone].
      * intros x Hx Hne. destruct (Hpres x) as (z & Hz & Hzid); [by right|done|].
        exists z. split; [by right|done].
      * intros x Hx. apply Hkeys. by right.
      * intros x z Hx Hz. apply Hids; set_solver.
    + pose proof (StoreAtx_ok_posAtx _ _ _ _ _ _ Hlen Hnip Hcodec Hnk Hcur Hs Hfresh)
        as Hcur1.
      simpl.
      eapply (IH db1 _ (a :: done) errs' db2); try done.
      * intros z [->|Hz]%elem_of_cons.
        -- destruct cur as [m|]; [|eexists; split; [done|lia]].
           case_decide; eexists; (split; [done|lia]).
        -- destruct (Hdone z Hz) as (m & -> & Hzm).
           case_decide; eexists; (split; [done|lia]).
      * intros x Hx Hne.
        destruct (StoreAtx_ok_cells _ _ _ _ _ _ Hnip Hs Hne)
          as [Hi|[Hi|[Hi|[Hi|Hold]]]].
        -- exists a. split; [by left|done].
        -- by destruct (hash_not_posAtxKey _ (Hlen x.2)).
        -- by destruct (hash_not_counterKey _ ech (Hlen x.2)).
        -- destruct Hka. right; right. rewrite <- Hi. apply Hlen.
        -- destruct (Hpres x) as (z & Hz & Hzid); [by right|done|].
           exists z. split; [by right|done].
      * intros x Hx. apply Hkeys. by right.
      * intros x z Hx Hz. apply Hids; set_solver.
Qed.
End posAtx_sequences.

Section posAtx_claim.
Context `{TypesLib}.

Lemma StoreAtx_ok_LayersPerEpoch ech a db a' db' :
  StoreAtx ech a db = Ret (a', None) db' → LayersPerEpoch db' = LayersPerEpoch db.
Proof.
  intros [(_ & _ & ->)|(_ & _ & bn & ba & d2 & cnt & _ & _ & _ & _ & ->)]%StoreAtx_inv;
    done.
Qed.

Lemma StoreAtxs_ok_LayersPerEpoch l db errs db' :
  StoreAtxs l db = Ret errs db' → Forall (eq None) errs →
  LayersPerEpoch db' = LayersPerEpoch db.
Proof.
  revert db errs. induction l as [|[ech a] l IH]; intros db errs; simpl.
  - unfold ret. by intros [= _ <-].
  - intros ([a' err] & db1 & Hs & Hrun)%bind_Ret_inv.
    apply bind_Ret_inv in Hrun as (errs' & db2 & Hrest & Hrun).
    unfold ret in Hrun. injection Hrun as <- <-.
    intros [<- Herrs]%Forall_cons.
    rewrite (IH _ _ Hrest Herrs). by eapply StoreAtx_ok_LayersPerEpoch.
Qed.

(** C7, as the code has it.  For an ATX whose node key is not [posAtxKey],
    a [StoreAtx] (whatever it returns) changes what is read under
    [posAtxKey] only if the record was absent or named a layer strictly
    below that of the new ATX.  And after a sequence of [StoreAtx] calls that
    all returned [nil], on a store that held neither a record nor one of the
    ATXs, for ATXs whose node keys are no reserved keys and whose ids
    determine their layers, the record names the first of the ATXs with the
    highest publication layer: no ATX of the sequence has a higher layer,
    and those before it have a strictly lower one; [GetPosAtxId] returns its
    id for its epoch. *)
Theorem StoreAtx_posAtx_highest_layer :
  id_is_hash → id_ignores_nipst → posAtx_codec_sound →
  (∀ ech a db r db',
     Key (NodeId_ a) ≠ posAtxKey →
     StoreAtx ech a db = Ret r db' →
     DB_Get (atxs db') posAtxKey ≠ DB_Get (atxs db) posAtxKey →
     posAtx_absent_or_older db a)
  ∧ (∀ l db errs db',
       DB_Get (atxs db) posAtxKey = Err ErrNotFound →
       (∀ x, x ∈ l → cells (atxs db) !! Id_of x.2 = None) →
       (∀ x, x ∈ l → ¬ reservedKey (Key (NodeId_ x.2))) →
       (∀ x y, x ∈ l.*2 → y ∈ l.*2 → Id_of x = Id_of y →
               PubLayerIdx x = PubLayerIdx y) →
       StoreAtxs l db = Ret errs db' → Forall (eq None) errs → l ≠ [] →
       ∃ l1 m l2,
         l.*2 = l1 ++ m :: l2
         ∧ getCurrentAtxIdAndLayer db' = (posAtx_record m, None)
         ∧ GetPosAtxId db' (GetEpoch (PubLayerIdx m) (LayersPerEpoch db)) = (Id_of m, None)
         ∧ (∀ x, x ∈ l1 → PubLayerIdx x < PubLayerIdx m)
         ∧ (∀ x, x ∈ l2 → PubLayerIdx x ≤ PubLayerIdx m)).
Proof.
  intros Hlen Hnip Hcodec. split.
  - intros ech a db r db' Hnk Hs Hne.
    by eapply StoreAtx_posAtx_changes.
  - intros l db errs db' Habs Hnone Hkeys Hids Hrun Herrs Hl.
    pose proof (StoreAtxs_posAtx l Hlen Hnip Hcodec db None [] errs db') as Hinv.
    simpl in Hinv. specialize (Hinv Habs).
    assert (Hfin : posAtx_is db' (first_max None l.*2)).
    { apply Hinv; try done.
      - by intros y ?%elem_of_nil.
      - intros x Hx Hne. by destruct Hne; apply Hnone. }
    destruct l as [|[ech a] l]; [done|].
    destruct (first_max_None a l.*2) as (m & l1 & l2 & Hm & Hsplit & H1 & H2).
    change (((ech, a) :: l).*2) with (a :: l.*2) in *.
    rewrite Hm in Hfin. simpl in Hfin.
    exists l1, m, l2. repeat split; try done.
    unfold GetPosAtxId. rewrite Hfin. simpl.
    rewrite (StoreAtxs_ok_LayersPerEpoch _ _ _ _ Hrun Herrs).
    by rewrite decide_False by (by intros []).
Qed.
End posAtx_claim.

(** ** The writer succeeds on a database without I/O failures *)

Section progress.
Context `{TypesLib}.




End progress.

(** ** The caches *)

Section lru_facts.
Context {K V : Type} `{EqDecision K}.

Lemma lru_find_Some (k : K) (l : list (K * V)) v :
  lru_find k l = Some v → (k, v) ∈ l.
Proof.
  induction l as [|[k' v'] l IH]; simpl; [done|].
  case_decide as Hk.
  - intros [= ->]. subst. by left.
  - intros Hf. right. by apply IH.
Qed.

Lemma lru_find_elem (k : K) (l : list (K * V)) v :
  (k, v) ∈ l → is_Some (lru_find k l).
Proof.
  induction l as [|[k' v'] l IH]; simpl; [by intros ?%elem_of_nil|].
  intros [[= <- <-]|Hin]%elem_of_cons.
  - by rewrite decide_True.
  - case_decide; [done|by apply IH].
Qed.

Lemma lru_remove_elem (k : K) (l : list (K * V)) x :
  x ∈ lru_remove k l → x ∈ l.
Proof.
  induction l as [|[k' v'] l IH]; simpl; [done|].
  case_decide.
  - intros Hx. right. by apply IH.
  - intros [->|Hx]%elem_of_cons; [by left|right; by apply IH].
Qed.

Lemma lru_Get_entries (c : Lru K V) k r c' x :
  lru_Get c k = (r, c') → x ∈ entries c' → x ∈ entries c.
Proof.
  unfold lru_Get. destruct (lru_find k (entries c)) as [v|] eqn:Hf.
  - intros [= <- <-]. simpl. intros [->|Hx]%elem_of_cons.
    + by apply lru_find_Some.
    + by eapply lru_remove_elem.
  - by intros [= <- <-].
Qed.

Lemma lru_Get_result (c : Lru K V) k :
  (lru_Get c k).1 = lru_find k (entries c).
Proof. unfold lru_Get. by destruct (lru_find k (entries c)). Qed.

Lemma lru_Add_entries (c : Lru K V) k v x :
  x ∈ entries (lru_Add c k v) → x = (k, v) ∨ x ∈ entries c.
Proof.
  unfold lru_Add. simpl. intros Hx. apply subseteq_take in Hx.
  apply elem_of_cons in Hx as [->|Hx]; [by left|right].
  by eapply lru_remove_elem.
Qed.
End lru_facts.

Section getAtx_facts.
Context `{TypesLib}.

End getAtx_facts.

(** ** The epoch counter under [ProcessAtx] *)

Lemma wrap32_idemp n : wrap32 (wrap32 n) = wrap32 n.
Proof. unfold wrap32. by rewrite Z.mod_mod. Qed.

Lemma wrap32_succ n : wrap32 (wrap32 n + 1) = wrap32 (n + 1).
Proof. unfold wrap32. by rewrite Zplus_mod_idemp_l. Qed.


Section healthy_facts.
Context `{TypesLib}.


Lemma reservedKey_hash (k : Bytes) : String.length k = 32%nat → reservedKey k.
Proof. intros. right. by right. Qed.

Lemma reservedKey_counterKey e : reservedKey (epochCounterKey e).
Proof. right. left. apply length_epochCounterKey. Qed.




End healthy_facts.

Section processAtx.
Context `{TypesLib}.



End processAtx.

Section processAtx_claims.
Context `{TypesLib}.




End processAtx_claims.

(** ** Counting the active set *)

Section counting.
Context `{TypesLib}.

Lemma with_activesetCache_id db : with_activesetCache db (activesetCache db) = db.
Proof. by destruct db. Qed.

Lemma with_atxCache_id db : with_atxCache db (atxCache db) = db.
Proof. by destruct db. Qed.

(** With a coherent cache [GetAtx] returns what the store holds. *)
Lemma GetAtx_coherent id db :
  cache_coherent db →
  ∃ e db',
    GetAtx id db = Ret (stored_atx (atxs db) id, e) db'
    ∧ (e = None ↔ is_Some (stored_atx (atxs db) id))
    ∧ (caches_only db db' ∧ activesetCache db' = activesetCache db)
    ∧ cache_coherent db'.
Proof.
  intros Hco. unfold GetAtx, stored_atx.
  unfold bind, atxCache_Get, atxs_Get, atxCache_Add, gets, ret.
  case_decide as Hid.
  { do 2 eexists. split; [done|]. split; [|by auto using caches_only_refl].
    split; [done|by intros [? [=]]]. }
  assert (Hfr : ∀ c, caches_only db (with_atxCache db c)
                     ∧ activesetCache (with_atxCache db c) = activesetCache db).
  { intros c'. split; [apply caches_only_atxCache|done]. }
  destruct (lru_Get (atxCache db) id) as [hit c] eqn:Hget.
  pose proof (lru_Get_result (atxCache db) id) as Hres. rewrite Hget in Hres.
  simpl in Hres.
  assert (Hco1 : cache_coherent (with_atxCache db c)).
  { intros k v Hk. simpl in *. apply Hco. by eapply lru_Get_entries. }
  destruct hit as [a|].
  { symmetry in Hres. apply lru_find_Some, Hco in Hres.
    unfold stored_atx in Hres. rewrite decide_False in Hres by done.
    rewrite Hres. exists None. eexists. split; [done|].
    split; [by eauto|]. split; [by apply Hfr|done]. }
  simpl. destruct (DB_Get (atxs db) (AtxId_Bytes id)) as [b|e] eqn:Hdb.
  2:{ do 2 eexists. split; [done|]. split; [split; [done|by intros [? [=]]]|].
      split; [by apply Hfr|done]. }
  destruct (BytesAsAtx b) as [a|e] eqn:Hdec.
  2:{ do 2 eexists. split; [done|]. split; [split; [done|by intros [? [=]]]|].
      split; [by apply Hfr|done]. }
  exists None. eexists. split; [done|]. split; [by eauto|].
  split; [by unfold caches_only|].
  intros k v [[= -> ->]|Hk]%lru_Add_entries; simpl in *.
  - unfold stored_atx. rewrite decide_False by done. by rewrite Hdb, Hdec.
  - apply Hco. by eapply lru_Get_entries.
Qed.

Lemma filter_targets_insert d L e id (set : gset AtxId) :
  id ∉ set →
  Z.of_nat (size (filter (targets d L e) ({[id]} ∪ set)))
  = Z.of_nat (size (filter (targets d L e) set))
    + (if decide (targets d L e id) then 1 else 0).
Proof.
  intros Hid. rewrite filter_union_L; [|apply _].
  destruct (decide (targets d L e id)) as [Ht|Ht].
  - rewrite filter_singleton_True_L; [|apply _|done].
    rewrite size_union, size_singleton; [lia|].
    apply disjoint_singleton_l. by intros [_ ?]%elem_of_filter.
  - rewrite filter_singleton_False_L; [|apply _|done].
    by rewrite (left_id_L ∅ (∪)), Z.add_0_r.
Qed.

(** The loop over the ids of one block: the ids join the set and the
    counter follows the number of ids in the set that are to be counted. *)
Lemma countAtxIds_spec pubEpoch l :
  ∀ set db,
    cache_coherent db →
    (∀ id, id ∈ l → is_Some (stored_atx (atxs db) id)) →
    ∃ db',
      countAtxIds pubEpoch l set
        (wrap32 (Z.of_nat (size (filter
           (targets (atxs db) (LayersPerEpoch db) pubEpoch) set)))) db
      = Ret (list_to_set l ∪ set,
             wrap32 (Z.of_nat (size (filter
               (targets (atxs db) (LayersPerEpoch db) pubEpoch)
               (list_to_set l ∪ set))))) db'
      ∧ (caches_only db db' ∧ activesetCache db' = activesetCache db)
      ∧ cache_coherent db'.
Proof.
  induction l as [|id l IH]; intros set db Hco Hfound.
  - exists db. simpl. rewrite (left_id_L ∅ (∪)). auto using caches_only_refl.
  - simpl. assert (Hfound' : ∀ x, x ∈ l → is_Some (stored_atx (atxs db) x)).
    { intros x Hx. apply Hfound. by right. }
    case_decide as Hin.
    + destruct (IH set db Hco Hfound') as (db' & Hrun & Hc & Hco').
      exists db'. split; [|done]. rewrite Hrun.
      replace ({[id]} ∪ list_to_set l ∪ set) with (list_to_set l ∪ set :> gset AtxId)
        by set_solver.
      done.
    + destruct (GetAtx_coherent id db Hco) as (e & db1 & Hg & He & Hc1 & Hco1).
      destruct (Hfound id) as [atx Hatx]; [by left|].
      unfold bind at 1. rewrite Hg, Hatx.
      assert (e = None) as -> by (apply He; rewrite Hatx; eauto).
      pose proof Hc1 as ((Ha1 & _ & _ & HL1 & _) & Has1).
      unfold bind at 1, gets. rewrite HL1.
      pose proof (filter_targets_insert (atxs db) (LayersPerEpoch db) pubEpoch id set Hin)
        as Hsize.
      assert (Hfound1 : ∀ x, x ∈ l → is_Some (stored_atx (atxs db1) x)).
      { rewrite Ha1. done. }
      destruct (IH ({[id]} ∪ set) db1 Hco1 Hfound1) as (db' & Hrun & Hc & Hco').
      rewrite Ha1, HL1 in Hrun.
      exists db'. split;
        [|destruct Hc, Hc1; split; [split|done];
          [by eauto using caches_only_trans|congruence]].
      replace ({[id]} ∪ list_to_set l ∪ set)
        with (list_to_set l ∪ ({[id]} ∪ set) :> gset AtxId) by set_solver.
      rewrite <- Hrun. rewrite Hsize.
      destruct (decide (TargetEpoch atx (LayersPerEpoch db) ≠ pubEpoch)) as [Hne|Heq].
      * rewrite decide_False; [by rewrite Z.add_0_r|].
        unfold targets. by rewrite Hatx.
      * rewrite decide_True; [by rewrite wrap32_succ|].
        unfold targets. rewrite Hatx.
        by destruct (decide (TargetEpoch atx (LayersPerEpoch db) = pubEpoch)).
Qed.
End counting.

Section calc.
Context `{TypesLib}.

Lemma elem_of_epoch_ids L e bs (id : AtxId) :
  id ∈ epoch_ids L e bs ↔
  ∃ b, b ∈ bs ∧ GetEpoch (LayerIndex b) L = e ∧ id ∈ AtxIds b.
Proof.
  induction bs as [|b bs IH]; simpl.
  - split; [set_solver|]. by intros (b & ?%elem_of_nil & _).
  - rewrite elem_of_union, IH. split.
    + intros [Hb|(b' & Hb' & He & Hid)].
      * case_decide; [|set_solver]. exists b. rewrite elem_of_list_to_set in Hb.
        split; [by left|done].
      * exists b'. split; [by right|done].
    + intros (b' & [->|Hb']%elem_of_cons & He & Hid).
      * left. rewrite decide_True by done. by apply elem_of_list_to_set.
      * right. eauto.
Qed.

(** The traversal over the visited blocks. *)
Lemma forBlocks_traversalFunc_spec pubEpoch countingEpoch bs :
  ∀ set db,
    cache_coherent db →
    (∀ b id, b ∈ bs → GetEpoch (LayerIndex b) (LayersPerEpoch db) = countingEpoch →
             id ∈ AtxIds b → is_Some (stored_atx (atxs db) id)) →
    ∃ db',
      forBlocks (traversalFunc pubEpoch countingEpoch) bs
        (set, wrap32 (Z.of_nat (size (filter
           (targets (atxs db) (LayersPerEpoch db) pubEpoch) set)))) db
      = Ret ((epoch_ids (LayersPerEpoch db) countingEpoch bs ∪ set,
              wrap32 (Z.of_nat (size (filter
                (targets (atxs db) (LayersPerEpoch db) pubEpoch)
                (epoch_ids (LayersPerEpoch db) countingEpoch bs ∪ set))))), None) db'
      ∧ (caches_only db db' ∧ activesetCache db' = activesetCache db)
      ∧ cache_coherent db'.
Proof.
  induction bs as [|b bs IH]; intros set db Hco Hfound.
  - exists db. simpl. rewrite (left_id_L ∅ (∪)). auto using caches_only_refl.
  - assert (Hfound' : ∀ b' id, b' ∈ bs →
              GetEpoch (LayerIndex b') (LayersPerEpoch db) = countingEpoch →
              id ∈ AtxIds b' → is_Some (stored_atx (atxs db) id)).
    { intros b' id Hb'. apply Hfound. by right. }
    simpl. unfold bind at 1. unfold traversalFunc at 1. unfold bind at 1, gets.
    case_decide as He.
    + unfold ret at 1. rewrite decide_False by done. rewrite (left_id_L ∅ (∪)).
      by apply IH.
    + assert (Hep : GetEpoch (LayerIndex b) (LayersPerEpoch db) = countingEpoch).
      { by destruct (decide (GetEpoch (LayerIndex b) (LayersPerEpoch db) = countingEpoch)). }
      destruct (countAtxIds_spec pubEpoch (AtxIds b) set db Hco)
        as (db1 & Hrun & [Hc1 Has1] & Hco1).
      { intros id Hid. eapply Hfound; [by left|done..]. }
      simpl. unfold bind at 1. rewrite Hrun. unfold ret at 1.
      pose proof Hc1 as (Ha1 & _ & _ & HL1 & _).
      destruct (IH (list_to_set (AtxIds b) ∪ set) db1 Hco1) as (db' & Hrun' & [Hc Has] & Hco').
      { rewrite Ha1, HL1. done. }
      rewrite Ha1, HL1 in Hrun'. rewrite Hrun'.
      exists db'. rewrite decide_True by done.
      replace (list_to_set (AtxIds b) ∪ epoch_ids (LayersPerEpoch db) countingEpoch bs ∪ set)
        with (epoch_ids (LayersPerEpoch db) countingEpoch bs
              ∪ (list_to_set (AtxIds b) ∪ set) :> gset AtxId) by set_solver.
      split; [done|]. split; [|done].
      split; [by eauto using caches_only_trans|congruence].
Qed.

Lemma lru_Get_miss {K V} `{EqDecision K} (c : Lru K V) k :
  lru_find k (entries c) = None → lru_Get c k = (None, c).
Proof. unfold lru_Get. by intros ->. Qed.

Lemma lru_Get_hit {K V} `{EqDecision K} (c : Lru K V) k v :
  lru_find k (entries c) = Some v → ∃ c', lru_Get c k = (Some v, c').
Proof. unfold lru_Get. intros ->. eauto. Qed.

Lemma lru_find_Add {K V} `{EqDecision K} (c : Lru K V) k v :
  (0 < capacity c)%nat → lru_find k (entries (lru_Add c k v)) = Some v.
Proof.
  unfold lru_Add. simpl. destruct (capacity c) as [|n]; [lia|]. intros _.
  simpl. by rewrite decide_True.
Qed.

(** A hit returns the cached count, whatever the publication epoch. *)
Lemma CalcActiveSetFromView_hit a db vb c :
  ViewAsBytes (View a) = Ok vb →
  lru_find (BytesToHash vb) (entries (activesetCache db)) = Some c →
  ∃ db', CalcActiveSetFromView a db = Ret (c, None) db'.
Proof.
  intros Hvb [c' Hhit]%lru_Get_hit. unfold CalcActiveSetFromView. rewrite Hvb.
  unfold bind, activesetCache_Get. rewrite Hhit. unfold ret. eauto.
Qed.

Lemma CalcActiveSetFromView_miss_genesis a db vb :
  ViewAsBytes (View a) = Ok vb →
  lru_find (BytesToHash vb) (entries (activesetCache db)) = None →
  GetEpoch (PubLayerIdx a) (LayersPerEpoch db) < 1 →
  CalcActiveSetFromView a db =
    Ret (0, Some (Errorf "publication epoch cannot be less than 1, found %v")) db.
Proof.
  intros Hvb Hmiss%lru_Get_miss Hep. unfold CalcActiveSetFromView. rewrite Hvb.
  unfold bind, activesetCache_Get. rewrite Hmiss, with_activesetCache_id.
  unfold gets. by rewrite decide_True.
Qed.

Lemma first_layer_of_counting_epoch l L :
  0 < L → is_uint64 l → 1 ≤ GetEpoch l L →
  wrap64 ((GetEpoch l L - 1) * L) = (GetEpoch l L - 1) * L.
Proof.
  unfold GetEpoch, is_uint64. intros HL [Hl0 Hl] He. apply wrap64_small.
  pose proof (Z.mul_div_le l L HL). unfold is_uint64. nia.
Qed.

Lemma CalcActiveSetFromView_miss_counts a db vb :
  ViewAsBytes (View a) = Ok vb →
  lru_find (BytesToHash vb) (entries (activesetCache db)) = None →
  1 ≤ GetEpoch (PubLayerIdx a) (LayersPerEpoch db) →
  0 < LayersPerEpoch db → is_uint64 (PubLayerIdx a) →
  cache_coherent db →
  traversal_ok (meshDb db) (list_to_set (View a))
    (wrap64 ((GetEpoch (PubLayerIdx a) (LayersPerEpoch db) - 1) * LayersPerEpoch db)) →
  references_found db a →
  ∃ (S : gset AtxId) db',
    CalcActiveSetFromView a db = Ret (wrap32 (Z.of_nat (size S)), None) db'
    ∧ (∀ id, id ∈ S ↔ counted db a id)
    ∧ caches_only db db'
    ∧ ((0 < capacity (activesetCache db))%nat →
       lru_find (BytesToHash vb) (entries (activesetCache db'))
       = Some (wrap32 (Z.of_nat (size S)))).
Proof.
  intros Hvb Hmiss%lru_Get_miss Hep HL Hlay Hco (Hterr & Hsound & Hcompl) Hfound.
  pose proof (first_layer_of_counting_epoch _ _ HL Hlay Hep) as Hfl.
  rewrite Hfl in Hterr, Hsound, Hcompl.
  set (L := LayersPerEpoch db) in *.
  set (pubEpoch := GetEpoch (PubLayerIdx a) L) in *.
  destruct (visits (meshDb db) (list_to_set (View a)) ((pubEpoch - 1) * L))
    as [bs terr] eqn:Hv. simpl in Hterr, Hsound, Hcompl. subst terr.
  assert (Hin : ∀ b, GetEpoch (LayerIndex b) L = pubEpoch - 1 →
                 (b ∈ bs ↔ reachable (meshDb db) (list_to_set (View a)) b)).
  { intros b Hb. split; [apply Hsound|]. intros Hr. apply Hcompl; [done|].
    rewrite <- Hb. unfold GetEpoch. pose proof (Z.mul_div_le (LayerIndex b) L HL). lia. }
  destruct (forBlocks_traversalFunc_spec pubEpoch (pubEpoch - 1) bs ∅ db Hco)
    as (db1 & Hrun & [Hc1 Has1] & Hco1).
  { intros b id Hb Hbe Hid. apply (Hfound b id); [by apply Hin|done..]. }
  fold L in Hrun.
  set (T := targets (atxs db) L pubEpoch) in *.
  set (S := filter T (epoch_ids L (pubEpoch - 1) bs ∪ ∅)) in *.
  assert (H0 : wrap32 (Z.of_nat (size (filter T (∅ : gset AtxId)))) = 0).
  { rewrite filter_empty_L; [|apply _]. by rewrite size_empty. }
  rewrite H0 in Hrun.
  exists S. eexists.
  split; [|split; [|split]].
  - unfold CalcActiveSetFromView. rewrite Hvb.
    unfold bind at 1, activesetCache_Get. rewrite Hmiss, with_activesetCache_id.
    unfold bind at 1, gets. fold L. fold pubEpoch.
    rewrite decide_False by lia.
    rewrite Hfl.
    unfold bind at 1, ForBlockInView. unfold bind at 1, gets. rewrite Hv.
    unfold bind at 1. rewrite Hrun. unfold ret at 1. simpl.
    unfold bind, activesetCache_Add, ret. done.
  - intros id. unfold S, counted. fold L pubEpoch.
    rewrite elem_of_filter, (right_id_L ∅ (∪)), elem_of_epoch_ids.
    unfold T, targets. split.
    + intros [Ht (b & Hb & Hbe & Hid)].
      destruct (stored_atx (atxs db) id) as [atx|] eqn:Hatx; [|done].
      exists b, atx. split; [by apply Hin|done].
    + intros (b & atx & Hr & Hbe & Hid & Hatx & Ht). rewrite Hatx.
      split; [done|]. exists b. split; [by apply Hin|done].
  - destruct Hc1 as (? & ? & ? & ? & ? & ?). by unfold caches_only.
  - intros Hcap. simpl. apply lru_find_Add. by rewrite Has1.
Qed.
End calc.

Section calc_claim.
Context `{TypesLib}.

(** [CalcActiveSetFromView], hit and miss.  The active-set cache is
    consulted first: on a hit the call returns the cached count, whatever
    the publication epoch.  On a miss it fails when the publication epoch is 0;
    when the epoch is at least 1 it returns the number (on [uint32]) of
    distinct ATX ids referenced by blocks reachable from the view that lie in
    the previous epoch and whose ATX has the publication epoch as target
    epoch, and it caches this number under the hash of the view, so that the
    next call with a view of this hash returns it. *)
Theorem CalcActiveSetFromView_counts
    (a : ActivationTx) (db : ActivationDb) (vb : Bytes) :
  ViewAsBytes (View a) = Ok vb →
  (∀ c, lru_find (BytesToHash vb) (entries (activesetCache db)) = Some c →
        ∃ db', CalcActiveSetFromView a db = Ret (c, None) db')
  ∧ (lru_find (BytesToHash vb) (entries (activesetCache db)) = None →
     (GetEpoch (PubLayerIdx a) (LayersPerEpoch db) < 1 →
        CalcActiveSetFromView a db =
          Ret (0, Some (Errorf "publication epoch cannot be less than 1, found %v")) db)
     ∧ (1 ≤ GetEpoch (PubLayerIdx a) (LayersPerEpoch db) →
        0 < LayersPerEpoch db → is_uint64 (PubLayerIdx a) →
        cache_coherent db →
        traversal_ok (meshDb db) (list_to_set (View a))
          (wrap64 ((GetEpoch (PubLayerIdx a) (LayersPerEpoch db) - 1)
                   * LayersPerEpoch db)) →
        references_found db a →
        ∃ (S : gset AtxId) db',
          CalcActiveSetFromView a db = Ret (wrap32 (Z.of_nat (size S)), None) db'
          ∧ (∀ id, id ∈ S ↔ counted db a id)
          ∧ ((0 < capacity (activesetCache db))%nat →
             ∀ a2 vb2, ViewAsBytes (View a2) = Ok vb2 →
                       BytesToHash vb2 = BytesToHash vb →
                       ∃ db'', CalcActiveSetFromView a2 db'
                               = Ret (wrap32 (Z.of_nat (size S)), None) db''))).
Proof.
  intros Hvb. split; [intros c; by apply (CalcActiveSetFromView_hit a db vb)|].
  intros Hmiss. split; [by apply (CalcActiveSetFromView_miss_genesis a db vb)|].
  intros Hep HL Hlay Hco Htrav Hfound.
  destruct (CalcActiveSetFromView_miss_counts a db vb Hvb Hmiss Hep HL Hlay Hco Htrav Hfound)
    as (S & db' & Hrun & HS & _ & Hcached).
  exists S, db'. split; [done|]. split; [done|].
  intros Hcap a2 vb2 Hvb2 Hhash.
  eapply CalcActiveSetFromView_hit; [done|]. rewrite Hhash. by apply Hcached.
Qed.
End calc_claim.

(** ** Worked examples *)

Lemma ex_node_key_not_reserved : ¬ reservedKey (Key ex_node).
Proof. intros [Hk|[Hk|Hk]]; vm_compute in Hk; discriminate. Qed.






Lemma run_ret {A} (m : M A) (db : ActivationDb) (r : A) :
  match m db with Ret r' _ => r' = r | Panic => False end →
  m db = Ret r (state_after m db).
Proof. unfold state_after. destruct (m db); [by intros ->|done]. Qed.



(** C3: the code breaks the claim on a cache hit.  The lookup in the
    active-set cache, keyed by the hash of the view alone, comes before the
    guard on the publication epoch.  For the genesis ATX [ex_atxA] the call
    fails on the empty cache, but after a call for [ex_atxOrphan], which has
    the same view, the guard is skipped and the call returns 0 without an
    error.  And after a call for [ex_atxB] (epoch 1, one ATX counted), the
    call for [ex_atxC] (same view, epoch 2) returns the cached 1, where the
    same call on the same store without the cache entry returns 0. *)
Theorem CalcActiveSetFromView_cache_hit_skips_guard :
  GetEpoch (PubLayerIdx ex_atxA) 4 = 0
  ∧ CalcActiveSetFromView (H:=exLib) ex_atxA ex_db
    = Ret (0, Some (Errorf "publication epoch cannot be less than 1, found %v")) ex_db
  ∧ (∃ db1 db2,
       CalcActiveSetFromView (H:=exLib) ex_atxOrphan ex_db = Ret (0, None) db1
       ∧ CalcActiveSetFromView (H:=exLib) ex_atxA db1 = Ret (0, None) db2)
  ∧ (∃ db1 db2 db3,
       CalcActiveSetFromView (H:=exLib) ex_atxB ex_dbA = Ret (1, None) db1
       ∧ CalcActiveSetFromView (H:=exLib) ex_atxC db1 = Ret (1, None) db2
       ∧ CalcActiveSetFromView (H:=exLib) ex_atxC ex_dbA = Ret (0, None) db3).
Proof.
  split; [by vm_compute|]. split; [by vm_compute|]. split.
  - eexists _, _. split; apply run_ret; by vm_compute.
  - eexists _, _, _. split_and!; apply run_ret; by vm_compute.
Qed.

Lemma ex_mesh1_reachable view b : reachable ex_mesh1 view b → b = ex_block1.
Proof.
  assert (Hb : ∀ b, blocks ex_mesh1 !! Id b = Some b → b = ex_block1).
  { intros b'. simpl. by intros [_ ?]%lookup_singleton_Some. }
  induction 1; by apply Hb.
Qed.

Lemma ex_mesh1_traversal_ok : traversal_ok ex_mesh1 (list_to_set [1]) 0.
Proof.
  assert (Hv : visits ex_mesh1 (list_to_set [1]) 0 = ([ex_block1], None)).
  { by vm_compute. }
  unfold traversal_ok. rewrite Hv. simpl. split; [done|]. split.
  - intros b ->%list_elem_of_singleton.
    apply reach_view; [simpl; set_solver|done].
  - intros b ->%ex_mesh1_reachable _. by apply list_elem_of_singleton.
Qed.

Lemma ex_dbA_cache_coherent : @cache_coherent exLib ex_dbA.
Proof.
  assert (Hc : entries (atxCache ex_dbA) = []) by (by vm_compute).
  intros id a Hin. rewrite Hc in Hin. by apply elem_of_nil in Hin.
Qed.

Lemma ex_dbA_references_found : @references_found exLib ex_dbA ex_atxB.
Proof.
  intros b id ->%ex_mesh1_reachable _ ->%list_elem_of_singleton.
  vm_compute. eauto.
Qed.

(** The count of [ex_atxB] on [ex_dbA], a miss: one ATX, cached under the
    hash of the view. *)
Lemma CalcActiveSetFromView_counts_witness :
  ∃ (S : gset AtxId) db',
    CalcActiveSetFromView (H:=exLib) ex_atxB ex_dbA
    = Ret (wrap32 (Z.of_nat (size S)), None) db'
    ∧ (∀ id, id ∈ S ↔ counted (H:=exLib) ex_dbA ex_atxB id)
    ∧ ((0 < capacity (activesetCache ex_dbA))%nat →
       ∀ a2 vb2, ViewAsBytes (TypesLib:=exLib) (View a2) = Ok vb2 →
                 ex_BytesToHash vb2 = ex_BytesToHash ex_viewBytes →
                 ∃ db'', CalcActiveSetFromView (H:=exLib) a2 db'
                         = Ret (wrap32 (Z.of_nat (size S)), None) db'').
Proof.
  destruct (CalcActiveSetFromView_counts (H:=exLib) ex_atxB ex_dbA ex_viewBytes eq_refl)
    as [_ Hmiss].
  destruct Hmiss as [_ Hcount]; [by vm_compute|].
  apply Hcount.
  - by vm_compute.
  - by vm_compute.
  - unfold is_uint64. simpl. lia.
  - apply ex_dbA_cache_coherent.
  - apply ex_mesh1_traversal_ok.
  - apply ex_dbA_references_found.
Defined.

(** The witness for C4: [ex_atxB] lies exactly one epoch of layers after its
    positioning ATX, and the check passes. *)
Lemma SyntacticallyValidateAtx_positioning_witness :
  ((∃ db', validatePositioningAtx (H:=exLib) ex_atxB ex_dbA = Ret None db')
   ↔ positioning_ok (H:=exLib) ex_dbA ex_atxB)
  ∧ ∃ db', validatePositioningAtx (H:=exLib) ex_atxB ex_dbA = Ret None db'.
Proof.
  assert (Hg : GetAtx (H:=exLib) (ex_Id_of ex_atxA) ex_dbA
               = Ret (Some (set_Nipst ex_atxA None), None)
                   (state_after (GetAtx (H:=exLib) (ex_Id_of ex_atxA)) ex_dbA)).
  { apply run_ret. by vm_compute. }
  destruct (SyntacticallyValidateAtx_positioning (H:=exLib) ex_atxB ex_dbA)
    as (Hiff & _ & Hacc & _).
  - unfold is_uint64. simpl. lia.
  - intros pos db' Hpos. change (PositioningAtx ex_atxB) with (ex_Id_of ex_atxA) in Hpos.
    rewrite Hg in Hpos. injection Hpos as <- _. unfold is_uint64. simpl. lia.
  - split; [exact Hiff|].
    eapply Hacc; [by vm_compute|exact Hg|by vm_compute|by vm_compute].
Defined.

(** C6 fails as stated, in two ways.  On a store that cannot read the id
    key of [ex_atxA], [StoreAtx] takes the ATX for absent each time: both
    calls return [nil], the second one although the store holds the body
    under the id by then, and the counter of epoch 0 reads 1 after the first
    call and 2 after the second.  And on a store that cannot write the body
    of [ex_atxA], the first call fails after it wrote the NIPST and detached
    it from the ATX; the second call, on the ATX as the first one left it,
    fails in the same way and has replaced the NIPST in the store by the
    encoding of no NIPST. *)
Lemma StoreAtx_idempotent_counterexample :
  (∃ a1 db1 db2,
     StoreAtx (H:=exLib) 0 ex_atxA ex_dbIdFault = Ret (a1, None) db1
     ∧ is_Some (cells (atxs db1) !! ex_Id_of ex_atxA)
     ∧ StoreAtx (H:=exLib) 0 a1 db1 = Ret (a1, None) db2
     ∧ ActiveSetSize db1 0 = Some (1, None)
     ∧ ActiveSetSize db2 0 = Some (2, None)
     ∧ db2 ≠ db1)
  ∧ (∃ e a1 db1 db2,
       StoreAtx (H:=exLib) 0 ex_atxA ex_dbNoBody = Ret (a1, Some e) db1
       ∧ StoreAtx (H:=exLib) 0 a1 db1 = Ret (a1, Some e) db2
       ∧ GetNipst (H0:=exNipst) db1 (ex_Id_of ex_atxA) = (Some "proof A", None)
       ∧ GetNipst (H0:=exNipst) db2 (ex_Id_of ex_atxA) = (Some EmptyString, None)).
Proof.
  split.
  - set (db1 := state_after (StoreAtx (H:=exLib) 0 ex_atxA) ex_dbIdFault).
    set (db2 := state_after (StoreAtx (H:=exLib) 0 (set_Nipst ex_atxA None)) db1).
    assert (H1 : ActiveSetSize db1 0 = Some (1, None)) by (by vm_compute).
    assert (H2 : ActiveSetSize db2 0 = Some (2, None)) by (by vm_compute).
    exists (set_Nipst ex_atxA None), db1, db2. split_and!.
    + apply run_ret. by vm_compute.
    + vm_compute. eauto.
    + apply run_ret. by vm_compute.
    + exact H1.
    + exact H2.
    + intros Heq. rewrite Heq, H1 in H2. discriminate.
  - set (db1 := state_after (StoreAtx (H:=exLib) 0 ex_atxA) ex_dbNoBody).
    set (db2 := state_after (StoreAtx (H:=exLib) 0 (set_Nipst ex_atxA None)) db1).
    exists ErrIO, (set_Nipst ex_atxA None), db1, db2. split_and!.
    + apply run_ret. by vm_compute.
    + apply run_ret. by vm_compute.
    + by vm_compute.
    + by vm_compute.
Qed.

(** The witness for C6. *)
Lemma StoreAtx_idempotent_witness :
  ∃ a1 db1,
    StoreAtx (H:=exLib) 0 ex_atxA ex_db = Ret (a1, None) db1
    ∧ StoreAtx (H:=exLib) 0 a1 db1 = Ret (a1, None) db1
    ∧ StoreAtx (H:=exLib) 0 ex_atxA db1 = Ret (ex_atxA, None) db1.
Proof.
  assert (Hrun : StoreAtx (H:=exLib) 0 ex_atxA ex_db
                 = Ret (set_Nipst ex_atxA None, None)
                     (state_after (StoreAtx (H:=exLib) 0 ex_atxA) ex_db)).
  { apply run_ret. by vm_compute. }
  destruct (StoreAtx_idempotent (H:=exLib) 0 ex_atxA ex_db
              exLib_id_is_hash exLib_id_ignores_nipst) as [_ Htwice].
  - intros b [= <-]. done.
  - simpl. apply not_elem_of_empty.
  - eexists _, _. split; [exact Hrun|]. by apply Htwice.
Defined.

(** C7 fails as stated, in two ways.  A [StoreAtx] that fails at the record
    has stored the body by then: on [ex_dbPosLocked] the ATX of layer 7 is in
    the store while the record, and [GetPosAtxId], still name the ATX of
    layer 3.  And the last-ATX pointer of a node is written to the same store
    under the key of the node: for [ex_atxP], of layer 1 and with the node
    key [posAtxKey], a [StoreAtx] that returns [nil] overwrites the record,
    which named an ATX of layer 3, with the id of [ex_atxP]. *)
Lemma StoreAtx_posAtx_counterexample :
  (∃ e db',
     StoreAtx (H:=exLib) 1 ex_atxOrphan ex_dbPosLocked
     = Ret (set_Nipst ex_atxOrphan None, Some e) db'
     ∧ getAtxUnlocked (H:=exLib) db' (ex_Id_of ex_atxOrphan)
       = (Some (set_Nipst ex_atxOrphan None), None)
     ∧ GetPosAtxId (H:=exLib) db' 0 = (ex_Id_of ex_atxA, None)
     ∧ PubLayerIdx ex_atxA < PubLayerIdx ex_atxOrphan)
  ∧ (∃ db',
       StoreAtx (H:=exLib) 0 ex_atxP ex_dbStoredA = Ret (set_Nipst ex_atxP None, None) db'
       ∧ getCurrentAtxIdAndLayer (H:=exLib) ex_dbStoredA
         = (posAtx_record (H:=exLib) ex_atxA, None)
       ∧ PubLayerIdx ex_atxP < PubLayerIdx ex_atxA
       ∧ DB_Get (atxs db') posAtxKey = Ok (ex_Id_of ex_atxP)
       ∧ DB_Get (atxs db') posAtxKey ≠ DB_Get (atxs ex_dbStoredA) posAtxKey
       ∧ GetPosAtxId (H:=exLib) ex_dbStoredA 0 = (ex_Id_of ex_atxA, None)
       ∧ GetPosAtxId (H:=exLib) db' 0
         = (EmptyAtxId, Some (Errorf "failed to unmarshal posAtx ID and layer: %v"))).
Proof.
  split.
  - exists (Errorf "failed to store posAtx ID and layer: %v"),
      (state_after (StoreAtx (H:=exLib) 1 ex_atxOrphan) ex_dbPosLocked).
    split_and!; [apply run_ret| | |]; by vm_compute.
  - exists (state_after (StoreAtx (H:=exLib) 0 ex_atxP) ex_dbStoredA).
    split_and!; [apply run_ret| | | | | |]; by vm_compute.
Qed.

(** The witness for C7. *)
Lemma StoreAtx_posAtx_highest_layer_witness :
  ∃ db' l1 m l2,
    StoreAtxs (H:=exLib) ex_stores ex_db = Ret [None; None] db'
    ∧ ex_stores.*2 = l1 ++ m :: l2
    ∧ getCurrentAtxIdAndLayer (H:=exLib) db' = (posAtx_record (H:=exLib) m, None)
    ∧ GetPosAtxId (H:=exLib) db' (GetEpoch (PubLayerIdx m) 4) = (ex_Id_of m, None)
    ∧ (∀ x, x ∈ l1 → PubLayerIdx x < PubLayerIdx m)
    ∧ (∀ x, x ∈ l2 → PubLayerIdx x ≤ PubLayerIdx m).
Proof.
  assert (Hrun : StoreAtxs (H:=exLib) ex_stores ex_db
                 = Ret [None; None] (state_after (StoreAtxs (H:=exLib) ex_stores) ex_db)).
  { apply run_ret. by vm_compute. }
  destruct (StoreAtx_posAtx_highest_layer (H:=exLib)
              exLib_id_is_hash exLib_id_ignores_nipst exLib_posAtx_codec_sound)
    as [_ Hseq].
  destruct (Hseq ex_stores ex_db [None; None]
              (state_after (StoreAtxs (H:=exLib) ex_stores) ex_db))
    as (l1 & m & l2 & Hsplit & Hcur & Hpos & H1 & H2).
  - by vm_compute.
  - intros x _. apply lookup_empty.
  - intros x [->|[->|[]%elem_of_nil]%elem_of_cons]%elem_of_cons;
      apply ex_node_key_not_reserved.
  - intros x y [->|[->|[]%elem_of_nil]%elem_of_cons]%elem_of_cons
             [->|[->|[]%elem_of_nil]%elem_of_cons]%elem_of_cons Hid;
      try done; vm_compute in Hid; discriminate.
  - exact Hrun.
  - repeat constructor.
  - done.
  - eexists _, l1, m, l2. split; [exact Hrun|]. done.
Defined.

(** The witness for C8. *)
Lemma IsIdentityActive_genesis_and_unknown_witness :
  IsIdentityActive (H:=exLib) "unknown" 3 ex_db = Ret (true, EmptyAtxId, None) ex_db
  ∧ IsIdentityActive (H:=exLib) "unknown" 7 ex_db = Ret (false, EmptyAtxId, None) ex_db.
Proof.
  split.
  - apply (IsIdentityActive_genesis_and_unknown (H:=exLib) ex_db "unknown" 3).
    by vm_compute.
  - apply (IsIdentityActive_genesis_and_unknown (H:=exLib) ex_db "unknown" 7).
    + by vm_compute.
    + apply lookup_empty.
Defined.

(** The witness for C9: the genesis ATX [ex_atxA] declares 0 and passes
    the active-set check although the calculation fails. *)
Lemma validateActiveSet_genesis_failure_witness :
  validateActiveSet (H:=exLib) ex_atxA ex_db = Ret None ex_db
  ∧ ((∃ db', validateActiveSet (H:=exLib) ex_atxA ex_db = Ret None db')
     ↔ ActiveSetSize_ ex_atxA = 0).
Proof.
  destruct (validateActiveSet_genesis_failure (H:=exLib) ex_atxA ex_db ex_db 0
    (Errorf "publication epoch cannot be less than 1, found %v"))
    as (_ & Hstep & Hiff & _).
  - by vm_compute.
  - by vm_compute.
  - split; [|exact Hiff]. rewrite Hstep. done.
Defined.

(** The witness for C10: the count 5 of epoch 0 cannot be read, and
    [incValidAtxCounter] writes 1 and returns [nil]. *)
Lemma incValidAtxCounter_read_error_witness :
  cells (atxs ex_dbFaulty) !! epochCounterKey 0 = Some (Uint32ToBytes 5)
  ∧ (∃ db', incValidAtxCounter 0 ex_dbFaulty = Ret None db'
            ∧ cells (atxs db') !! epochCounterKey 0 = Some (Uint32ToBytes 1))
  ∧ ∃ db', StoreAtx (H:=exLib) 0 ex_atxA ex_dbFaulty
             = Ret (set_Nipst ex_atxA None, None) db'
           ∧ cells (atxs db') !! epochCounterKey 0 = Some (Uint32ToBytes 1).
Proof.
  split; [by vm_compute|]. split.
  - apply (incValidAtxCounter_read_error ex_dbFaulty 0 ErrIO).
    + by vm_compute.
    + simpl. apply not_elem_of_empty.
  - exists (state_after (StoreAtx (H:=exLib) 0 ex_atxA) ex_dbFaulty).
    split; [apply run_ret|]; by vm_compute.
Defined.

(** ** The scenarios of the specification, run on the model *)

(** The first ATX of a new identity (with [ProcessAtx], the counter is that of
    epoch 0). *)
Example scenario_first_atx :
  let db' := state_after (ProcessAtx (H:=exLib) ex_atxA) ex_db in
  GetNodeLastAtxId (H:=exLib) db' ex_node = (ex_Id_of ex_atxA, None)
  ∧ ActiveSetSize db' 0 = Some (1, None)
  ∧ (∃ db'', IsIdentityActive (H:=exLib) (Key ex_node) 7 db'
             = Ret (true, ex_Id_of ex_atxA, None) db'').
Proof.
  split_and!; [by vm_compute..|]. eexists. apply run_ret. by vm_compute.
Qed.

(** The second ATX extends the chain: it is syntactically and contextually
    valid, and once stored it is the last ATX of the node and the
    positioning ATX of epoch 1. *)
Example scenario_second_atx :
  (∃ db', SyntacticallyValidateAtx (H:=exLib) ex_atxB ex_dbA = Ret None db')
  ∧ ContextuallyValidateAtx (H:=exLib) ex_dbA ex_atxB = None
  ∧ let db' := state_after (ProcessAtx (H:=exLib) ex_atxB) ex_dbA in
    GetNodeLastAtxId (H:=exLib) db' ex_node = (ex_Id_of ex_atxB, None)
    ∧ GetPosAtxId (H:=exLib) db' 1 = (ex_Id_of ex_atxB, None).
Proof.
  split_and!; [|by vm_compute..]. eexists. apply run_ret. by vm_compute.
Qed.

(** A second first ATX of the same identity is contextually invalid. *)
Example scenario_double_first :
  ContextuallyValidateAtx (H:=exLib) ex_dbA ex_atxA
  = Some (Errorf "no prevATX reported, but other ATX with same nodeID (%v) found: %v").
Proof. by vm_compute. Qed.

(** * Further properties of the database *)

(** ** The writer, whatever it returns *)

Lemma stores_only_refl db : stores_only db db.
Proof. by unfold stores_only. Qed.

Lemma stores_only_trans db1 db2 db3 :
  stores_only db1 db2 → stores_only db2 db3 → stores_only db1 db3.
Proof. unfold stores_only. intros ? ?. destruct_and!. split_and!; congruence. Qed.

Lemma atxs_Put_stores_only k v db e db' :
  atxs_Put k v db = Ret e db' → stores_only db db' ∧ nipsts db' = nipsts db.
Proof.
  intros [(_ & _ & ->)|(_ & _ & ->)]%atxs_Put_inv; by unfold stores_only.
Qed.

Lemma nipsts_Put_stores_only k v db e db' :
  nipsts_Put k v db = Ret e db' →
  stores_only db db' ∧ atxs db' = atxs db
  ∧ ∀ k', k' ≠ k → DB_Get (nipsts db') k' = DB_Get (nipsts db) k'.
Proof.
  intros [(_ & _ & ->)|(_ & _ & ->)]%nipsts_Put_inv; unfold stores_only; simpl;
    split_and!; try done.
  intros. by apply DB_Get_write_ne.
Qed.

Section writer_frames.
Context `{TypesLib}.

Lemma storeAtxUnlocked_stores_only a db r db' :
  storeAtxUnlocked a db = Ret r db' →
  stores_only db db'
  ∧ ∀ k, k ≠ Id_of a → DB_Get (nipsts db') k = DB_Get (nipsts db) k.
Proof.
  unfold storeAtxUnlocked, AtxId_Bytes. intros Hs.
  destruct (NipstToBytes _);
    [|unfold ret in Hs; injection Hs as _ <-; auto using stores_only_refl].
  apply bind_Ret_inv in Hs as (e & db1 & Hp & Hs).
  apply nipsts_Put_stores_only in Hp as (Hso & Ha & Hn).
  destruct e; [unfold ret in Hs; by injection Hs as _ <-|].
  destruct (AtxAsBytes _); [|unfold ret in Hs; by injection Hs as _ <-].
  apply bind_Ret_inv in Hs as (e & db2 & Hp2 & Hs).
  unfold ret in Hs. injection Hs as _ <-.
  apply atxs_Put_stores_only in Hp2 as [Hso2 Hn2].
  split; [by eapply stores_only_trans|]. intros k Hk. rewrite Hn2. by apply Hn.
Qed.

Lemma updatePosAtxIfNeeded_stores_only a db e db' :
  updatePosAtxIfNeeded a db = Ret e db' →
  stores_only db db' ∧ nipsts db' = nipsts db
  ∧ ∀ k, k ≠ posAtxKey → DB_Get (atxs db') k = DB_Get (atxs db) k.
Proof.
  unfold updatePosAtxIfNeeded. unfold bind at 1, gets.
  destruct (getCurrentAtxIdAndLayer db) as [cur err].
  destruct (_ && _); [unfold ret; intros [= _ <-]; auto using stores_only_refl|].
  destruct (_ && _); [unfold ret; intros [= _ <-]; auto using stores_only_refl|].
  destruct (IdAndLayerToBytes _);
    [|unfold ret; intros [= _ <-]; auto using stores_only_refl].
  intros (e' & db1 & Hput & Hk)%bind_Ret_inv.
  assert (db' = db1) as ->.
  { destruct e'; unfold ret in Hk; by injection Hk as _ <-. }
  pose proof (atxs_Put_stores_only _ _ _ _ _ Hput) as [? ?].
  apply atxs_Put_frame in Hput as (_ & _ & _ & Hf). auto.
Qed.

Lemma incValidAtxCounter_stores_only ech db e db' :
  incValidAtxCounter ech db = Ret e db' →
  stores_only db db' ∧ nipsts db' = nipsts db.
Proof.
  unfold incValidAtxCounter, bind, atxs_Get, gets. intros Hi.
  destruct (DB_Get _ _); [destruct (BytesToUint32 _); [|done]|];
    by apply atxs_Put_stores_only in Hi.
Qed.

Lemma addAtxToNodeId_stores_only n a db e db' :
  addAtxToNodeId n a db = Ret e db' →
  stores_only db db' ∧ nipsts db' = nipsts db.
Proof.
  unfold addAtxToNodeId. intros (e' & db1 & Hp & Hk)%bind_Ret_inv.
  apply atxs_Put_stores_only in Hp.
  destruct e'; unfold ret in Hk; by injection Hk as _ <-.
Qed.

(** The steps of a [StoreAtx] call, for every outcome. *)
Lemma StoreAtx_cases ech a db r db' :
  StoreAtx ech a db = Ret r db' →
  (already_stored db a ∧ r = (a, None) ∧ db' = db)
  ∨ (¬ already_stored db a ∧
     ∃ a1 e1 db1,
       storeAtxUnlocked a db = Ret (a1, e1) db1 ∧
       match e1 with
       | Some e => r = (a1, Some e) ∧ db' = db1
       | None =>
           ∃ e2 db2,
             updatePosAtxIfNeeded a1 db1 = Ret e2 db2 ∧
             match e2 with
             | Some e => r = (a1, Some e) ∧ db' = db2
             | None =>
                 ∃ e3 db3,
                   incValidAtxCounter ech db2 = Ret e3 db3 ∧
                   match e3 with
                   | Some e => r = (a1, Some e) ∧ db' = db3
                   | None =>
                       ∃ e4 db4,
                         addAtxToNodeId (NodeId_ a1) a1 db3 = Ret e4 db4
                         ∧ r = (a1, e4) ∧ db' = db4
                   end
             end
       end).
Proof.
  unfold StoreAtx. unfold bind at 1, atxs_Get, gets.
  destruct (DB_Get (atxs db) (AtxId_Bytes (Id_of a))) as [[|c s]|e] eqn:Hget.
  2:{ unfold ret. intros [= <- <-]. left. unfold already_stored. eauto. }
  all: intros ([a1 e1] & db1 & Hs & Hk)%bind_Ret_inv; right;
    (split; [unfold already_stored; rewrite Hget; by intros (? & ? & [=])|]);
    exists a1, e1, db1; (split; [done|]);
    (destruct e1; [unfold ret in Hk; by injection Hk as <- <-|]);
    apply bind_Ret_inv in Hk as (e2 & db2 & Hp & Hk);
    exists e2, db2; (split; [done|]);
    (destruct e2; [unfold ret in Hk; by injection Hk as <- <-|]);
    apply bind_Ret_inv in Hk as (e3 & db3 & Hc & Hk);
    exists e3, db3; (split; [done|]);
    (destruct e3; [unfold ret in Hk; by injection Hk as <- <-|]);
    apply bind_Ret_inv in Hk as (e4 & db4 & Hn & Hk);
    exists e4, db4; (split; [done|]);
    destruct e4; unfold ret in Hk; by injection Hk as <- <-.
Qed.

(** Whatever it returns, [StoreAtx] leaves everything but the two stores as
    it was, writes the NIPST store under the id of the ATX at most, and the
    ATX store under the id, the record key, the counter key of the epoch and
    the key of the node at most. *)
Lemma StoreAtx_frame ech a db r db' :
  id_ignores_nipst →
  StoreAtx ech a db = Ret r db' →
  stores_only db db'
  ∧ (∀ k, k ≠ Id_of a → DB_Get (nipsts db') k = DB_Get (nipsts db) k)
  ∧ (∀ k, k ≠ Id_of a → k ≠ posAtxKey → k ≠ epochCounterKey ech →
          k ≠ Key (NodeId_ a) →
          DB_Get (atxs db') k = DB_Get (atxs db) k).
Proof.
  intros Hnip [(_ & _ & ->)|(_ & a1 & e1 & db1 & Hs & Hk)]%StoreAtx_cases.
  { auto using stores_only_refl. }
  pose proof (storeAtxUnlocked_stores_only _ _ _ _ Hs) as [Hso1 Hn1].
  pose proof (λ k, storeAtxUnlocked_Get _ _ _ _ k Hs) as Hg1.
  rewrite Hnip in Hg1.
  apply storeAtxUnlocked_frame in Hs as Ha1. simpl in Ha1.
  assert (Hk1 : Key (NodeId_ a1) = Key (NodeId_ a)) by (by destruct Ha1 as [->| ->]).
  destruct e1 as [e1|]; [destruct Hk as [_ ->]; auto|].
  destruct Hk as (e2 & db2 & Hp & Hk).
  apply updatePosAtxIfNeeded_stores_only in Hp as (Hso2 & Hn2 & Hg2).
  assert (Hso12 := stores_only_trans _ _ _ Hso1 Hso2).
  destruct e2 as [e2|].
  { destruct Hk as [_ ->]. split_and!; [done| |].
    - intros. rewrite Hn2. auto.
    - intros. rewrite Hg2 by done. auto. }
  destruct Hk as (e3 & db3 & Hc & Hk).
  pose proof (incValidAtxCounter_stores_only _ _ _ _ Hc) as [Hso3 Hn3].
  pose proof (λ k, incValidAtxCounter_Get _ _ _ _ k Hc) as Hg3.
  assert (Hso13 := stores_only_trans _ _ _ Hso12 Hso3).
  destruct e3 as [e3|].
  { destruct Hk as [_ ->]. split_and!; [done| |].
    - intros. rewrite Hn3, Hn2. auto.
    - intros. rewrite Hg3, Hg2 by done. auto. }
  destruct Hk as (e4 & db4 & Hn & _ & ->).
  pose proof (addAtxToNodeId_stores_only _ _ _ _ _ Hn) as [Hso4 Hn4].
  pose proof (λ k, addAtxToNodeId_Get _ _ _ _ _ k Hn) as Hg4.
  rewrite Hk1 in Hg4.
  split_and!; [by eapply stores_only_trans| |].
  - intros. rewrite Hn4, Hn3, Hn2. auto.
  - intros. rewrite Hg4, Hg3, Hg2 by done. auto.
Qed.
End writer_frames.

(** ** What [StoreAtx] leaves alone *)

Section writer_extras.
Context `{TypesLib} `{NipstCodec}.

Lemma GetNodeLastAtxId_ext db db' n :
  DB_Get (atxs db') (Key n) = DB_Get (atxs db) (Key n) →
  GetNodeLastAtxId db' n = GetNodeLastAtxId db n.
Proof. unfold GetNodeLastAtxId, getNodeIdKey. by intros ->. Qed.

Lemma ContextuallyValidateAtx_ext db db' b :
  GetNodeLastAtxId db' (NodeId_ b) = GetNodeLastAtxId db (NodeId_ b) →
  ContextuallyValidateAtx db' b = ContextuallyValidateAtx db b.
Proof. unfold ContextuallyValidateAtx. by intros ->. Qed.

Lemma ActiveSetSize_ext db db' e :
  DB_Get (atxs db') (epochCounterKey e) = DB_Get (atxs db) (epochCounterKey e) →
  ActiveSetSize db' e = ActiveSetSize db e.
Proof. unfold ActiveSetSize. by intros ->. Qed.

Lemma reservedKey_not_node (k : Bytes) n :
  ¬ reservedKey (Key n) → reservedKey k → k ≠ Key n.
Proof. by intros Hn Hk ->. Qed.

Lemma reservedKey_posAtxKey : reservedKey posAtxKey.
Proof. by left. Qed.

(** X1.  Whatever it returns, [StoreAtx ech a] changes nothing outside the
    two stores, and in the stores nothing that belongs to another epoch,
    another node or another ATX: the counters of the other epochs, the
    last-ATX pointers of the other nodes, and the bodies and NIPSTs stored
    under other ids read as before. *)
Theorem StoreAtx_leaves_others_alone
    (ech : EpochId) (a : ActivationTx) (db : ActivationDb)
    (r : ActivationTx * error) (db' : ActivationDb) :
  id_is_hash → id_ignores_nipst →
  ¬ reservedKey (Key (NodeId_ a)) → is_uint64 ech →
  StoreAtx ech a db = Ret r db' →
  stores_only db db'
  ∧ (∀ e, is_uint64 e → e ≠ ech → ActiveSetSize db' e = ActiveSetSize db e)
  ∧ (∀ m, Key m ≠ Key (NodeId_ a) → ¬ reservedKey (Key m) →
          GetNodeLastAtxId db' m = GetNodeLastAtxId db m)
  ∧ (∀ id : AtxId, String.length id = 32%nat → id ≠ Id_of a →
          getAtxUnlocked db' id = getAtxUnlocked db id)
  ∧ (∀ id, id ≠ Id_of a → GetNipst db' id = GetNipst db id).
Proof.
  intros Hlen Hnip Hnode Hech Hrun.
  destruct (StoreAtx_frame _ _ _ _ _ Hnip Hrun) as (Hso & Hn & Ha).
  split_and!; [done| | | |].
  - intros e He Hne. apply ActiveSetSize_ext, Ha.
    + apply not_eq_sym, hash_not_counterKey, Hlen.
    + apply counterKey_not_posAtxKey.
    + intros Heq. by apply epochCounterKey_inj in Heq.
    + apply reservedKey_not_node; [done|apply reservedKey_counterKey].
  - intros m Hm Hres. apply GetNodeLastAtxId_ext, Ha; [| | |done].
    + intros Heq. apply Hres, reservedKey_hash. rewrite Heq. apply Hlen.
    + intros Heq. apply Hres. rewrite Heq. apply reservedKey_posAtxKey.
    + intros Heq. apply Hres. rewrite Heq. apply reservedKey_counterKey.
  - intros id Hid Hne. unfold getAtxUnlocked, AtxId_Bytes. rewrite Ha; [done|done| | |].
    + by apply hash_not_posAtxKey.
    + by apply hash_not_counterKey.
    + apply reservedKey_not_node; [done|by apply reservedKey_hash].
  - intros id Hid. unfold GetNipst, AtxId_Bytes. by rewrite Hn.
Qed.

Lemma addAtxToNodeId_error n a db e db' :
  addAtxToNodeId n a db = Ret (Some e) db' → db' = db.
Proof.
  unfold addAtxToNodeId. intros (e' & db1 & Hp & Hk)%bind_Ret_inv.
  apply atxs_Put_inv in Hp as [(-> & _ & ->)|(-> & _ & ->)];
    unfold ret in Hk; [by injection Hk as _ <-|done].
Qed.

(** The reads of the ATX store that a failing [StoreAtx] leaves as they
    were: every key but the id, the record key and the counter key. *)
Lemma StoreAtx_error_Get ech a db a' e db' k :
  id_ignores_nipst →
  StoreAtx ech a db = Ret (a', Some e) db' →
  k ≠ Id_of a → k ≠ posAtxKey → k ≠ epochCounterKey ech →
  DB_Get (atxs db') k = DB_Get (atxs db) k.
Proof.
  intros Hnip [(_ & [=] & _)|(_ & a1 & e1 & db1 & Hs & Hk)]%StoreAtx_cases Hk1 Hk2 Hk3.
  pose proof (storeAtxUnlocked_Get _ _ _ _ k Hs) as Hg1.
  rewrite Hnip in Hg1. specialize (Hg1 Hk1).
  destruct e1 as [e1|]; [by destruct Hk as [_ ->]|].
  destruct Hk as (e2 & db2 & Hp & Hk).
  apply updatePosAtxIfNeeded_stores_only in Hp as (_ & _ & Hg2).
  specialize (Hg2 k Hk2).
  destruct e2 as [e2|]; [destruct Hk as [_ ->]; congruence|].
  destruct Hk as (e3 & db3 & Hc & Hk).
  pose proof (incValidAtxCounter_Get _ _ _ _ k Hc Hk3) as Hg3.
  destruct e3 as [e3|]; [destruct Hk as [_ ->]; congruence|].
  destruct Hk as (e4 & db4 & Hn & [= _ <-] & ->).
  apply addAtxToNodeId_error in Hn as ->. congruence.
Qed.

(** X2.  A [StoreAtx] that returns an error, for an ATX whose node key is
    no reserved key of the ATX store (not [posAtxKey], not 16 or 32 bytes
    long) and with ids that are 32-byte hashes, has not moved the last-ATX
    pointer of the node: [GetNodeLastAtxId] and the verdict of
    [ContextuallyValidateAtx] on every ATX of that node are as before the
    call. *)
Theorem StoreAtx_error_keeps_lastAtx
    (ech : EpochId) (a a' : ActivationTx) (e : Error) (db db' : ActivationDb) :
  id_is_hash → id_ignores_nipst → ¬ reservedKey (Key (NodeId_ a)) →
  StoreAtx ech a db = Ret (a', Some e) db' →
  GetNodeLastAtxId db' (NodeId_ a) = GetNodeLastAtxId db (NodeId_ a)
  ∧ ∀ b, NodeId_ b = NodeId_ a →
         ContextuallyValidateAtx db' b = ContextuallyValidateAtx db b.
Proof.
  intros Hlen Hnip Hnode Hrun.
  assert (Hg : GetNodeLastAtxId db' (NodeId_ a) = GetNodeLastAtxId db (NodeId_ a)).
  { apply GetNodeLastAtxId_ext. eapply StoreAtx_error_Get; [done..| | |].
    - intros Heq. apply Hnode, reservedKey_hash. rewrite Heq. apply Hlen.
    - intros Heq. apply Hnode. rewrite Heq. apply reservedKey_posAtxKey.
    - intros Heq. apply Hnode. rewrite Heq. apply reservedKey_counterKey. }
  split; [done|]. intros b Hb. apply ContextuallyValidateAtx_ext. by rewrite Hb.
Qed.

(** X3.  [StoreAtx] does not undo its writes.  On a store that can read the
    id key of the ATX (the read does not fail with an I/O error), with ids
    that are 32-byte hashes and ignore the NIPST and a body that is not
    encoded as the empty byte string: when [StoreAtx] fails after the body
    was written (a failure of the record, of the counter or of the pointer),
    the ATX counts as stored: every later [StoreAtx] of it returns [nil] at
    once and changes nothing, so the steps that failed are never made up. *)
Theorem StoreAtx_failure_then_retry
    (ech : EpochId) (a a1 : ActivationTx) (e : Error) (db db1 : ActivationDb) :
  id_is_hash → id_ignores_nipst →
  (∀ b, AtxAsBytes (set_Nipst a None) = Ok b → b ≠ EmptyString) →
  Id_of a ∉ readFaults (atxs db) →
  (∃ a0 db0, storeAtxUnlocked a db = Ret (a0, None) db0) →
  StoreAtx ech a db = Ret (a1, Some e) db1 →
  already_stored db1 a
  ∧ ∀ ech', StoreAtx ech' a db1 = Ret (a, None) db1.
Proof.
  intros Hlen Hnip Hne Hrf (a0 & db0 & Hs0) Hrun.
  assert (Hst : already_stored db1 a); [|split; [done|]; intros; by apply StoreAtx_already_stored].
  apply StoreAtx_cases in Hrun as [(_ & [=] & _)|(_ & a1' & e1 & db1' & Hs & Hk)].
  rewrite Hs0 in Hs. injection Hs as <- <- <-.
  apply storeAtxUnlocked_inv in Hs0 as (bn & ba & _ & Hba & _ & _ & -> & ->).
  rewrite Hnip in *.
  set (dbS := with_atxs _ _) in *.
  assert (Hg0 : DB_Get (atxs dbS) (Id_of a) = Ok ba).
  { apply DB_Get_Ok. simpl. split; [done|]. apply lookup_insert_eq. }
  assert (Hfin : DB_Get (atxs db1) (Id_of a) = Ok ba).
  { destruct Hk as (e2 & db2 & Hp & Hk).
    apply updatePosAtxIfNeeded_stores_only in Hp as (_ & _ & Hg2).
    specialize (Hg2 (Id_of a) (hash_not_posAtxKey _ (Hlen a))).
    destruct e2 as [e2|]; [destruct Hk as [_ ->]; congruence|].
    destruct Hk as (e3 & db3 & Hc & Hk).
    pose proof (incValidAtxCounter_Get _ _ _ _ (Id_of a) Hc
                  (hash_not_counterKey _ _ (Hlen a))) as Hg3.
    destruct e3 as [e3|]; [destruct Hk as [_ ->]; congruence|].
    destruct Hk as (e4 & db4 & Hn & [= _ <-] & ->).
    apply addAtxToNodeId_error in Hn as ->. congruence. }
  specialize (Hne ba Hba). destruct ba as [|c s]; [done|].
  exists c, s. exact Hfin.
Qed.
End writer_extras.

(** The witnesses: [ex_atxD] of a second node is stored on the database that
    holds [ex_atxA], and [ex_atxA] on a database that cannot write the
    positioning record. *)
Lemma StoreAtx_leaves_others_alone_witness :
  let db' := state_after (StoreAtx (H:=exLib) 1 ex_atxD) ex_dbA in
  stores_only ex_dbA db'
  ∧ (∀ e, is_uint64 e → e ≠ 1 → ActiveSetSize db' e = ActiveSetSize ex_dbA e)
  ∧ (∀ m, Key m ≠ Key (NodeId_ ex_atxD) → ¬ reservedKey (Key m) →
          GetNodeLastAtxId (H:=exLib) db' m = GetNodeLastAtxId (H:=exLib) ex_dbA m)
  ∧ (∀ id : AtxId, String.length id = 32%nat → id ≠ ex_Id_of ex_atxD →
          getAtxUnlocked (H:=exLib) db' id = getAtxUnlocked (H:=exLib) ex_dbA id)
  ∧ (∀ id, id ≠ ex_Id_of ex_atxD →
          GetNipst (H0:=exNipst) db' id = GetNipst (H0:=exNipst) ex_dbA id).
Proof.
  intros db'.
  apply (StoreAtx_leaves_others_alone (H:=exLib) (H0:=exNipst) 1 ex_atxD ex_dbA
           (set_Nipst ex_atxD None, None) db'
           exLib_id_is_hash exLib_id_ignores_nipst).
  - intros [Hk|[Hk|Hk]]; vm_compute in Hk; discriminate.
  - unfold is_uint64. lia.
  - apply run_ret. by vm_compute.
Defined.

Lemma StoreAtx_error_keeps_lastAtx_witness :
  let db' := state_after (StoreAtx (H:=exLib) 0 ex_atxA) ex_dbNoPos in
  StoreAtx (H:=exLib) 0 ex_atxA ex_dbNoPos
  = Ret (set_Nipst ex_atxA None,
         Some (Errorf "failed to store posAtx ID and layer: %v")) db'
  ∧ GetNodeLastAtxId (H:=exLib) db' ex_node = GetNodeLastAtxId (H:=exLib) ex_dbNoPos ex_node
  ∧ ∀ b, NodeId_ b = ex_node →
         ContextuallyValidateAtx (H:=exLib) db' b
         = ContextuallyValidateAtx (H:=exLib) ex_dbNoPos b.
Proof.
  intros db'.
  assert (Hrun : StoreAtx (H:=exLib) 0 ex_atxA ex_dbNoPos
                 = Ret (set_Nipst ex_atxA None,
                        Some (Errorf "failed to store posAtx ID and layer: %v")) db').
  { apply run_ret. by vm_compute. }
  split; [exact Hrun|].
  exact (StoreAtx_error_keeps_lastAtx (H:=exLib) 0 ex_atxA _ _ ex_dbNoPos db'
           exLib_id_is_hash exLib_id_ignores_nipst ex_node_key_not_reserved Hrun).
Defined.

Lemma StoreAtx_failure_then_retry_witness :
  let db1 := state_after (StoreAtx (H:=exLib) 0 ex_atxA) ex_dbNoPos in
  already_stored (H:=exLib) db1 ex_atxA
  ∧ ∀ ech', StoreAtx (H:=exLib) ech' ex_atxA db1 = Ret (ex_atxA, None) db1.
Proof.
  intros db1.
  apply (StoreAtx_failure_then_retry (H:=exLib) 0 ex_atxA (set_Nipst ex_atxA None)
           (Errorf "failed to store posAtx ID and layer: %v") ex_dbNoPos db1
           exLib_id_is_hash exLib_id_ignores_nipst).
  - intros b [= <-]. done.
  - simpl. apply not_elem_of_empty.
  - eexists _, _. apply run_ret. by vm_compute.
  - apply run_ret. by vm_compute.
Defined.

(** ** What a successful [StoreAtx] makes readable *)

Section writer_reads.
Context `{TypesLib} `{NipstCodec}.

(** X4.  After a [StoreAtx] that stored a new ATX [a], the last ATX of its
    node is [a], whatever its sequence number or layer; hence an ATX of the
    same node is contextually valid exactly if it names [a] as its previous
    ATX. *)
Theorem StoreAtx_then_ContextuallyValidateAtx
    (ech : EpochId) (a a' : ActivationTx) (db db' : ActivationDb) :
  id_is_hash → id_ignores_nipst → hash_of_32_bytes →
  ¬ already_stored db a →
  Key (NodeId_ a) ∉ readFaults (atxs db) →
  Id_of a ≠ EmptyAtxId →
  StoreAtx ech a db = Ret (a', None) db' →
  GetNodeLastAtxId db' (NodeId_ a) = (Id_of a, None)
  ∧ ∀ b, NodeId_ b = NodeId_ a →
         (ContextuallyValidateAtx db' b = None ↔ PrevATXId b = Id_of a).
Proof.
  intros Hlen Hnip Hhash Hnew Hrf Hne
    [(? & _)|(_ & -> & bn & ba & d2 & cnt & _ & _ & Hp & _ & ->)]%StoreAtx_inv;
    [done|].
  assert (Hg : GetNodeLastAtxId
                 (with_atxs (with_nipsts db (DB_write (nipsts db) (Id_of a) bn))
                    (DB_write (DB_write d2 (epochCounterKey ech) (Uint32ToBytes cnt))
                       (Key (NodeId_ (set_Nipst a None))) (Id_of (set_Nipst a None))))
                 (NodeId_ a) = (Id_of a, None)).
  { unfold GetNodeLastAtxId, getNodeIdKey. simpl. rewrite DB_Get_write. simpl.
    rewrite (posAtx_step_readFaults _ _ _ Hp). simpl.
    rewrite decide_False by done. rewrite decide_True by done.
    by rewrite Hnip, (Hhash _ (Hlen a)). }
  split; [exact Hg|]. intros b Hb. unfold ContextuallyValidateAtx.
  rewrite Hb, Hg. destruct (decide (PrevATXId b ≠ EmptyAtxId)) as [Hp'|Hp'].
  - destruct (decide (Id_of a ≠ PrevATXId b)) as [Hd|Hd%dec_stable];
      split; try done; congruence.
  - split; [done|]. intros Heq. destruct Hp'. congruence.
Qed.

(** X5.  [StoreAtx] stores an ATX in two parts that can both be read back:
    the body, under the id in the ATX store, decodes to the ATX without its
    NIPST, and [GetNipst] returns the NIPST from the NIPST store.  The ATX
    object the caller holds has lost its NIPST. *)
Theorem StoreAtx_round_trip
    (ech : EpochId) (a a' : ActivationTx) (n : NIPST) (db db' : ActivationDb) :
  id_is_hash → id_ignores_nipst → atx_codec_sound → nipst_codec_sound →
  Nipst a = Some n →
  ¬ already_stored db a →
  Key (NodeId_ a) ≠ Id_of a →
  Id_of a ∉ readFaults (atxs db) → Id_of a ∉ readFaults (nipsts db) →
  StoreAtx ech a db = Ret (a', None) db' →
  a' = set_Nipst a None
  ∧ getAtxUnlocked db' (Id_of a) = (Some (set_Nipst a None), None)
  ∧ GetNipst db' (Id_of a) = (Some n, None).
Proof.
  intros Hlen Hnip Hatx Hnc Hn Hnew Hkey Hrf Hrfn
    [(? & _)|(_ & -> & bn & ba & d2 & cnt & Hbn & Hba & Hp & _ & ->)]%StoreAtx_inv;
    [done|].
  split; [done|]. rewrite Hnip in *. split.
  - unfold getAtxUnlocked, AtxId_Bytes. simpl.
    rewrite DB_Get_write_ne by done.
    rewrite DB_Get_write_ne by (apply not_eq_sym, hash_not_counterKey, Hlen).
    rewrite (posAtx_step_Get _ _ _ _ Hp (hash_not_posAtxKey _ (Hlen a))). simpl.
    rewrite DB_Get_write. rewrite decide_False by done. rewrite decide_True by done.
    by rewrite (Hatx _ _ Hba).
  - unfold GetNipst, AtxId_Bytes. simpl.
    rewrite DB_Get_write. rewrite decide_False by done. rewrite decide_True by done.
    rewrite Hn in Hbn. by rewrite (Hnc _ _ Hbn).
Qed.

(** X6.  [GetPosAtxId] after a [StoreAtx] that stored a new ATX [a] whose
    node key is not [posAtxKey] (with ids that are 32-byte hashes and ignore
    the NIPST, a record codec that round-trips, and a record that was absent
    or named an ATX [m]).  If the record named an ATX of the same or a
    higher layer, the answers are as before.  Otherwise the record now names
    [a]: [GetPosAtxId] returns its id for the publication epoch of [a], and
    fails for every other epoch, also for one whose positioning ATX it
    returned before. *)
Theorem StoreAtx_then_GetPosAtxId
    (ech : EpochId) (a a' : ActivationTx) (db db' : ActivationDb)
    (cur : option ActivationTx) (e : EpochId) :
  id_is_hash → id_ignores_nipst → posAtx_codec_sound →
  Key (NodeId_ a) ≠ posAtxKey →
  posAtx_is db cur → ¬ already_stored db a →
  StoreAtx ech a db = Ret (a', None) db' →
  GetPosAtxId db' e =
    match cur with
    | Some m =>
        if decide (PubLayerIdx a ≤ PubLayerIdx m) then GetPosAtxId db e
        else posAtx_answer (LayersPerEpoch db) a e
    | None => posAtx_answer (LayersPerEpoch db) a e
    end.
Proof.
  intros Hlen Hnip Hcodec Hkey Hcur Hnew Hrun.
  pose proof (StoreAtx_ok_posAtx _ _ _ _ _ _ Hlen Hnip Hcodec Hkey Hcur Hrun Hnew) as Hpos.
  pose proof (StoreAtx_ok_LayersPerEpoch _ _ _ _ _ Hrun) as HL.
  assert (Hnewrec : posAtx_is db' (Some a) →
                    GetPosAtxId db' e = posAtx_answer (LayersPerEpoch db) a e).
  { unfold posAtx_is, GetPosAtxId, posAtx_answer. intros ->. simpl. rewrite HL.
    destruct (decide (_ ≠ e)), (decide (_ = e)); done. }
  destruct cur as [m|]; [|by apply Hnewrec].
  destruct (decide (PubLayerIdx a ≤ PubLayerIdx m)) as [Hle|Hgt]; [|by apply Hnewrec].
  unfold posAtx_is in *. unfold GetPosAtxId. by rewrite Hpos, Hcur, HL.
Qed.
End writer_reads.

(** ** The epoch counters *)

Section counters.
Context `{TypesLib}.

(** X7.  [incValidAtxCounter] on a counter that reads [n]: the counter of
    the epoch then reads [n + 1] on [uint32] (a counter of [2 ^ 32 - 1]
    wraps to 0, without an error), and the counters of all other epochs are
    as before. *)
Theorem incValidAtxCounter_increments
    (ech : EpochId) (n : Z) (db : ActivationDb) :
  is_uint64 ech →
  ActiveSetSize db ech = Some (n, None) →
  epochCounterKey ech ∉ writeFaults (atxs db) →
  ∃ db',
    incValidAtxCounter ech db = Ret None db'
    ∧ ActiveSetSize db' ech = Some (wrap32 (n + 1), None)
    ∧ (n = 2 ^ 32 - 1 → ActiveSetSize db' ech = Some (0, None))
    ∧ ∀ e, is_uint64 e → e ≠ ech → ActiveSetSize db' e = ActiveSetSize db e.
Proof.
  intros Hech Hsz Hwf. unfold ActiveSetSize in Hsz.
  destruct (DB_Get (atxs db) (epochCounterKey ech)) as [v|] eqn:Hg; [|done].
  destruct (BytesToUint32 v) as [n'|] eqn:Hv; [|done].
  injection Hsz as ->.
  assert (Hrf : epochCounterKey ech ∉ readFaults (atxs db)).
  { by apply DB_Get_Ok in Hg as [? _]. }
  exists (with_atxs db (DB_write (atxs db) (epochCounterKey ech)
                          (Uint32ToBytes (wrap32 (n + 1))))).
  assert (Hnew : ActiveSetSize
            (with_atxs db (DB_write (atxs db) (epochCounterKey ech)
                             (Uint32ToBytes (wrap32 (n + 1))))) ech
          = Some (wrap32 (n + 1), None)).
  { unfold ActiveSetSize. simpl. rewrite DB_Get_write.
    rewrite decide_False by done. rewrite decide_True by done.
    by rewrite BytesToUint32_Uint32ToBytes, wrap32_idemp. }
  split_and!.
  - unfold incValidAtxCounter, bind, atxs_Get, gets. rewrite Hg, Hv.
    by apply atxs_Put_ok.
  - exact Hnew.
  - intros ->. rewrite Hnew. done.
  - intros e He Hne. apply ActiveSetSize_ext. simpl. apply DB_Get_write_ne.
    intros Heq. by apply epochCounterKey_inj in Heq.
Qed.

(** X8.  The counter keys are apart from everything else in the ATX store:
    two epochs have the same key only if they are the same epoch, and a
    counter key is neither the key of the positioning record nor the id of
    an ATX. *)
Theorem epochCounterKey_separation (e1 e2 : EpochId) :
  is_uint64 e1 → is_uint64 e2 →
  (epochCounterKey e1 = epochCounterKey e2 ↔ e1 = e2)
  ∧ epochCounterKey e1 ≠ posAtxKey
  ∧ (id_is_hash → ∀ a, epochCounterKey e1 ≠ AtxId_Bytes (Id_of a)).
Proof.
  intros H1 H2. split_and!.
  - split; [by apply epochCounterKey_inj|by intros ->].
  - apply counterKey_not_posAtxKey.
  - intros Hlen a. apply not_eq_sym, hash_not_counterKey, Hlen.
Qed.
End counters.

Lemma exNipst_codec_sound : @nipst_codec_sound exLib exNipst.
Proof.
  intros n b Hb. simpl in *.
  by apply (ex_decode_encode (A:=option string)) in Hb as [-> _].
Qed.

Lemma ex_atxA_not_stored : ¬ already_stored (H:=exLib) ex_db ex_atxA.
Proof. intros (c & s & Hc). vm_compute in Hc. discriminate. Qed.

Lemma ex_atxD_not_stored : ¬ already_stored (H:=exLib) ex_dbA ex_atxD.
Proof. intros (c & s & Hc). vm_compute in Hc. discriminate. Qed.

Lemma StoreAtx_then_ContextuallyValidateAtx_witness :
  let db' := state_after (StoreAtx (H:=exLib) 0 ex_atxA) ex_db in
  GetNodeLastAtxId (H:=exLib) db' ex_node = (ex_Id_of ex_atxA, None)
  ∧ ∀ b, NodeId_ b = ex_node →
         (ContextuallyValidateAtx (H:=exLib) db' b = None
          ↔ PrevATXId b = ex_Id_of ex_atxA).
Proof.
  intros db'.
  apply (StoreAtx_then_ContextuallyValidateAtx (H:=exLib) 0 ex_atxA
           (set_Nipst ex_atxA None) ex_db db'
           exLib_id_is_hash exLib_id_ignores_nipst exLib_hash_of_32_bytes
           ex_atxA_not_stored).
  - simpl. apply not_elem_of_empty.
  - intros Heq. vm_compute in Heq. discriminate.
  - apply run_ret. by vm_compute.
Defined.

Lemma StoreAtx_round_trip_witness :
  let db' := state_after (StoreAtx (H:=exLib) 0 ex_atxA) ex_db in
  set_Nipst ex_atxA None = set_Nipst ex_atxA None
  ∧ getAtxUnlocked (H:=exLib) db' (ex_Id_of ex_atxA) = (Some (set_Nipst ex_atxA None), None)
  ∧ GetNipst (H0:=exNipst) db' (ex_Id_of ex_atxA) = (Some "proof A", None).
Proof.
  intros db'.
  apply (StoreAtx_round_trip (H:=exLib) (H0:=exNipst) 0 ex_atxA
           (set_Nipst ex_atxA None) "proof A" ex_db db'
           exLib_id_is_hash exLib_id_ignores_nipst exLib_atx_codec_sound
           exNipst_codec_sound eq_refl ex_atxA_not_stored).
  - intros Heq. vm_compute in Heq. discriminate.
  - simpl. apply not_elem_of_empty.
  - simpl. apply not_elem_of_empty.
  - apply run_ret. by vm_compute.
Defined.

Lemma StoreAtx_then_GetPosAtxId_witness :
  let db' := state_after (StoreAtx (H:=exLib) 1 ex_atxD) ex_dbA in
  GetPosAtxId (H:=exLib) ex_dbA 0 = (ex_Id_of ex_atxA, None)
  ∧ GetPosAtxId (H:=exLib) db' 1 = (ex_Id_of ex_atxD, None)
  ∧ GetPosAtxId (H:=exLib) db' 0 = posAtx_answer (H:=exLib) 4 ex_atxD 0.
Proof.
  intros db'.
  assert (Hall : ∀ e, GetPosAtxId (H:=exLib) db' e = posAtx_answer (H:=exLib) 4 ex_atxD e).
  { intros e.
    refine (StoreAtx_then_GetPosAtxId (H:=exLib) 1 ex_atxD
              (set_Nipst ex_atxD None) ex_dbA db' (Some ex_atxA) e
              exLib_id_is_hash exLib_id_ignores_nipst exLib_posAtx_codec_sound
              _ _ ex_atxD_not_stored _).
    - intros Heq. vm_compute in Heq. discriminate.
    - by vm_compute.
    - apply run_ret. by vm_compute. }
  split; [by vm_compute|]. split; [|apply Hall]. rewrite Hall. by vm_compute.
Defined.

(** The witness: a counter that holds [2 ^ 32 - 1] wraps to 0. *)
Lemma incValidAtxCounter_increments_witness :
  ActiveSetSize ex_dbFull 0 = Some (2 ^ 32 - 1, None)
  ∧ ∃ db',
      incValidAtxCounter 0 ex_dbFull = Ret None db'
      ∧ ActiveSetSize db' 0 = Some (0, None)
      ∧ ∀ e, is_uint64 e → e ≠ 0 → ActiveSetSize db' e = ActiveSetSize ex_dbFull e.
Proof.
  assert (Hsz : ActiveSetSize ex_dbFull 0 = Some (2 ^ 32 - 1, None)) by (by vm_compute).
  split; [exact Hsz|].
  destruct (incValidAtxCounter_increments 0 (2 ^ 32 - 1) ex_dbFull)
    as (db' & Hrun & _ & Hwrap & Hothers).
  - unfold is_uint64. lia.
  - exact Hsz.
  - by vm_compute.
  - exists db'. split; [exact Hrun|]. split; [by apply Hwrap|exact Hothers].
Defined.

Lemma epochCounterKey_separation_witness :
  (epochCounterKey 0 = epochCounterKey 1 ↔ 0 = 1)
  ∧ epochCounterKey 0 ≠ posAtxKey
  ∧ (@id_is_hash exLib → ∀ a, epochCounterKey 0 ≠ AtxId_Bytes (ex_Id_of a)).
Proof.
  apply (epochCounterKey_separation (H:=exLib) 0 1); unfold is_uint64; lia.
Defined.

(** ** Reading ATXs *)

Section reading.
Context `{TypesLib}.

Lemma stored_atx_getAtxUnlocked db id :
  id ≠ EmptyAtxId → stored_atx (atxs db) id = (getAtxUnlocked db id).1.
Proof.
  intros Hid. unfold stored_atx, getAtxUnlocked. rewrite decide_False by done.
  destruct (DB_Get _ _); [|done]. by destruct (BytesAsAtx _).
Qed.

(** X9.  [GetAtx] is the store read [getAtxUnlocked] behind a cache: as long
    as every cache entry is what the store holds under its id, [GetAtx]
    returns the ATX and the error that the read of the store returns, changes
    nothing but the caches and keeps the cache in that state.  The empty id
    is refused before any lookup, also when the store holds a value under
    it. *)
Theorem GetAtx_reads_through_cache (id : AtxId) (db : ActivationDb) :
  GetAtx EmptyAtxId db = Ret (None, Some (Errorf "trying to fetch empty atx id")) db
  ∧ (cache_coherent db → id ≠ EmptyAtxId →
     ∃ db', GetAtx id db = Ret (getAtxUnlocked db id) db'
            ∧ caches_only db db' ∧ cache_coherent db').
Proof.
  split; [done|]. intros Hco Hid.
  unfold GetAtx, getAtxUnlocked.
  unfold bind, atxCache_Get, atxs_Get, atxCache_Add, gets, ret.
  rewrite decide_False by done.
  destruct (lru_Get (atxCache db) id) as [hit c] eqn:Hget.
  pose proof (lru_Get_result (atxCache db) id) as Hres. rewrite Hget in Hres.
  simpl in Hres.
  assert (Hco1 : cache_coherent (with_atxCache db c)).
  { intros k v Hk. simpl in *. apply Hco. by eapply lru_Get_entries. }
  destruct hit as [a|].
  { symmetry in Hres. apply lru_find_Some, Hco in Hres.
    unfold stored_atx in Hres. rewrite decide_False in Hres by done.
    destruct (DB_Get (atxs db) (AtxId_Bytes id)) as [b|]; [|done].
    destruct (BytesAsAtx b); [|done]. injection Hres as ->.
    eexists. split; [done|]. split; [apply caches_only_atxCache|done]. }
  simpl. destruct (DB_Get (atxs db) (AtxId_Bytes id)) as [b|e] eqn:Hdb.
  2:{ eexists. split; [done|]. split; [apply caches_only_atxCache|done]. }
  destruct (BytesAsAtx b) as [a|e] eqn:Hdec.
  2:{ eexists. split; [done|]. split; [apply caches_only_atxCache|done]. }
  eexists. split; [done|]. split; [by unfold caches_only|].
  intros k v [[= -> ->]|Hk]%lru_Add_entries; simpl in *.
  - unfold stored_atx. rewrite decide_False by done. by rewrite Hdb, Hdec.
  - apply Hco. by eapply lru_Get_entries.
Qed.



End reading.

Lemma GetAtx_reads_through_cache_witness :
  GetAtx (H:=exLib) EmptyAtxId ex_dbA
    = Ret (None, Some (Errorf "trying to fetch empty atx id")) ex_dbA
  ∧ ∃ db', GetAtx (H:=exLib) (ex_Id_of ex_atxA) ex_dbA
           = Ret (getAtxUnlocked (H:=exLib) ex_dbA (ex_Id_of ex_atxA)) db'
           ∧ caches_only ex_dbA db' ∧ cache_coherent (H:=exLib) db'.
Proof.
  destruct (GetAtx_reads_through_cache (H:=exLib) (ex_Id_of ex_atxA) ex_dbA)
    as [Hempty Hread].
  split; [exact Hempty|]. apply Hread; [apply ex_dbA_cache_coherent|].
  intros Heq. vm_compute in Heq. discriminate.
Defined.


(** ** [ProcessAtx] and the identities *)

Section processing.
Context `{TypesLib}.






(** With a coherent cache, [IsIdentityActive] returns what the stores say. *)
Lemma IsIdentityActive_coherent edId layer db :
  cache_coherent db →
  ∃ db', IsIdentityActive edId layer db = Ret (identity_status db edId layer) db'
         ∧ caches_only db db' ∧ cache_coherent db'.
Proof.
  intros Hco. unfold IsIdentityActive, identity_status.
  unfold bind at 1, gets at 1.
  destruct (decide (GetEpoch layer (LayersPerEpoch db) = 0));
    [unfold ret; eauto using caches_only_refl|].
  unfold bind at 1, gets at 1, GetIdentity.
  destruct (ids db !! edId) as [nodeId|];
    [|unfold ret; eauto using caches_only_refl].
  unfold bind at 1, gets at 1.
  destruct (GetNodeLastAtxId db nodeId) as [last [e|]];
    [unfold ret; eauto using caches_only_refl|].
  unfold bind at 1.
  destruct (GetAtx_coherent last db Hco) as (e & db1 & Hg & Hiff & [Hc _] & Hco1).
  rewrite Hg. destruct (stored_atx (atxs db) last) as [x|] eqn:Hx.
  2:{ destruct e; unfold ret; eauto. }
  assert (e = None) as -> by (apply Hiff; eauto).
  destruct (decide (TargetEpoch x (LayersPerEpoch db) < _)); [unfold ret; eauto|].
  destruct (decide (TargetEpoch x (LayersPerEpoch db) > _)); [|unfold ret; eauto].
  destruct (decide (PrevATXId x = EmptyAtxId)) as [Hp|Hp].
  { rewrite Hp. unfold stored_atx at 1. rewrite decide_True by done.
    unfold ret; eauto. }
  unfold bind at 1.
  destruct (GetAtx_coherent (PrevATXId x) db1 Hco1)
    as (e & db2 & Hg2 & Hiff2 & [Hc2 _] & Hco2).
  rewrite Hg2. pose proof Hc as (Ha & _). rewrite Ha in *.
  assert (Hc12 := caches_only_trans _ _ _ Hc Hc2).
  destruct (stored_atx (atxs db) (PrevATXId x)) as [p|] eqn:Hpx.
  2:{ destruct e; unfold ret; eauto. }
  assert (e = None) as -> by (apply Hiff2; eauto).
  unfold ret; eauto.
Qed.
End processing.

Section identities.
Context `{TypesLib}.


(** What [IsIdentityActive] returns and when it returns an error, for every
    state of the cache. *)
Lemma IsIdentityActive_returns (edId : string) (layer : LayerID) (db : ActivationDb) :
  ∃ act id err db',
    IsIdentityActive edId layer db = Ret (act, id, err) db'
    ∧ caches_only db db'
    ∧ (∀ e, err = Some e ↔
         GetEpoch layer (LayersPerEpoch db) ≠ 0
         ∧ ∃ nodeId, ids db !! edId = Some nodeId
                     ∧ DB_Get (atxs db) (Key nodeId) = Err e)
    ∧ (err ≠ None → act = false ∧ id = EmptyAtxId).
Proof.
  unfold IsIdentityActive. unfold bind at 1, gets at 1.
  destruct (decide (GetEpoch layer (LayersPerEpoch db) = 0)) as [He|He].
  { unfold ret. do 4 eexists. split; [done|]. split; [apply caches_only_refl|].
    split; [|done]. intros e. split; [done|]. by intros [? _]. }
  unfold bind at 1, gets at 1, GetIdentity.
  destruct (ids db !! edId) as [nodeId|] eqn:Hid.
  2:{ unfold ret. do 4 eexists. split; [done|]. split; [apply caches_only_refl|].
      split; [|done]. intros e. split; [done|]. by intros (_ & ? & [=] & _). }
  unfold bind at 1, gets at 1. unfold GetNodeLastAtxId, getNodeIdKey.
  destruct (DB_Get (atxs db) (Key nodeId)) as [v|e0] eqn:Hv.
  2:{ unfold ret. do 4 eexists. split; [done|]. split; [apply caches_only_refl|].
      split; [|done]. intros e. split.
      - intros [= ->]. eauto.
      - intros (_ & n' & [= <-] & Hn'). congruence. }
  assert (Hnone : ∀ e : Error, None = Some e ↔
            GetEpoch layer (LayersPerEpoch db) ≠ 0
            ∧ ∃ nodeId0, Some nodeId = Some nodeId0
                         ∧ DB_Get (atxs db) (Key nodeId0) = Err e).
  { intros e. split; [done|]. intros (_ & n' & [= <-] & Hn'). congruence. }
  unfold bind at 1.
  destruct (GetAtx_Ret (BytesToHash v) db) as ([atx err] & db1 & Hg & Hc).
  rewrite Hg.
  assert (Hfalse : ∃ act id err0 db',
    ret (false, EmptyAtxId, None) db1 = Ret (act, id, err0) db'
    ∧ caches_only db db'
    ∧ (∀ e, err0 = Some e ↔
         GetEpoch layer (LayersPerEpoch db) ≠ 0
         ∧ ∃ nodeId0, Some nodeId = Some nodeId0
                      ∧ DB_Get (atxs db) (Key nodeId0) = Err e)
    ∧ (err0 ≠ None → act = false ∧ id = EmptyAtxId)).
  { unfold ret. do 4 eexists. split; [done|]. split; [done|]. split; done. }
  destruct err as [e|]; [destruct atx; exact Hfalse|].
  destruct atx as [x|]; [|exact Hfalse].
  destruct (decide (TargetEpoch x (LayersPerEpoch db) < _)); [exact Hfalse|].
  destruct (decide (TargetEpoch x (LayersPerEpoch db) > _)).
  2:{ unfold ret. do 4 eexists. split; [done|]. split; [done|]. split; done. }
  destruct (decide (PrevATXId x = EmptyAtxId)); [exact Hfalse|].
  unfold bind at 1.
  destruct (GetAtx_Ret (PrevATXId x) db1) as ([atx2 err2] & db2 & Hg2 & Hc2).
  rewrite Hg2. assert (Hc12 := caches_only_trans _ _ _ Hc Hc2).
  destruct err2 as [e|], atx2 as [p|]; unfold ret; do 4 eexists;
    (split; [done|]); (split; [done|]); split; done.
Qed.

(** X13.  With a positive number of layers per epoch, [IsIdentityActive]
    does not panic and writes to no store.  It returns an error in one case
    only: the epoch is not 0, the identity is known, and the read of the
    last-ATX pointer of its node fails; the error is the one of that read
    (also [ErrNotFound], for a known identity without an ATX), and the answer
    is then [false] with the empty id.  When the cache agrees with the store,
    the pointer is read, and the store holds no ATX that decodes under the id
    the pointer names, the answer is [false] with the empty id and without an
    error. *)
Theorem IsIdentityActive_errors
    (edId : string) (layer : LayerID) (db : ActivationDb) :
  0 < LayersPerEpoch db →
  ∃ act id err db',
    IsIdentityActive edId layer db = Ret (act, id, err) db'
    ∧ caches_only db db'
    ∧ (∀ e, err = Some e ↔
         GetEpoch layer (LayersPerEpoch db) ≠ 0
         ∧ ∃ nodeId, ids db !! edId = Some nodeId
                     ∧ DB_Get (atxs db) (Key nodeId) = Err e)
    ∧ (err ≠ None → act = false ∧ id = EmptyAtxId)
    ∧ (cache_coherent db → GetEpoch layer (LayersPerEpoch db) ≠ 0 →
       ∀ nodeId last,
         ids db !! edId = Some nodeId →
         GetNodeLastAtxId db nodeId = (last, None) →
         stored_atx (atxs db) last = None →
         (act, id, err) = (false, EmptyAtxId, None)).
Proof.
  intros _.
  destruct (IsIdentityActive_returns edId layer db)
    as (act & id & err & db' & Hrun & Hc & Herr & Hfalse).
  exists act, id, err, db'. split_and!; try done.
  intros Hco He nodeId last Hid Hlast Hst.
  destruct (IsIdentityActive_coherent edId layer db Hco) as (db'' & Hact & _).
  rewrite Hrun in Hact. injection Hact as -> _.
  unfold identity_status. rewrite decide_False by done.
  by rewrite Hid, Hlast, Hst.
Qed.

(** X14.  When [IsIdentityActive] says [true] (outside epoch 0, with a cache
    that agrees with the store): exactly if the last ATX of the node targets
    the epoch of the layer, or targets a later epoch and names a previous ATX
    that targets the epoch of the layer; the id returned is the id of that
    ATX. *)
Theorem IsIdentityActive_true_iff
    (edId : string) (layer : LayerID) (db : ActivationDb) (id : AtxId) :
  cache_coherent db →
  GetEpoch layer (LayersPerEpoch db) ≠ 0 →
  (∃ err db', IsIdentityActive edId layer db = Ret (true, id, err) db')
  ↔ ∃ atx, active_atx db edId (GetEpoch layer (LayersPerEpoch db)) atx
           ∧ id = Id_of atx.
Proof.
  intros Hco He.
  destruct (IsIdentityActive_coherent edId layer db Hco) as (db' & Hact & _).
  rewrite Hact. clear Hact Hco.
  assert (Hpure : (∃ err, identity_status db edId layer = (true, id, err))
                  ↔ ∃ atx, active_atx db edId (GetEpoch layer (LayersPerEpoch db)) atx
                           ∧ id = Id_of atx).
  { unfold identity_status, active_atx. rewrite decide_False by done.
    set (L := LayersPerEpoch db). set (e := GetEpoch layer L) in *.
    split.
    - intros [err Hr].
      destruct (ids db !! edId) as [nodeId|]; [|done].
      destruct (GetNodeLastAtxId db nodeId) as [last [e0|]] eqn:Hl; [done|].
      destruct (stored_atx (atxs db) last) as [x|] eqn:Hx; [|done].
      destruct (decide (TargetEpoch x L < e)); [done|].
      destruct (decide (TargetEpoch x L > e)).
      + destruct (stored_atx (atxs db) (PrevATXId x)) as [p|] eqn:Hp; [|done].
        injection Hr as Hb <- _. apply bool_decide_eq_true in Hb.
        exists p. split; [|done]. exists nodeId, last, x. split_and!; try done.
        right. done.
      + injection Hr as Hb <- _. apply bool_decide_eq_true in Hb.
        exists x. split; [|done]. exists nodeId, last, x. split_and!; try done.
        left. done.
    - intros (atx & (nodeId & last & x & -> & -> & -> & Hcase) & ->).
      exists None. destruct Hcase as [[HT ->]|(HT & -> & HTp)].
      + rewrite decide_False by lia. rewrite decide_False by lia.
        by rewrite bool_decide_eq_true_2.
      + rewrite decide_False by lia. rewrite decide_True by lia.
        by rewrite bool_decide_eq_true_2. }
  rewrite <- Hpure. split.
  - intros (err & db'' & [= Hr _]). eauto.
  - intros [err Hr]. exists err, db'. by rewrite Hr.
Qed.
End identities.








(** A known identity without an ATX: the read of the pointer reports
    [ErrNotFound], and so does [IsIdentityActive]. *)
Lemma IsIdentityActive_errors_witness :
  let db := with_ids ex_db (mkIdStore {[ Key ex_node := ex_node ]} ∅) in
  IsIdentityActive (H:=exLib) (Key ex_node) 7 db
    = Ret (false, EmptyAtxId, Some ErrNotFound) db
  ∧ ∃ act id err db',
      IsIdentityActive (H:=exLib) (Key ex_node) 7 db = Ret (act, id, err) db'
      ∧ caches_only db db'
      ∧ (∀ e, err = Some e ↔
           GetEpoch 7 (LayersPerEpoch db) ≠ 0
           ∧ ∃ nodeId, ids db !! Key ex_node = Some nodeId
                       ∧ DB_Get (atxs db) (Key nodeId) = Err e)
      ∧ (err ≠ None → act = false ∧ id = EmptyAtxId)
      ∧ (cache_coherent (H:=exLib) db → GetEpoch 7 (LayersPerEpoch db) ≠ 0 →
         ∀ nodeId last,
           ids db !! Key ex_node = Some nodeId →
           GetNodeLastAtxId (H:=exLib) db nodeId = (last, None) →
           stored_atx (H:=exLib) (atxs db) last = None →
           (act, id, err) = (false, EmptyAtxId, None)).
Proof.
  intros db. split; [by vm_compute|].
  apply (IsIdentityActive_errors (H:=exLib) (Key ex_node) 7 db).
  simpl. lia.
Defined.

Lemma IsIdentityActive_true_iff_witness :
  (∃ err db', IsIdentityActive (H:=exLib) (Key ex_node) 7 ex_dbA
              = Ret (true, ex_Id_of ex_atxA, err) db')
  ∧ ∃ atx, active_atx (H:=exLib) ex_dbA (Key ex_node) 1 atx
           ∧ ex_Id_of ex_atxA = ex_Id_of atx.
Proof.
  assert (Hrun : ∃ err db', IsIdentityActive (H:=exLib) (Key ex_node) 7 ex_dbA
                            = Ret (true, ex_Id_of ex_atxA, err) db').
  { eexists _, _. apply run_ret. by vm_compute. }
  split; [exact Hrun|].
  apply (IsIdentityActive_true_iff (H:=exLib) (Key ex_node) 7 ex_dbA (ex_Id_of ex_atxA)
           ex_dbA_cache_coherent); [by vm_compute|exact Hrun].
Defined.

(** ** The syntactic validation *)

Section validation.
Context `{TypesLib}.

Lemma validatePrevAtx_spec atx db :
  (∃ db', validatePrevAtx atx db = Ret None db') ↔ prevAtx_ok db atx.
Proof.
  unfold prevAtx_ok, validatePrevAtx. case_decide as Hp.
  - unfold bind at 1.
    destruct (GetAtx_Ret (PrevATXId atx) db) as ([oprev err] & db1 & Hg & _).
    rewrite Hg.
    destruct err as [e|]; [unfold ret; split; [by intros [? [=]]|]; naive_solver|].
    destruct oprev as [prev|]; [|unfold ret; split; [by intros [? [=]]|]; naive_solver].
    case_decide as Hk.
    { unfold ret. split; [by intros [? [=]]|].
      intros [(_ & prev' & db' & [= <- <-] & ? & ?)|[? _]]; done. }
    case_decide as Hs.
    { unfold ret. split; [by intros [? [=]]|].
      intros [(_ & prev' & db' & [= <- <-] & ? & ?)|[? _]]; done. }
    split; [|unfold ret; by eauto]. intros _. left. split; [done|].
    exists prev, db1. done.
  - case_decide as Hs.
    + unfold ret. split; [by intros [? [=]]|].
      intros [[? _]|[_ ?]]; done.
    + split; [|unfold ret; by eauto]. intros _. by right.
Qed.

(** X15.  The check of the previous ATX in [SyntacticallyValidateAtx].  It
    passes exactly if the ATX names no previous ATX and has sequence number
    0, or names one that is found, has the same node key and the sequence
    number one below (on [uint64], so that the successor of [2 ^ 64 - 1] is
    0); a validation that returns [nil] has passed it. *)
Theorem SyntacticallyValidateAtx_prev (atx : ActivationTx) (db : ActivationDb) :
  ((∃ db', validatePrevAtx atx db = Ret None db') ↔ prevAtx_ok db atx)
  ∧ (∀ dbF, SyntacticallyValidateAtx atx db = Ret None dbF → prevAtx_ok db atx)
  ∧ (∀ prev db', PrevATXId atx ≠ EmptyAtxId →
       GetAtx (PrevATXId atx) db = Ret (Some prev, None) db' →
       Key (NodeId_ prev) = Key (NodeId_ atx) →
       Sequence prev = 2 ^ 64 - 1 → Sequence atx = 0 →
       validatePrevAtx atx db = Ret None db').
Proof.
  split; [apply validatePrevAtx_spec|]. split.
  - intros dbF (db1 & _ & _ & H1 & _)%SyntacticallyValidateAtx_ok.
    apply validatePrevAtx_spec. eauto.
  - intros prev db' Hp Hg Hk Hs Hz. unfold validatePrevAtx.
    rewrite decide_True by done. unfold bind. rewrite Hg.
    rewrite decide_False by (by intros Hn; apply Hn).
    rewrite decide_False; [done|]. intros Hn. apply Hn. rewrite Hs, Hz. done.
Qed.

Lemma first_error_caches_only checks db err db' :
  Forall (λ c : M error, ∀ db err db', c db = Ret err db' → caches_only db db') checks →
  first_error checks db = Ret err db' → caches_only db db'.
Proof.
  intros Hall. revert db. induction Hall as [|c rest Hc _ IH]; intros db; simpl.
  - unfold ret. intros [= _ <-]. apply caches_only_refl.
  - intros (e & db1 & H1 & Hk)%bind_Ret_inv. apply Hc in H1.
    destruct e; [unfold ret in Hk; by injection Hk as _ <-|].
    eapply caches_only_trans; [done|]. by apply IH.
Qed.

Lemma validatePrevAtx_caches_only atx db err db' :
  validatePrevAtx atx db = Ret err db' → caches_only db db'.
Proof.
  unfold validatePrevAtx. case_decide.
  - intros ([p e] & db1 & Hg & Hk)%bind_Ret_inv. apply GetAtx_caches_only in Hg.
    destruct e, p; repeat case_decide; unfold ret in Hk; by injection Hk as _ <-.
  - case_decide; unfold ret; intros [= _ <-]; apply caches_only_refl.
Qed.

Lemma validatePositioningAtx_caches_only atx db err db' :
  validatePositioningAtx atx db = Ret err db' → caches_only db db'.
Proof.
  unfold validatePositioningAtx. case_decide.
  - intros ([p e] & db1 & Hg & Hk)%bind_Ret_inv. apply GetAtx_caches_only in Hg.
    destruct e, p; try (unfold ret in Hk; by injection Hk as _ <-).
    case_decide; [unfold ret in Hk; by injection Hk as _ <-|].
    unfold bind, gets in Hk. case_decide; unfold ret in Hk; by injection Hk as _ <-.
  - unfold bind, gets. destruct (negb _); unfold ret; intros [= _ <-];
      apply caches_only_refl.
Qed.

Lemma validateActiveSet_caches_only atx db err db' :
  validateActiveSet atx db = Ret err db' → caches_only db db'.
Proof.
  unfold validateActiveSet.
  intros ([v e] & db1 & Hc & Hk)%bind_Ret_inv.
  apply CalcActiveSetFromView_caches_only in Hc.
  unfold bind, gets in Hk. destruct (_ && _); [unfold ret in Hk; by injection Hk as _ <-|].
  case_decide; unfold ret in Hk; by injection Hk as _ <-.
Qed.

Lemma validateNipst_inv atx db err db' :
  validateNipst atx db = Ret err db' →
  db' = db
  ∧ (err = None → ∃ hash, ChallengeHash atx = Ok hash
                          ∧ nipstValidator db (Nipst atx) hash = None).
Proof.
  unfold validateNipst. destruct (ChallengeHash atx) as [hash|];
    [|unfold ret; by intros [= <- <-]].
  unfold bind, gets. destruct (nipstValidator db (Nipst atx) hash) eqn:Hv;
    unfold ret; intros [= <- <-]; [done|]. split; [done|]. eauto.
Qed.

(** X16.  [SyntacticallyValidateAtx] only reads: whatever it returns, the
    two stores, the identity store and the configuration are as before
    (only the caches may differ).  When it returns [nil], the hash of the
    challenge was computed and the NIPST validator accepted the NIPST of the
    ATX for that hash. *)
Theorem SyntacticallyValidateAtx_reads_only
    (atx : ActivationTx) (db : ActivationDb) (err : error) (db' : ActivationDb) :
  SyntacticallyValidateAtx atx db = Ret err db' →
  caches_only db db'
  ∧ (err = None →
     ∃ hash, ChallengeHash atx = Ok hash
             ∧ nipstValidator db (Nipst atx) hash = None).
Proof.
  intros Hrun. split.
  - revert Hrun. apply first_error_caches_only.
    apply Forall_cons_2; [intros ? ? ?; apply validatePrevAtx_caches_only|].
    apply Forall_cons_2; [intros ? ? ?; apply validatePositioningAtx_caches_only|].
    apply Forall_cons_2; [intros ? ? ?; apply validateActiveSet_caches_only|].
    apply Forall_cons_2; [|apply Forall_nil_2].
    intros d e d' [-> _]%validateNipst_inv. apply caches_only_refl.
  - intros ->. apply SyntacticallyValidateAtx_ok in Hrun
      as (db1 & db2 & db3 & H1 & H2 & H3 & H4).
    apply validateNipst_inv in H4 as [_ H4]. destruct (H4 eq_refl) as (hash & Hh & Hv).
    exists hash. split; [done|].
    apply validatePrevAtx_caches_only in H1 as (_ & _ & _ & _ & Hv1 & _).
    apply validatePositioningAtx_caches_only in H2 as (_ & _ & _ & _ & Hv2 & _).
    apply validateActiveSet_caches_only in H3 as (_ & _ & _ & _ & Hv3 & _).
    by rewrite <- Hv1, <- Hv2, <- Hv3.
Qed.
End validation.

Lemma SyntacticallyValidateAtx_prev_witness :
  prevAtx_ok (H:=exLib) ex_dbA ex_atxB
  ∧ ((∃ db', validatePrevAtx (H:=exLib) ex_atxB ex_dbA = Ret None db')
     ↔ prevAtx_ok (H:=exLib) ex_dbA ex_atxB).
Proof.
  destruct (SyntacticallyValidateAtx_prev (H:=exLib) ex_atxB ex_dbA)
    as (Hiff & Hwhole & _).
  split; [|exact Hiff].
  apply (Hwhole (state_after (SyntacticallyValidateAtx (H:=exLib) ex_atxB) ex_dbA)).
  apply run_ret. by vm_compute.
Defined.

Lemma SyntacticallyValidateAtx_reads_only_witness :
  let db' := state_after (SyntacticallyValidateAtx (H:=exLib) ex_atxB) ex_dbA in
  SyntacticallyValidateAtx (H:=exLib) ex_atxB ex_dbA = Ret None db'
  ∧ caches_only ex_dbA db'
  ∧ ∃ hash, ChallengeHash (TypesLib:=exLib) ex_atxB = Ok hash
            ∧ nipstValidator ex_dbA (Nipst ex_atxB) hash = None.
Proof.
  intros db'.
  assert (Hrun : SyntacticallyValidateAtx (H:=exLib) ex_atxB ex_dbA = Ret None db').
  { apply run_ret. by vm_compute. }
  destruct (SyntacticallyValidateAtx_reads_only (H:=exLib) ex_atxB ex_dbA None db' Hrun)
    as [Hc Hn].
  split; [exact Hrun|]. split; [exact Hc|]. by apply Hn.
Defined.

(** ** The traversal of the view *)

Section traversal.
Context `{TypesLib}.

Lemma GetAtx_activesetCache id db r db' :
  GetAtx id db = Ret r db' → activesetCache db' = activesetCache db.
Proof.
  unfold GetAtx, bind, atxCache_Get, atxs_Get, atxCache_Add, gets, ret.
  case_decide; [by intros [= _ <-]|].
  destruct (lru_Get _ _) as [[a|] c]; [by intros [= _ <-]|]. simpl.
  destruct (DB_Get _ _); [|by intros [= _ <-]].
  destruct (BytesAsAtx _); by intros [= _ <-].
Qed.

Lemma countAtxIds_activesetCache pubEpoch l set counter db r db' :
  countAtxIds pubEpoch l set counter db = Ret r db' →
  activesetCache db' = activesetCache db.
Proof.
  revert set counter db. induction l as [|id l IH]; intros set counter db; simpl.
  - unfold ret. by intros [= _ <-].
  - case_decide; [by apply IH|].
    intros ([oa err] & db1 & Hg & Hk)%bind_Ret_inv.
    apply GetAtx_activesetCache in Hg.
    destruct err as [e|]; [done|]. destruct oa as [a|]; [|done].
    unfold bind, gets in Hk. case_decide; apply IH in Hk; congruence.
Qed.

Lemma traversalFunc_activesetCache pubEpoch countingEpoch blk st db r db' :
  traversalFunc pubEpoch countingEpoch blk st db = Ret r db' →
  activesetCache db' = activesetCache db.
Proof.
  unfold traversalFunc, bind, gets, ret. case_decide.
  - by intros [= _ <-].
  - destruct (countAtxIds _ _ _ _ _) eqn:Hc; [|done].
    intros [= _ <-]. by eapply countAtxIds_activesetCache.
Qed.

Lemma forBlocks_activesetCache {St} (handler : Block → St → M (St * error))
    bs st db r db' :
  (∀ b st db r db', handler b st db = Ret r db' →
                    activesetCache db' = activesetCache db) →
  forBlocks handler bs st db = Ret r db' →
  activesetCache db' = activesetCache db.
Proof.
  intros Hh. revert st db. induction bs as [|b bs IH]; intros st db; simpl.
  - unfold ret. by intros [= _ <-].
  - intros ([st1 err] & db1 & Hb & Hk)%bind_Ret_inv.
    apply Hh in Hb. destruct err.
    + unfold ret in Hk. by injection Hk as _ <-.
    + apply IH in Hk. congruence.
Qed.

(** X17.  A failing [CalcActiveSetFromView] returns the count 0 and leaves
    the active-set cache as it was: a failure is never remembered, and the
    stores are untouched. *)
Theorem CalcActiveSetFromView_failure_not_cached
    (a : ActivationTx) (db : ActivationDb) (v : Z) (e : Error) (db' : ActivationDb) :
  CalcActiveSetFromView a db = Ret (v, Some e) db' →
  v = 0 ∧ activesetCache db' = activesetCache db ∧ caches_only db db'.
Proof.
  intros Hrun. split; [by eapply CalcActiveSetFromView_error_zero|].
  split; [|by eapply CalcActiveSetFromView_caches_only].
  revert Hrun. unfold CalcActiveSetFromView.
  destruct (ViewAsBytes _) as [vb|]; [|unfold ret; by intros [= _ _ <-]].
  unfold bind at 1, activesetCache_Get.
  destruct (lru_Get (activesetCache db) (BytesToHash vb)) as [[c|] cache] eqn:Hget.
  { unfold ret. by intros [= _ <-]. }
  assert (cache = activesetCache db) as ->.
  { revert Hget. unfold lru_Get. destruct (lru_find _ _); [done|]. by intros [= <-]. }
  rewrite with_activesetCache_id.
  unfold bind at 1, gets. case_decide.
  { unfold ret. by intros [= _ _ <-]. }
  intros ([st err] & db1 & Hf & Hk)%bind_Ret_inv.
  assert (Hsame : activesetCache db1 = activesetCache db).
  { revert Hf. unfold ForBlockInView, bind, gets, ret.
    destruct (visits _ _ _) as [bs terr].
    destruct (forBlocks _ bs _ db) as [[st1 err1] db2|] eqn:Hfb; [|done].
    eapply forBlocks_activesetCache in Hfb;
      [|intros ? ? ? ? ?; apply traversalFunc_activesetCache].
    destruct err1; by intros [= _ _ <-]. }
  destruct err.
  - unfold ret in Hk. by injection Hk as _ _ <-.
  - unfold bind, activesetCache_Add, ret in Hk. done.
Qed.

(** [countAtxIds] on ids that the store holds: the returned set is made of
    such ids, and the stores are as before. *)
Lemma countAtxIds_found pubEpoch l :
  ∀ set counter db r db',
    cache_coherent db →
    (∀ x, x ∈ set → is_Some (stored_atx (atxs db) x)) →
    countAtxIds pubEpoch l set counter db = Ret r db' →
    cache_coherent db' ∧ caches_only db db'
    ∧ ∀ x, x ∈ r.1 → is_Some (stored_atx (atxs db) x).
Proof.
  induction l as [|id l IH]; intros set counter db r db' Hco Hset; simpl.
  - unfold ret. intros [= <- <-]. auto using caches_only_refl.
  - case_decide; [by apply IH|].
    unfold bind at 1.
    destruct (GetAtx_coherent id db Hco) as (e & db1 & Hg & Hiff & [Hc _] & Hco1).
    rewrite Hg. destruct e as [e|]; [done|].
    destruct (stored_atx (atxs db) id) as [x|] eqn:Hx; [|done].
    pose proof Hc as (Ha & _).
    assert (Hset1 : ∀ y, y ∈ ({[id]} ∪ set : gset AtxId) →
                         is_Some (stored_atx (atxs db1) y)).
    { rewrite Ha. intros y [->%elem_of_singleton|Hy]%elem_of_union; [by eauto|auto]. }
    unfold bind, gets.
    case_decide; intros (Hco' & Hc' & Hr)%IH; try done;
      (split; [done|]); (split; [by eapply caches_only_trans|]);
      intros y Hy; rewrite <- Ha; auto.
Qed.

(** [countAtxIds] on a list with an id that the store does not hold. *)
Lemma countAtxIds_missing pubEpoch id l :
  ∀ set counter db,
    cache_coherent db →
    (∀ x, x ∈ set → is_Some (stored_atx (atxs db) x)) →
    id ∈ l → stored_atx (atxs db) id = None →
    countAtxIds pubEpoch l set counter db = Panic.
Proof.
  induction l as [|y l IH]; intros set counter db Hco Hset Hin Hid; simpl.
  { by apply elem_of_nil in Hin. }
  assert (Hne : y ∈ set → y ≠ id).
  { intros Hy ->. destruct (Hset _ Hy) as [? ?]. congruence. }
  case_decide as Hy.
  { apply IH; try done. apply elem_of_cons in Hin as [->|?]; [|done].
    by destruct (Hne Hy). }
  unfold bind at 1.
  destruct (GetAtx_coherent y db Hco) as (e & db1 & Hg & Hiff & [Hc _] & Hco1).
  rewrite Hg. destruct (stored_atx (atxs db) y) as [x|] eqn:Hx.
  2:{ destruct e as [e|]; [done|]. by destruct Hiff as [[? [=]] _]. }
  assert (e = None) as -> by (apply Hiff; eauto).
  pose proof Hc as (Ha & _).
  assert (Hin' : id ∈ l).
  { apply elem_of_cons in Hin as [->|?]; [congruence|done]. }
  assert (Hset1 : ∀ z, z ∈ ({[y]} ∪ set : gset AtxId) →
                       is_Some (stored_atx (atxs db1) z)).
  { rewrite Ha. intros z [->%elem_of_singleton|Hz]%elem_of_union; [by eauto|auto]. }
  unfold bind, gets. case_decide; apply IH; try done; by rewrite Ha.
Qed.

Lemma forBlocks_missing pubEpoch countingEpoch b id bs :
  ∀ st db,
    cache_coherent db →
    (∀ x, x ∈ st.1 → is_Some (stored_atx (atxs db) x)) →
    b ∈ bs → GetEpoch (LayerIndex b) (LayersPerEpoch db) = countingEpoch →
    id ∈ AtxIds b → stored_atx (atxs db) id = None →
    forBlocks (traversalFunc pubEpoch countingEpoch) bs st db = Panic.
Proof.
  induction bs as [|b0 bs IH]; intros st db Hco Hset Hin Hep Hid Hst; simpl.
  { by apply elem_of_nil in Hin. }
  unfold bind at 1.
  destruct (traversalFunc pubEpoch countingEpoch b0 st db) as [[st1 err] db1|] eqn:Ht;
    [|done].
  revert Ht. unfold traversalFunc, bind, gets.
  case_decide as Hb0.
  - unfold ret. intros [= <- <- <-].
    apply elem_of_cons in Hin as [->|Hin]; [done|]. by apply IH.
  - destruct (countAtxIds pubEpoch (AtxIds b0) st.1 st.2 db) as [r db2|] eqn:Hc; [|done].
    unfold ret. intros [= <- <- <-].
    apply elem_of_cons in Hin as [->|Hin].
    { by rewrite (countAtxIds_missing _ id _ _ _ _ Hco Hset Hid Hst) in Hc. }
    apply countAtxIds_found in Hc as (Hco2 & (Ha & _ & _ & HL & _) & Hr); try done.
    apply IH; try done; rewrite ?Ha, ?HL; done.
Qed.

(** X18.  [CalcActiveSetFromView] panics on an inconsistent database: when
    the count is not in the cache and the traversal reaches a block of the
    counting epoch that refers to an ATX the store does not hold, the call
    does not return (the source ends in [log.Panic]), and neither does the
    active-set check of the validation. *)
Theorem CalcActiveSetFromView_missing_atx_panics
    (a : ActivationTx) (db : ActivationDb) (vb : Bytes)
    (bs : list Block) (terr : error) (b : Block) (id : AtxId) :
  let L := LayersPerEpoch db in
  let pubEpoch := GetEpoch (PubLayerIdx a) L in
  ViewAsBytes (View a) = Ok vb →
  lru_find (BytesToHash vb) (entries (activesetCache db)) = None →
  1 ≤ pubEpoch →
  visits (meshDb db) (list_to_set (View a)) (wrap64 ((pubEpoch - 1) * L)) = (bs, terr) →
  b ∈ bs → GetEpoch (LayerIndex b) L = pubEpoch - 1 → id ∈ AtxIds b →
  cache_coherent db → stored_atx (atxs db) id = None →
  CalcActiveSetFromView a db = Panic ∧ validateActiveSet a db = Panic.
Proof.
  intros L pubEpoch Hvb Hmiss Hep Hvis Hb Hbe Hid Hco Hst.
  assert (Hcalc : CalcActiveSetFromView a db = Panic).
  { unfold CalcActiveSetFromView. rewrite Hvb.
    unfold bind at 1, activesetCache_Get.
    rewrite (lru_Get_miss _ _ Hmiss). rewrite with_activesetCache_id.
    unfold bind at 1, gets. fold L. fold pubEpoch.
    rewrite decide_False by lia.
    unfold bind at 1, ForBlockInView. unfold bind at 1, gets.
    rewrite Hvis. unfold bind at 1.
    by rewrite (forBlocks_missing pubEpoch (pubEpoch - 1) b id bs (∅, 0) db Hco). }
  split; [done|]. unfold validateActiveSet, bind. by rewrite Hcalc.
Qed.
End traversal.

Lemma CalcActiveSetFromView_failure_not_cached_witness :
  CalcActiveSetFromView (H:=exLib) ex_atxA ex_db
    = Ret (0, Some (Errorf "publication epoch cannot be less than 1, found %v")) ex_db
  ∧ 0 = 0 ∧ activesetCache ex_db = activesetCache ex_db ∧ caches_only ex_db ex_db.
Proof.
  assert (Hrun : CalcActiveSetFromView (H:=exLib) ex_atxA ex_db
                 = Ret (0, Some (Errorf "publication epoch cannot be less than 1, found %v"))
                     ex_db) by (by vm_compute).
  split; [exact Hrun|].
  exact (CalcActiveSetFromView_failure_not_cached (H:=exLib) ex_atxA ex_db 0 _ ex_db Hrun).
Defined.

Lemma ex_db1_cache_coherent : @cache_coherent exLib ex_db1.
Proof. intros id a Hin. by apply elem_of_nil in Hin. Qed.

(** On [ex_db1] the mesh holds a block that refers to [ex_atxA], and the
    store does not hold that ATX. *)
Lemma CalcActiveSetFromView_missing_atx_panics_witness :
  CalcActiveSetFromView (H:=exLib) ex_atxB ex_db1 = Panic
  ∧ validateActiveSet (H:=exLib) ex_atxB ex_db1 = Panic.
Proof.
  apply (CalcActiveSetFromView_missing_atx_panics (H:=exLib) ex_atxB ex_db1
           ex_viewBytes [ex_block1] None ex_block1 (ex_Id_of ex_atxA)).
  - by vm_compute.
  - by vm_compute.
  - by vm_compute.
  - by vm_compute.
  - apply list_elem_of_singleton. done.
  - by vm_compute.
  - apply list_elem_of_singleton. done.
  - apply ex_db1_cache_coherent.
  - by vm_compute.
Defined.

(** ** More on the writer *)

Section writer_failures.
Context `{TypesLib}.


(** X20.  A failing [storeAtxUnlocked] has not written the ATX store.
    Either nothing happened at all, or (the encoding or the write of the
    body failed) the NIPST store was written under the id: the ATX object
    of the caller has then lost its NIPST although the ATX is not stored. *)
Theorem storeAtxUnlocked_failure
    (a a' : ActivationTx) (e : Error) (db db' : ActivationDb) :
  storeAtxUnlocked a db = Ret (a', Some e) db' →
  atxs db' = atxs db
  ∧ ((a' = a ∧ db' = db)
     ∨ (a' = set_Nipst a None
        ∧ ∃ bn, NipstToBytes (Nipst a) = Ok bn
                ∧ db' = with_nipsts db (DB_write (nipsts db) (Id_of a) bn))).
Proof.
  unfold storeAtxUnlocked, AtxId_Bytes.
  destruct (NipstToBytes (Nipst a)) as [bn|];
    [|unfold ret; intros [= <- _ <-]; auto].
  intros (err & db1 & Hn & Hk)%bind_Ret_inv.
  apply nipsts_Put_inv in Hn as [(-> & _ & ->)|(-> & _ & ->)].
  { unfold ret in Hk. injection Hk as <- _ <-. auto. }
  destruct (AtxAsBytes _) as [ba|].
  2:{ unfold ret in Hk. injection Hk as <- _ <-. split; [done|]. right. eauto. }
  apply bind_Ret_inv in Hk as (err & db2 & Hp & Hk).
  unfold ret in Hk. injection Hk as <- -> <-.
  apply atxs_Put_inv in Hp as [(_ & _ & ->)|([=] & _)].
  split; [done|]. right. eauto.
Qed.

Lemma storeAtxUnlocked_Ret a db : ∃ r db', storeAtxUnlocked a db = Ret r db'.
Proof.
  unfold storeAtxUnlocked, bind, nipsts_Put, atxs_Put, ret.
  destruct (NipstToBytes _); [|eauto].
  destruct (DB_Put (nipsts db) _ _) as [d [e|]]; [eauto|].
  destruct (AtxAsBytes _); [|eauto]. destruct (DB_Put _ _ _); eauto.
Qed.

(** X21.  A positioning record that cannot be read is not treated like a
    missing one.  When the read of the record fails with anything but
    [ErrNotFound] (an I/O error, or bytes that do not decode), every
    [StoreAtx] of an ATX that is not stored yet returns an error, and
    neither the counter of the epoch nor the record is written. *)
Theorem StoreAtx_unreadable_posAtx
    (ech : EpochId) (a : ActivationTx) (db : ActivationDb) (e : Error) :
  id_is_hash → id_ignores_nipst →
  (getCurrentAtxIdAndLayer db).2 = Some e → e ≠ ErrNotFound →
  ¬ already_stored db a →
  ∃ a' e' db',
    StoreAtx ech a db = Ret (a', Some e') db'
    ∧ DB_Get (atxs db') posAtxKey = DB_Get (atxs db) posAtxKey
    ∧ DB_Get (atxs db') (epochCounterKey ech) = DB_Get (atxs db) (epochCounterKey ech).
Proof.
  intros Hlen Hnip Hcur He Hnew.
  destruct (storeAtxUnlocked_Ret a db) as ([a1 e1] & db1 & Hs).
  pose proof (λ k, storeAtxUnlocked_Get _ _ _ _ k Hs) as Hg. rewrite Hnip in Hg.
  pose proof (Hg _ (not_eq_sym (hash_not_posAtxKey _ (Hlen a)))) as Hgp.
  pose proof (Hg _ (not_eq_sym (hash_not_counterKey _ ech (Hlen a)))) as Hgc.
  assert (Hrun : StoreAtx ech a db =
    (match e1 with
     | Some e => ret (a1, Some e)
     | None =>
         let* err := updatePosAtxIfNeeded a1 in
         match err with
         | Some e => ret (a1, Some e)
         | None =>
             let* err := incValidAtxCounter ech in
             match err with
             | Some e => ret (a1, Some e)
             | None =>
                 let* err := addAtxToNodeId (NodeId_ a1) a1 in
                 match err with
                 | Some e => ret (a1, Some e)
                 | None => ret (a1, None)
                 end
             end
         end
     end) db1).
  { unfold StoreAtx. unfold bind at 1, atxs_Get, gets.
    destruct (DB_Get (atxs db) (AtxId_Bytes (Id_of a))) as [[|c s]|e0] eqn:Hget.
    2:{ destruct Hnew. unfold already_stored. eauto. }
    all: unfold bind at 1; by rewrite Hs. }
  rewrite Hrun. destruct e1 as [e1|]; [unfold ret; eauto 6|].
  assert (Hp : updatePosAtxIfNeeded a1 db1
               = Ret (Some (Errorf "failed to get current ATX ID and layer: %v")) db1).
  { unfold updatePosAtxIfNeeded. unfold bind at 1, gets.
    rewrite (getCurrentAtxIdAndLayer_ext _ _ Hgp).
    destruct (getCurrentAtxIdAndLayer db) as [cur err]. simpl in Hcur. subst err.
    rewrite andb_true_intro; [done|].
    split; apply bool_decide_eq_true; congruence. }
  unfold bind at 1. rewrite Hp. unfold ret. eauto 6.
Qed.
End writer_failures.


Lemma storeAtxUnlocked_failure_witness :
  let db' := state_after (storeAtxUnlocked (H:=exLib) ex_atxA) ex_dbNoBody in
  storeAtxUnlocked (H:=exLib) ex_atxA ex_dbNoBody
    = Ret (set_Nipst ex_atxA None, Some ErrIO) db'
  ∧ atxs db' = atxs ex_dbNoBody
  ∧ ((set_Nipst ex_atxA None = ex_atxA ∧ db' = ex_dbNoBody)
     ∨ (set_Nipst ex_atxA None = set_Nipst ex_atxA None
        ∧ ∃ bn, NipstToBytes (TypesLib:=exLib) (Nipst ex_atxA) = Ok bn
                ∧ db' = with_nipsts ex_dbNoBody
                          (DB_write (nipsts ex_dbNoBody) (ex_Id_of ex_atxA) bn))).
Proof.
  intros db'.
  assert (Hrun : storeAtxUnlocked (H:=exLib) ex_atxA ex_dbNoBody
                 = Ret (set_Nipst ex_atxA None, Some ErrIO) db').
  { apply run_ret. by vm_compute. }
  split; [exact Hrun|].
  exact (storeAtxUnlocked_failure (H:=exLib) ex_atxA _ _ ex_dbNoBody db' Hrun).
Defined.

Lemma StoreAtx_unreadable_posAtx_witness :
  ∃ a' e' db',
    StoreAtx (H:=exLib) 0 ex_atxA ex_dbPosFault = Ret (a', Some e') db'
    ∧ DB_Get (atxs db') posAtxKey = DB_Get (atxs ex_dbPosFault) posAtxKey
    ∧ DB_Get (atxs db') (epochCounterKey 0)
      = DB_Get (atxs ex_dbPosFault) (epochCounterKey 0).
Proof.
  apply (StoreAtx_unreadable_posAtx (H:=exLib) 0 ex_atxA ex_dbPosFault ErrIO
           exLib_id_is_hash exLib_id_ignores_nipst).
  - by vm_compute.
  - done.
  - intros (c & s & Hc). vm_compute in Hc. discriminate.
Defined.

(** ** The constructor *)

Section constructor.
Context `{TypesLib} `{NipstCodec}.

Lemma DB_Get_emptyDB k : DB_Get emptyDB k = Err ErrNotFound.
Proof. apply DB_Get_NotFound. split; [apply not_elem_of_empty|apply lookup_empty]. Qed.

(** X22.  The database that [NewActivationDb] builds over empty stores: it is
    a fresh database with an ATX cache of 350 entries, every query reports
    that nothing is there ([ErrNotFound], or the error of [ActiveSetSize]),
    no identity is active outside epoch 0, and the contextual validation
    accepts exactly the ATXs that name no previous ATX. *)
Theorem NewActivationDb_empty
    (mesh : MeshDB) (L : Z) (validator : option NIPST → Hash → error)
    (activeset : Lru Hash Z) :
  let db := NewActivationDb emptyDB emptyDB ∅ mesh L validator activeset in
  fresh_database db
  ∧ capacity (atxCache db) = 350%nat
  ∧ (∀ id, id ≠ EmptyAtxId → GetAtx id db = Ret (None, Some ErrNotFound) db)
  ∧ (∀ id, GetNipst db id = (None, Some ErrNotFound))
  ∧ (∀ e, ActiveSetSize db e
          = Some (0, Some (Errorf "could not fetch active set size from cache: %v")))
  ∧ (∀ e, GetPosAtxId db e = (EmptyAtxId, Some ErrNotFound))
  ∧ (∀ n, GetNodeLastAtxId db n = (EmptyAtxId, Some ErrNotFound))
  ∧ (∀ a, ContextuallyValidateAtx db a = None ↔ PrevATXId a = EmptyAtxId)
  ∧ (∀ edId layer, GetEpoch layer L ≠ 0 →
       IsIdentityActive edId layer db = Ret (false, EmptyAtxId, None) db).
Proof.
  intros db.
  assert (Hlast : ∀ n, GetNodeLastAtxId db n = (EmptyAtxId, Some ErrNotFound)).
  { intros n. unfold GetNodeLastAtxId. simpl. by rewrite DB_Get_emptyDB. }
  split_and!.
  - by unfold fresh_database.
  - done.
  - intros id Hid. unfold GetAtx. rewrite decide_False by done.
    unfold bind, atxCache_Get, atxs_Get, gets, ret. simpl.
    by rewrite DB_Get_emptyDB.
  - intros id. unfold GetNipst. simpl. by rewrite DB_Get_emptyDB.
  - intros e. unfold ActiveSetSize. simpl. by rewrite DB_Get_emptyDB.
  - intros e. unfold GetPosAtxId, getCurrentAtxIdAndLayer. simpl.
    by rewrite DB_Get_emptyDB.
  - exact Hlast.
  - intros a. unfold ContextuallyValidateAtx. rewrite Hlast.
    case_decide as Hp; [|by rewrite decide_False by (by intros Hn; apply Hn)].
    split; [done|]. intros Heq. by destruct Hp.
  - intros edId layer He. unfold IsIdentityActive.
    unfold bind at 1, gets at 1. change (LayersPerEpoch db) with L.
    rewrite decide_False by done.
    unfold bind at 1, gets at 1, GetIdentity.
    change (ids db) with (∅ : IdStore). unfold lookup, IdStore_lookup. simpl.
    by rewrite lookup_empty.
Qed.
End constructor.

Lemma NewActivationDb_empty_witness :
  let db := NewActivationDb emptyDB emptyDB ∅ ex_mesh 4 (λ _ _, None) (mkLru 1000 []) in
  db = ex_db
  ∧ GetAtx (H:=exLib) (ex_Id_of ex_atxA) db = Ret (None, Some ErrNotFound) db
  ∧ IsIdentityActive (H:=exLib) (Key ex_node) 7 db = Ret (false, EmptyAtxId, None) db.
Proof.
  intros db.
  destruct (NewActivationDb_empty (H:=exLib) (H0:=exNipst) ex_mesh 4 (λ _ _, None)
              (mkLru 1000 [])) as (_ & _ & Hget & _ & _ & _ & _ & _ & Hact).
  split; [done|]. split.
  - apply Hget. intros Heq. vm_compute in Heq. discriminate.
  - apply Hact. by vm_compute.
Defined.

(** * The discovery mocks *)

Section mock_facts.
Import discovery_mock.
Context {Node NodeInfo PublicKey KnownAddress World : Type}.

Lemma wrapInt_small z : - 2 ^ 63 ≤ z < 2 ^ 63 → wrapInt z = z.
Proof. intros Hz. unfold wrapInt. rewrite Z.mod_small; lia. Qed.

(** X23.  [MockPeerStore] counts the calls of [Update], with or without a
    callback: after [Update] on each pair of a list, [UpdateCount] and [Size]
    have grown by the length of the list, the callback (if one is set) was
    run on each pair in order, and nothing else of the mock has changed. *)
Theorem MockPeerStore_Update_counts
    (l : list (Node * Node)) (m : MockPeerStore Node PublicKey World) (w : World) :
  0 ≤ updateCount m → updateCount m + Z.of_nat (length l) < 2 ^ 63 →
  UpdateCount (Updates l m w).1 = updateCount m + Z.of_nat (length l)
  ∧ Size (Updates l m w).1 = UpdateCount (Updates l m w).1
  ∧ (Updates l m w).2
    = fold_left (λ w p, match UpdateFunc m with
                        | Some f => f p.1 p.2 w
                        | None => w
                        end) l w
  ∧ BootstrapCount (Updates l m w).1 = BootstrapCount m
  ∧ ∀ k w', Lookup k (Updates l m w).1 w' = Lookup k m w'.
Proof.
  unfold UpdateCount, Size, BootstrapCount.
  revert m w. induction l as [|[n src] l IH]; intros m w H0 Hlt.
  - simpl. split_and!; try done. lia.
  - simpl length in Hlt. simpl.
    rewrite (wrapInt_small (updateCount m + 1)) by lia.
    lazymatch goal with
    | |- context [Updates l ?m1 ?w1] =>
        destruct (IH m1 w1) as (H1 & H2 & H3 & H4 & H5); simpl; [lia..|]
    end.
    simpl in *. split_and!; try done. lia.
Qed.

Lemma addEach_spec (f : NodeInfo → NodeInfo → World → World) (n : list NodeInfo)
    (src : NodeInfo) (m : mockAddrBook NodeInfo PublicKey KnownAddress World) (w : World) :
  0 ≤ addressCount m → addressCount m + Z.of_nat (length n) < 2 ^ 63 →
  addEach f n src m w
  = (with_addressCount m (addressCount m + Z.of_nat (length n)),
     fold_left (λ w addr, f addr src w) n w).
Proof.
  revert m w. induction n as [|addr n IH]; intros m w H0 Hlt.
  - simpl. rewrite Z.add_0_r. by destruct m.
  - simpl length in Hlt. simpl. rewrite IH; simpl; rewrite wrapInt_small by lia; [|lia..].
    unfold with_addressCount. simpl. do 2 f_equal. lia.
Qed.

(** X24.  [mockAddrBook.AddAddresses] counts only when a callback is set.
    Without a callback it changes nothing, whatever the list, while
    [AddAddress] counts every call; with a callback it runs the callback on
    each address in order and [NumAddresses] grows by the length of the
    list, as for [AddAddress] on each address in turn. *)
Theorem mockAddrBook_AddAddresses_counts
    (n : list NodeInfo) (src : NodeInfo)
    (m : mockAddrBook NodeInfo PublicKey KnownAddress World) (w : World) :
  0 ≤ addressCount m → addressCount m + Z.of_nat (length n) < 2 ^ 63 →
  NumAddresses (AddAddress_each n src m w).1 = addressCount m + Z.of_nat (length n)
  ∧ match addAddressFunc m with
    | None =>
        AddAddresses n src m w = (m, w)
        ∧ (AddAddress_each n src m w).2 = w
    | Some f =>
        AddAddresses n src m w = AddAddress_each n src m w
        ∧ NumAddresses (AddAddresses n src m w).1
          = addressCount m + Z.of_nat (length n)
        ∧ (AddAddresses n src m w).2 = fold_left (λ w addr, f addr src w) n w
    end.
Proof.
  unfold NumAddresses. intros H0 Hlt.
  assert (Heach : ∀ n (m : mockAddrBook NodeInfo PublicKey KnownAddress World) w,
            0 ≤ addressCount m → addressCount m + Z.of_nat (length n) < 2 ^ 63 →
            AddAddress_each n src m w
            = (with_addressCount m (addressCount m + Z.of_nat (length n)),
               match addAddressFunc m with
               | Some f => fold_left (λ w addr, f addr src w) n w
               | None => w
               end)).
  { clear. induction n as [|addr n IH]; intros m w H0 Hlt.
    - simpl. rewrite Z.add_0_r. destruct m as [[f|] ? ? ? ? ? ? ?]; done.
    - simpl length in Hlt. simpl. rewrite IH; simpl; rewrite wrapInt_small by lia; [|lia..].
      unfold with_addressCount. simpl.
      replace (addressCount m + 1 + Z.of_nat (length n))
        with (addressCount m + Z.of_nat (S (length n))) by lia.
      by destruct (addAddressFunc m). }
  rewrite Heach by done. split; [done|].
  unfold AddAddresses. destruct (addAddressFunc m) as [f|] eqn:Hf.
  - rewrite addEach_spec by done. done.
  - done.
Qed.
End mock_facts.

Lemma MockPeerStore_Update_counts_witness :
  let m := discovery_mock.mkMockPeerStore (Node:=Z) (PublicKey:=Z) (World:=list Z)
             (Some (λ n _ w, n :: w)) 0 None None 0 None 0 None in
  let r := discovery_mock.Updates [(1, 0); (2, 0); (3, 0)] m [] in
  discovery_mock.UpdateCount r.1 = 3
  ∧ discovery_mock.Size r.1 = discovery_mock.UpdateCount r.1
  ∧ r.2 = [3; 2; 1].
Proof.
  intros m r.
  destruct (MockPeerStore_Update_counts (Node:=Z) (PublicKey:=Z) (World:=list Z)
              [(1, 0); (2, 0); (3, 0)] m []) as (H1 & H2 & H3 & _).
  - simpl. lia.
  - simpl. lia.
  - split; [exact H1|]. split; [exact H2|]. exact H3.
Defined.

Lemma mockAddrBook_AddAddresses_counts_witness :
  let m := discovery_mock.mkMockAddrBook (NodeInfo:=Z) (PublicKey:=Z)
             (KnownAddress:=Z) (World:=list Z) None 0 None 0 None None None [] in
  discovery_mock.NumAddresses (discovery_mock.AddAddress_each [1; 2] 0 m []).1 = 2
  ∧ discovery_mock.AddAddresses [1; 2] 0 m [] = (m, [])
  ∧ discovery_mock.NumAddresses (discovery_mock.AddAddresses [1; 2] 0 m []).1 = 0.
Proof.
  intros m.
  destruct (mockAddrBook_AddAddresses_counts (NodeInfo:=Z) (PublicKey:=Z)
              (KnownAddress:=Z) (World:=list Z) [1; 2] 0 m []) as (H1 & H2 & _).
  - simpl. lia.
  - simpl. lia.
  - split; [exact H1|]. split; [exact H2|]. by rewrite H2.
Defined.

(** ** An inactive identity with an ATX id *)

Section inactive.
Context `{TypesLib}.

(** X25.  [IsIdentityActive] can answer [false] together with an ATX id.
    Outside epoch 0 and with a cache that agrees with the store, the answer
    is [false] with an id other than the empty one exactly if the last ATX
    of the node targets a later epoch and names a previous ATX in the store
    that does not target the epoch of the layer; the id is that of the
    previous ATX.  In every other case [false] comes with the empty id. *)
Theorem IsIdentityActive_false_with_id
    (edId : string) (layer : LayerID) (db : ActivationDb) (id : AtxId) :
  cache_coherent db →
  GetEpoch layer (LayersPerEpoch db) ≠ 0 →
  id ≠ EmptyAtxId →
  (∃ err db', IsIdentityActive edId layer db = Ret (false, id, err) db')
  ↔ ∃ nodeId last x p,
      ids db !! edId = Some nodeId
      ∧ GetNodeLastAtxId db nodeId = (last, None)
      ∧ stored_atx (atxs db) last = Some x
      ∧ TargetEpoch x (LayersPerEpoch db) > GetEpoch layer (LayersPerEpoch db)
      ∧ stored_atx (atxs db) (PrevATXId x) = Some p
      ∧ TargetEpoch p (LayersPerEpoch db) ≠ GetEpoch layer (LayersPerEpoch db)
      ∧ id = Id_of p.
Proof.
  intros Hco He Hid.
  destruct (IsIdentityActive_coherent edId layer db Hco) as (db' & Hact & _).
  rewrite Hact. clear Hact Hco.
  assert (Hpure : (∃ err, identity_status db edId layer = (false, id, err))
    ↔ ∃ nodeId last x p,
        ids db !! edId = Some nodeId
        ∧ GetNodeLastAtxId db nodeId = (last, None)
        ∧ stored_atx (atxs db) last = Some x
        ∧ TargetEpoch x (LayersPerEpoch db) > GetEpoch layer (LayersPerEpoch db)
        ∧ stored_atx (atxs db) (PrevATXId x) = Some p
        ∧ TargetEpoch p (LayersPerEpoch db) ≠ GetEpoch layer (LayersPerEpoch db)
        ∧ id = Id_of p).
  { unfold identity_status. rewrite decide_False by done.
    set (L := LayersPerEpoch db). set (e := GetEpoch layer L) in *.
    split.
    - intros [err Hr].
      destruct (ids db !! edId) as [nodeId|]; [|by injection Hr as <-].
      destruct (GetNodeLastAtxId db nodeId) as [last [e0|]] eqn:Hl;
        [by injection Hr as <-|].
      destruct (stored_atx (atxs db) last) as [x|] eqn:Hx; [|by injection Hr as <-].
      destruct (decide (TargetEpoch x L < e)); [by injection Hr as <-|].
      destruct (decide (TargetEpoch x L > e)).
      + destruct (stored_atx (atxs db) (PrevATXId x)) as [p|] eqn:Hp;
          [|by injection Hr as <-].
        injection Hr as Hb <- _. apply bool_decide_eq_false in Hb.
        exists nodeId, last, x, p. done.
      + injection Hr as Hb _ _. apply bool_decide_eq_false in Hb. lia.
    - intros (nodeId & last & x & p & -> & -> & -> & HT & -> & HTp & ->).
      exists None. rewrite decide_False by lia. rewrite decide_True by done.
      by rewrite bool_decide_eq_false_2. }
  rewrite <- Hpure. split.
  - intros (err & db'' & [= Hr _]). eauto.
  - intros [err Hr]. exists err, db'. by rewrite Hr.
Qed.
End inactive.

(** The witness: the node has published [ex_atxA], [ex_atxB] and [ex_atxC]
    (target epochs 1, 2 and 3); for a layer of epoch 1 the answer is [false]
    with the id of [ex_atxB]. *)
Lemma IsIdentityActive_false_with_id_witness :
  (∃ err db', IsIdentityActive (H:=exLib) (Key ex_node) 7 ex_dbABC
              = Ret (false, ex_Id_of ex_atxB, err) db')
  ∧ ∃ nodeId last x p,
      ids ex_dbABC !! Key ex_node = Some nodeId
      ∧ GetNodeLastAtxId (H:=exLib) ex_dbABC nodeId = (last, None)
      ∧ stored_atx (H:=exLib) (atxs ex_dbABC) last = Some x
      ∧ TargetEpoch x (LayersPerEpoch ex_dbABC) > GetEpoch 7 (LayersPerEpoch ex_dbABC)
      ∧ stored_atx (H:=exLib) (atxs ex_dbABC) (PrevATXId x) = Some p
      ∧ TargetEpoch p (LayersPerEpoch ex_dbABC) ≠ GetEpoch 7 (LayersPerEpoch ex_dbABC)
      ∧ ex_Id_of ex_atxB = ex_Id_of p.
Proof.
  assert (Hrun : ∃ err db', IsIdentityActive (H:=exLib) (Key ex_node) 7 ex_dbABC
                            = Ret (false, ex_Id_of ex_atxB, err) db').
  { eexists _, _. apply run_ret. by vm_compute. }
  split; [exact Hrun|].
  apply (IsIdentityActive_false_with_id (H:=exLib) (Key ex_node) 7 ex_dbABC
           (ex_Id_of ex_atxB)); [| | |exact Hrun].
  - intros id a Hin. vm_compute in Hin.
    repeat (apply elem_of_cons in Hin as [[= <- <-]|Hin]; [by vm_compute|]).
    by apply elem_of_nil in Hin.
  - by vm_compute.
  - intros Heq. vm_compute in Heq. discriminate.
Defined.
